(** * Bon UI: rendering pipeline and virtual-tree reconciliation

    A shallow embedding of [Sources/VirtualDOM/Reconciler.js] and of the
    rendering and lifecycle part of [Sources/Views/View.js], with the
    properties of the design document stated over it.

    The definitions come first: the reconciler with the live tree it acts
    on, the rendering and the lifecycle of views, the property builders.
    The properties follow, module by module.  Line numbers in the comments
    are those of the listings of the two source files. *)

From stdpp Require Import gmap strings list fin_maps.
From Stdlib Require Import ZArith.


(** * Virtual nodes as the reconciler sees them *)

Module Reconciler.

(** Identity of a live output node (a DOM [Node]) and of a [View] instance. *)
Definition DomId := nat.
Definition ViewId := nat.

(** [VNodeType] of VirtualDOM/VNode.js: the design document lists the kinds
    Element, Text and Fragment; the reconciler only tests for [text]. *)
Inductive VNodeType := element | text | fragment.

(** A key set by [View.setKey]: [null], a number (an integer here) or a
    string. *)
Inductive Key :=
| KNull
| KNum (n : Z)
| KStr (s : string).

(** A style or attribute value: an object with an identity and a [toString()]. *)
Record Value := mkValue { value_ref : nat; value_str : string }.

(** An entry of a handler list: a function (with its identity) or anything
    else; [typeof h === "function"] tells them apart. *)
Inductive Handler :=
| HFunction (f : nat)
| HOther (v : nat).

(** The fields of a [VNode] read or written by the reconciler.  The three
    JS objects used as dictionaries are finite maps: [i in o] is
    [is_Some (o !! i)] (the keys are own properties, no name of
    [Object.prototype] among them) and [for (let i in o)] enumerates
    [map_to_list o]. *)
#[warnings="-register-all"]
Inductive VNode := mkVNode {
  tag : option string;
  type : VNodeType;
  key : Key;
  styles : gmap string Value;
  attributes : gmap string Value;
  events : gmap string (list Handler);
  body : list VNode;
  dom : option DomId;
  view : option ViewId
}.

#[global] Instance VNodeType_eq_dec : EqDecision VNodeType.
Proof. solve_decision. Defined.
#[global] Instance Key_eq_dec : EqDecision Key.
Proof. solve_decision. Defined.
#[global] Instance Value_eq_dec : EqDecision Value.
Proof. solve_decision. Defined.
#[global] Instance Handler_eq_dec : EqDecision Handler.
Proof. solve_decision. Defined.

(** JS truthiness of a key: [null], [0] and the empty string are falsy. *)
Definition truthy (k : Key) : bool :=
  match k with
  | KNull => false
  | KNum n => negb (n =? 0)%Z
  | KStr s => negb (String.eqb s "")
  end.

(** [typeof h === "function"] *)
Definition is_function (h : Handler) : bool :=
  match h with HFunction _ => true | HOther _ => false end.

(** One call made by the reconciler on the live tree or on a [View]. *)
Inductive Call :=
| SetStyle (d : DomId) (name : string) (v : string)
| RemoveEventListener (d : DomId) (name : string) (h : option Handler)
| AddEventListener (d : DomId) (name : string) (h : Handler)
| RemoveAttribute (d : DomId) (name : string)
| SetAttribute (d : DomId) (name : string) (v : string)
| ToHTMLNode (v : VNode)
| ReplaceWith (d : DomId) (new : DomId)
| RemoveChild (d : DomId)
| InsertAfter (ref : DomId) (new : DomId)
| Prepend (parent : DomId) (new : DomId)
| HandleMount (w : ViewId)
| HandleInvalidation (w : ViewId).

(** [v] with other children and another live node: what the assignments to
    [vNode.body[i]] and to [vNode.dom] leave of [v]. *)
Definition bound_to (v : VNode) (b : list VNode) (d : option DomId) : VNode :=
  mkVNode (tag v) (type v) (key v) (styles v) (attributes v) (events v) b d
          (view v).

(** ** Materialization

    Modelled from the spec: [VNode.toHTMLNode({ save: true })]
    (VirtualDOM/VNode.js is not among the sources).  The design document
    only says that materializing creates a fresh live node for the virtual
    node and binds it; here the node and then its descendants, in document
    order, receive the next unused identities, starting at [c]. *)
Definition toHTMLNodes (rec : VNode → nat → VNode * nat)
  : list VNode → nat → list VNode * nat :=
  fix each (l : list VNode) (c : nat) : list VNode * nat :=
    match l with
    | [] => ([], c)
    | x :: r =>
        let '(x', c1) := rec x c in
        let '(r', c2) := each r c1 in
        (x' :: r', c2)
    end.

Fixpoint toHTMLNode (v : VNode) (c : nat) : VNode * nat :=
  let '(b, c') := toHTMLNodes toHTMLNode (body v) (S c) in
  (bound_to v b (Some c), c').

(** ** [Reconciler.updateVNodeDOM] *)

(** The test of the first [if]: a tag change, or a text node on either side. *)
Definition irreconcilable (lastVNode vNode : VNode) : bool :=
  bool_decide (tag lastVNode ≠ tag vNode)
  || bool_decide (type lastVNode = text)
  || bool_decide (type vNode = text).

(** [lastVNode.dom.f(...)] inside a loop: a [TypeError] when [dom] is
    missing, but only if the loop body makes a call at all, which does not
    depend on the node the calls are made on. *)
Definition on_dom (o : option DomId) (calls : DomId → list Call)
  : option (list Call) :=
  match o with
  | Some d => Some (calls d)
  | None => match calls 0 with [] => Some [] | _ :: _ => None end
  end.

(** First style loop: keys of [lastVNode.styles] not [in vNode.styles]. *)
Definition clearStyles (ls vs : gmap string Value) (d : DomId) : list Call :=
  map_to_list ls ≫= λ '(i, _), match vs !! i with
                                | None => [SetStyle d i ""]
                                | Some _ => []
                                end.

(** Second style loop: keys of [vNode.styles] that are new or whose string
    form differs. *)
Definition writeStyles (ls vs : gmap string Value) (d : DomId) : list Call :=
  map_to_list vs ≫= λ '(i, x),
    match ls !! i with
    | Some y => if decide (value_str y = value_str x)
                then [] else [SetStyle d i (value_str x)]
    | None => [SetStyle d i (value_str x)]
    end.

(** First event loop.  The inner loop runs over the indices of
    [vNode.events[i]] and removes [lastVNode.events[i][j]], which is
    [undefined] past the end of the old list. *)
Definition detachEvents (le ve : gmap string (list Handler)) (d : DomId)
  : list Call :=
  map_to_list le ≫= λ '(i, hs),
    match ve !! i with
    | None => []
    | Some ws => (λ j, RemoveEventListener d i (hs !! j)) <$> seq 0 (length ws)
    end.

(** Second event loop. *)
Definition attachEvents (ve : gmap string (list Handler)) (d : DomId)
  : list Call :=
  map_to_list ve ≫= λ '(i, ws),
    ws ≫= λ h, if is_function h then [AddEventListener d i h] else [].

Definition removeAttributes (la va : gmap string Value) (d : DomId)
  : list Call :=
  map_to_list la ≫= λ '(i, _), match va !! i with
                                | None => [RemoveAttribute d i]
                                | Some _ => []
                                end.

Definition setAttributes (la va : gmap string Value) (d : DomId)
  : list Call :=
  map_to_list va ≫= λ '(i, x),
    match la !! i with
    | Some y => if decide (value_str y = value_str x)
                then [] else [SetAttribute d i (value_str x)]
    | None => [SetAttribute d i (value_str x)]
    end.

(** The calls of lines 76-112, on the live node [d] of [lastVNode]. *)
Definition diffNode (lastVNode vNode : VNode) (d : DomId) : list Call :=
  clearStyles (styles lastVNode) (styles vNode) d
  ++ writeStyles (styles lastVNode) (styles vNode) d
  ++ detachEvents (events lastVNode) (events vNode) d
  ++ attachEvents (events vNode) d
  ++ removeAttributes (attributes lastVNode) (attributes vNode) d
  ++ setAttributes (attributes lastVNode) (attributes vNode) d.

(** The inner search of the keyed regime: the first [j] with
    [vNode.body[j].key && k && k === vNode.body[j].key]. *)
Fixpoint find_key (k : Key) (ns : list VNode) (j : nat)
  : option (nat * VNode) :=
  match ns with
  | [] => None
  | n :: rest =>
      if truthy (key n) && truthy k && bool_decide (k = key n)
      then Some (j, n)
      else find_key k rest (S j)
  end.

(** Test of line 133 on a child of [vNode]. *)
Definition needs_node (keysUpdated : list Key) (n : VNode) : bool :=
  negb (truthy (key n))
  || (truthy (key n) && negb (bool_decide (key n ∈ keysUpdated))).

(** Lines 141-143: the post-mount hook of the view of a node, if any. *)
Definition mount_hook (n : VNode) : list Call :=
  match view n with
  | Some w => [HandleMount w]
  | None => []
  end.

(** The loop of lines 132-145. [prev] is [vNode.body[i - 1]], absent for
    the first child. *)
Fixpoint placeNew (lastDom : option DomId) (keysUpdated : list Key)
    (prev : option VNode) (ns : list VNode) (c : nat)
  : option (list VNode * nat * list Call) :=
  match ns with
  | [] => Some ([], c, [])
  | n :: rest =>
      if needs_node keysUpdated n then
        let '(n', c1) := toHTMLNode n c in
        new ← dom n';
        place ← match prev with
                | Some p => d ← dom p; Some (InsertAfter d new)
                | None => d ← lastDom; Some (Prepend d new)
                end;
        '(rest', c2, t) ← placeNew lastDom keysUpdated (Some n') rest c1;
        Some (n' :: rest', c2, ToHTMLNode n' :: place :: mount_hook n' ++ t)
      else
        '(rest', c2, t) ← placeNew lastDom keysUpdated (Some n) rest c;
        Some (n :: rest', c2, t)
  end.

(** The loop of lines 116-130, over the children of [lastVNode]; [ns] is
    [vNode.body], whose matched entries are updated by the recursive call
    [rec]. *)
Definition keyed (rec : VNode → VNode → nat → option (VNode * nat * list Call))
  : list VNode → list VNode → list Key → nat
    → option (list VNode * list Key * nat * list Call) :=
  fix each (ls ns : list VNode) (keysUpdated : list Key) (c : nat) {struct ls}
    : option (list VNode * list Key * nat * list Call) :=
    match ls with
    | [] => Some (ns, keysUpdated, c, [])
    | l :: ls' =>
        match find_key (key l) ns 0 with
        | Some (j, n) =>
            '(n', c1, t1) ← rec l n c;
            '(ns2, keys2, c2, t2) ←
              each ls' (<[j := n']> ns) (keysUpdated ++ [key n]) c1;
            Some (ns2, keys2, c2, t1 ++ t2)
        | None =>
            d ← dom l;
            '(ns2, keys2, c2, t2) ← each ls' ns keysUpdated c;
            Some (ns2, keys2, c2, RemoveChild d :: t2)
        end
    end.

(** The loop of lines 147-149: child [i] against child [i]. *)
Definition positional
    (rec : VNode → VNode → nat → option (VNode * nat * list Call))
  : list VNode → list VNode → nat → option (list VNode * nat * list Call) :=
  fix each (ls ns : list VNode) (c : nat) {struct ls}
    : option (list VNode * nat * list Call) :=
    match ls, ns with
    | _, [] => Some ([], c, [])
    | [], _ :: _ => None
    | l :: ls', n :: ns' =>
        '(n', c1, t1) ← rec l n c;
        '(ns2, c2, t2) ← each ls' ns' c1;
        Some (n' :: ns2, c2, t1 ++ t2)
    end.

Definition invalidation_hook (vNode : VNode) : list Call :=
  match view vNode with
  | Some w => [HandleInvalidation w]
  | None => []
  end.

(** [updateVNodeDOM lastVNode vNode c] is the updated [vNode] (its [dom]
    fields written), the next unused live identity and the calls made, in
    order; [None] stands for a [TypeError] on a missing [dom] or child. *)
Fixpoint updateVNodeDOM (lastVNode vNode : VNode) (c : nat) {struct lastVNode}
  : option (VNode * nat * list Call) :=
  if irreconcilable lastVNode vNode then
    d ← dom lastVNode;
    let '(v', c') := toHTMLNode vNode c in
    new ← dom v';
    Some (v', c', [ToHTMLNode v'; ReplaceWith d new])
  else
    t0 ← on_dom (dom lastVNode) (diffNode lastVNode vNode);
    '(b, c', t1) ←
      (if bool_decide (length (body lastVNode) ≠ length (body vNode)) then
         '(ns, keysUpdated, c1, t1) ←
           keyed updateVNodeDOM (body lastVNode) (body vNode) [] c;
         '(ns', c2, t2) ← placeNew (dom lastVNode) keysUpdated None ns c1;
         Some (ns', c2, t1 ++ t2)
       else
         positional updateVNodeDOM (body lastVNode) (body vNode) c);
    Some (bound_to vNode b (dom lastVNode),
          c', t0 ++ t1 ++ invalidation_hook vNode).

(** ** The live output tree

    Modelled from the spec: the live output tree and its attachment
    operations (the host document is not part of the sources).  A live node
    has an inline style, attributes, registered listeners, ordered children
    and a parent.  Assigning the empty string to a style property removes
    it, so the inline style never holds an empty value. *)
Record LiveNode := mkLiveNode {
  ln_style : gmap string string;
  ln_attrs : gmap string string;
  ln_listeners : list (string * Handler);
  ln_children : list DomId;
  ln_parent : option DomId
}.

Definition set_style (i s : string) (n : LiveNode) : LiveNode :=
  mkLiveNode (if decide (s = "") then delete i (ln_style n)
              else <[i := s]> (ln_style n))
             (ln_attrs n) (ln_listeners n) (ln_children n) (ln_parent n).

Definition set_attrs (f : gmap string string → gmap string string)
    (n : LiveNode) : LiveNode :=
  mkLiveNode (ln_style n) (f (ln_attrs n)) (ln_listeners n) (ln_children n)
             (ln_parent n).

Definition set_listeners
    (f : list (string * Handler) → list (string * Handler))
    (n : LiveNode) : LiveNode :=
  mkLiveNode (ln_style n) (ln_attrs n) (f (ln_listeners n)) (ln_children n)
             (ln_parent n).

Definition set_children (f : list DomId → list DomId) (n : LiveNode)
  : LiveNode :=
  mkLiveNode (ln_style n) (ln_attrs n) (ln_listeners n) (f (ln_children n))
             (ln_parent n).

Definition set_parent (p : option DomId) (n : LiveNode) : LiveNode :=
  mkLiveNode (ln_style n) (ln_attrs n) (ln_listeners n) (ln_children n) p.

(** [addEventListener] ignores a listener that is already registered. *)
Definition add_listener (i : string) (h : Handler)
    (l : list (string * Handler)) : list (string * Handler) :=
  if bool_decide ((i, h) ∈ l) then l else l ++ [(i, h)].

Definition remove_listener (i : string) (h : Handler)
    (l : list (string * Handler)) : list (string * Handler) :=
  filter (λ x, x ≠ (i, h)) l.

Definition without (d : DomId) (l : list DomId) : list DomId :=
  filter (λ x, x ≠ d) l.

Fixpoint insert_after (ref new : DomId) (l : list DomId) : list DomId :=
  match l with
  | [] => []
  | x :: r => if decide (x = ref) then x :: new :: r
              else x :: insert_after ref new r
  end.

Definition substitute (d new : DomId) (l : list DomId) : list DomId :=
  (λ x, if decide (x = d) then new else x) <$> l.

(** The handlers a fresh node listens to. *)
Definition listeners_of (ev : gmap string (list Handler))
  : list (string * Handler) :=
  map_to_list ev ≫= λ '(i, ws),
    (λ h, (i, h)) <$> filter (λ h, is_function h) ws.

Definition create_each
    (rec : VNode → gmap DomId LiveNode → option (gmap DomId LiveNode))
  : list VNode → gmap DomId LiveNode → option (gmap DomId LiveNode) :=
  fix each (l : list VNode) (D : gmap DomId LiveNode)
    : option (gmap DomId LiveNode) :=
    match l with
    | [] => Some D
    | x :: r => D' ← rec x D; each r D'
    end.

(** Live nodes of a bound virtual tree, created under [parent]. *)
Fixpoint create (parent : option DomId) (v : VNode)
    (D : gmap DomId LiveNode) : option (gmap DomId LiveNode) :=
  d ← dom v;
  create_each (create (Some d)) (body v)
    (<[d := mkLiveNode (filter (λ kv, kv.2 ≠ "") (value_str <$> styles v))
                       (value_str <$> attributes v)
                       (listeners_of (events v))
                       (omap dom (body v))
                       parent]> D).

(** The effect of one call on the live tree; [None] is a [TypeError]. *)
Definition exec (D : gmap DomId LiveNode) (call : Call)
  : option (gmap DomId LiveNode) :=
  match call with
  | SetStyle d i s => n ← D !! d; Some (<[d := set_style i s n]> D)
  | RemoveEventListener d i None => _ ← D !! d; Some D
  | RemoveEventListener d i (Some h) =>
      n ← D !! d; Some (<[d := set_listeners (remove_listener i h) n]> D)
  | AddEventListener d i h =>
      n ← D !! d; Some (<[d := set_listeners (add_listener i h) n]> D)
  | RemoveAttribute d i =>
      n ← D !! d; Some (<[d := set_attrs (delete i) n]> D)
  | SetAttribute d i s =>
      n ← D !! d; Some (<[d := set_attrs (insert i s) n]> D)
  | ToHTMLNode v => create None v D
  | ReplaceWith d new =>
      n ← D !! d;
      match ln_parent n with
      | None => Some D
      | Some p =>
          pn ← D !! p;
          m ← D !! new;
          Some (<[new := set_parent (Some p) m]>
                  (<[d := set_parent None n]>
                     (<[p := set_children (substitute d new) pn]> D)))
      end
  | RemoveChild d =>
      n ← D !! d;
      p ← ln_parent n;
      pn ← D !! p;
      Some (<[d := set_parent None n]>
              (<[p := set_children (without d) pn]> D))
  | InsertAfter ref new =>
      r ← D !! ref;
      p ← ln_parent r;
      pn ← D !! p;
      m ← D !! new;
      Some (<[new := set_parent (Some p) m]>
              (<[p := set_children (insert_after ref new) pn]> D))
  | Prepend p new =>
      pn ← D !! p;
      m ← D !! new;
      Some (<[new := set_parent (Some p) m]>
              (<[p := set_children (cons new) pn]> D))
  | HandleMount _ | HandleInvalidation _ => Some D
  end.

Fixpoint exec_all (D : gmap DomId LiveNode) (calls : list Call)
  : option (gmap DomId LiveNode) :=
  match calls with
  | [] => Some D
  | call :: rest => D' ← exec D call; exec_all D' rest
  end.


(** ** The keyed reorder scenario of the design document *)

Definition leaf (k : Z) (w : ViewId) (d : option DomId) : VNode :=
  mkVNode (Some "div") element (KNum k) ∅ ∅ ∅ [] d (Some w).

Definition parent_of (b : list VNode) (d : option DomId) : VNode :=
  mkVNode (Some "ul") element KNull ∅ ∅ ∅ b d None.

(** Live nodes 1 and 2 of [A] and [B] under the live parent 0. *)
Definition reorder_previous : VNode :=
  parent_of [leaf 1 11 (Some 1); leaf 2 12 (Some 2)] (Some 0).

Definition reorder_next : VNode :=
  parent_of [leaf 2 12 None; leaf 1 11 None; leaf 3 13 None] None.

Definition reorder_live : gmap DomId LiveNode :=
  <[0 := mkLiveNode ∅ ∅ [] [1; 2] None]>
    (<[1 := mkLiveNode ∅ ∅ [] [] (Some 0)]>
       (<[2 := mkLiveNode ∅ ∅ [] [] (Some 0)]> ∅)).

(** The same scenario with a child under [A] and under [B]: live nodes 3
    and 4 under the live nodes 1 and 2. *)
Definition branch (k : Z) (w : ViewId) (b : list VNode) (d : option DomId)
  : VNode :=
  mkVNode (Some "div") element (KNum k) ∅ ∅ ∅ b d (Some w).

Definition nested_previous : VNode :=
  parent_of [branch 1 11 [leaf 4 14 (Some 3)] (Some 1);
             branch 2 12 [leaf 5 15 (Some 4)] (Some 2)] (Some 0).

Definition nested_next : VNode :=
  parent_of [branch 2 12 [leaf 5 15 None] None;
             branch 1 11 [leaf 4 14 None] None; leaf 3 13 None] None.

Definition nested_live : gmap DomId LiveNode :=
  <[0 := mkLiveNode ∅ ∅ [] [1; 2] None]>
    (<[1 := mkLiveNode ∅ ∅ [] [3] (Some 0)]>
       (<[2 := mkLiveNode ∅ ∅ [] [4] (Some 0)]>
          (<[3 := mkLiveNode ∅ ∅ [] [] (Some 1)]>
             (<[4 := mkLiveNode ∅ ∅ [] [] (Some 2)]> ∅)))).

(** The same scenario without keys. *)
Definition unkeyed (w : ViewId) (d : option DomId) : VNode :=
  mkVNode (Some "div") element KNull ∅ ∅ ∅ [] d (Some w).

Definition unkeyed_previous : VNode :=
  parent_of [unkeyed 11 (Some 1); unkeyed 12 (Some 2)] (Some 0).

Definition unkeyed_next : VNode :=
  parent_of [unkeyed 12 None; unkeyed 11 None; unkeyed 13 None] None.

(** Whether the live node of [v] has as its children the live nodes of the
    children of [v], in their order: the live tree agrees with the tree
    that the reconciler hands back. *)
Definition in_order (D : gmap DomId LiveNode) (v : VNode) : bool :=
  match dom v with
  | Some d =>
      match D !! d with
      | Some n => bool_decide (Some <$> ln_children n = dom <$> body v)
      | None => false
      end
  | None => false
  end.

(** ** A handler that the next render no longer lists *)

Definition clicked_previous : VNode :=
  mkVNode (Some "button") element KNull ∅ ∅ {["click" := [HFunction 7]]} []
          (Some 0) None.

Definition clicked_next : VNode :=
  mkVNode (Some "button") element KNull ∅ ∅ ∅ [] None None.

Definition clicked_live : gmap DomId LiveNode :=
  {[0 := mkLiveNode ∅ ∅ [("click", HFunction 7)] [] None]}.

(** ** Two text nodes *)

Definition text_node (d : option DomId) : VNode :=
  mkVNode None text KNull ∅ ∅ ∅ [] d None.

(** The result of the first branch of [updateVNodeDOM]: [vNode] built anew
    from the identity [c] on, and put in the place of the live node [d]. *)
Definition rebuilt (vNode : VNode) (c : nat) (d : DomId)
  : VNode * nat * list Call :=
  let '(v', c') := toHTMLNode vNode c in
  (v', c', [ToHTMLNode v'; ReplaceWith d c]).

(** ** Vocabulary of the properties *)

(** Every node of the tree is bound to a live node. *)
Fixpoint bound (v : VNode) : bool :=
  bool_decide (is_Some (dom v)) && forallb bound (body v).

(** The tree without its live bindings: two renders of the same description
    differ in nothing else. *)
Fixpoint unbound (v : VNode) : VNode :=
  mkVNode (tag v) (type v) (key v) (styles v) (attributes v) (events v)
          (unbound <$> body v) None (view v).

Definition is_style_or_attribute_call (call : Call) : bool :=
  match call with
  | SetStyle _ _ _ | RemoveAttribute _ _ | SetAttribute _ _ _ => true
  | _ => false
  end.

Definition quiet (call : Call) : Prop :=
  is_style_or_attribute_call call = false.

Definition is_event_call (call : Call) : bool :=
  match call with
  | RemoveEventListener _ _ _ | AddEventListener _ _ _ => true
  | _ => false
  end.

(** The live identities bound in a tree. *)
Fixpoint ids (v : VNode) : list DomId :=
  from_option (λ d, [d]) [] (dom v) ++ (body v ≫= ids).




(** The children and the parent of a live node, if the node exists. *)
Definition structure_at (D : gmap DomId LiveNode) (x : DomId)
  : option (list DomId * option DomId) :=
  (λ n, (ln_children n, ln_parent n)) <$> D !! x.

(** A call that leaves every live node where it is: a write on the live
    node [d] alone, or a lifecycle hook. *)
Definition local_call (d : DomId) (call : Call) : Prop :=
  match call with
  | SetStyle d' _ _ | RemoveEventListener d' _ _ | AddEventListener d' _ _
  | RemoveAttribute d' _ | SetAttribute d' _ _ => d' = d
  | HandleMount _ | HandleInvalidation _ => True
  | _ => False
  end.

(** ... on a node that is there. *)
Definition on_live (D : gmap DomId LiveNode) (call : Call) : Prop :=
  ∃ d, local_call d call ∧ is_Some (structure_at D d).


(** ** A restyled node *)

Definition restyled_previous : VNode :=
  mkVNode (Some "p") element KNull
          {["color" := mkValue 1 "red"; "width" := mkValue 2 "10px"]}
          ∅ ∅ [] (Some 0) None.

Definition restyled_next : VNode :=
  mkVNode (Some "p") element KNull
          {["color" := mkValue 3 "red"; "height" := mkValue 4 "5px"]}
          ∅ ∅ [] None None.

Definition restyled_live : gmap DomId LiveNode :=
  {[0 := mkLiveNode {["color" := "red"; "width" := "10px"]} ∅ [] [] None]}.

(** ** Vocabulary of the further properties *)

(** The live nodes whose style, attributes or listeners a call writes: the
    node a setter is called on, and the nodes that a materialization
    creates. *)
Definition written (call : Call) : list DomId :=
  match call with
  | SetStyle d _ _ | RemoveEventListener d _ _ | AddEventListener d _ _
  | RemoveAttribute d _ | SetAttribute d _ _ => [d]
  | ToHTMLNode v => ids v
  | _ => []
  end.

(** Calls that write on live nodes of [l] or on nodes created from the
    identity [c] on, and a reconciliation function that keeps to it on a
    given previous tree. *)
Definition writes_within (l : list DomId) (c : nat) (calls : list Call)
  : Prop :=
  ∀ call x, call ∈ calls → x ∈ written call → x ∈ l ∨ c ≤ x.

Definition writes_ok
    (rec : VNode → VNode → nat → option (VNode * nat * list Call))
    (l : VNode) : Prop :=
  ∀ v c v' c' t, rec l v c = Some (v', c', t) →
                 c ≤ c' ∧ writes_within (ids l) c t.


(** A listener registered on a live node. *)
Definition registered (D : gmap DomId LiveNode) (d : DomId) (i : string)
    (h : Handler) : Prop :=
  ∃ n, D !! d = Some n ∧ (i, h) ∈ ln_listeners n.

(** Style, attributes and listeners of a live node, if the node exists. *)
Definition content_at (D : gmap DomId LiveNode) (d : DomId)
  : option (gmap string string * gmap string string
            * list (string * Handler)) :=
  (λ n, (ln_style n, ln_attrs n, ln_listeners n)) <$> D !! d.

(** The keys of siblings can tell them apart: below no node of the tree do
    two children carry the same truthy key. *)
Fixpoint keys_ok (v : VNode) : bool :=
  bool_decide (NoDup (filter (λ k, truthy k = true) (key <$> body v)))
  && forallb keys_ok (body v).

(** Two trees of one shape: node for node the same tag, no text node, the
    same number of children. *)
Definition same_shape_each (rec : VNode → VNode → bool)
  : list VNode → list VNode → bool :=
  fix each (ls ns : list VNode) : bool :=
    match ls, ns with
    | [] , [] => true
    | l :: ls', n :: ns' => rec l n && each ls' ns'
    | _, _ => false
    end.

Fixpoint same_shape (l v : VNode) : bool :=
  negb (irreconcilable l v) && same_shape_each same_shape (body l) (body v).

(** A reconciliation function that changes nothing of the next tree but
    its live bindings, and one that hands the live node of the previous
    node over to a next node diffed in place. *)
Definition keeps_unbound
    (rec : VNode → VNode → nat → option (VNode * nat * list Call))
    (l : VNode) : Prop :=
  ∀ v c v' c' t, rec l v c = Some (v', c', t) → unbound v' = unbound v.

Definition keeps_dom
    (rec : VNode → VNode → nat → option (VNode * nat * list Call))
    (l : VNode) : Prop :=
  ∀ v c v' c' t, irreconcilable l v = false →
                 rec l v c = Some (v', c', t) → dom v' = dom l.

(** What the keyed loop keeps of the children of the next node: usable
    keys, and a live node for every child whose key has been matched. *)
Definition matched_bound (ns : list VNode) (keys : list Key) : Prop :=
  Forall (λ n, keys_ok n = true) ns
  ∧ NoDup (filter (λ k, truthy k = true) (key <$> ns))
  ∧ ∀ n, n ∈ ns → needs_node keys n = false → bound n = true.

(** A reconciliation function that completes on a bound previous tree and
    binds the whole next tree. *)
Definition total_bound
    (rec : VNode → VNode → nat → option (VNode * nat * list Call))
    (l : VNode) : Prop :=
  bound l = true →
  ∀ v c, keys_ok v = true →
         ∃ v' c' t, rec l v c = Some (v', c', t) ∧ bound v' = true
                    ∧ unbound v' = unbound v.

(** The calls of a pass that only updates live nodes of [ds] in place, and
    a reconciliation function that makes no other call on two trees of one
    shape, creates no node and binds the next tree to the live nodes of
    the previous one. *)
Definition updates_within (ds : list DomId) (calls : list Call) : Prop :=
  Forall (λ call, ∃ d, d ∈ ds ∧ local_call d call) calls.

Definition reuses
    (rec : VNode → VNode → nat → option (VNode * nat * list Call))
    (l : VNode) : Prop :=
  ∀ v c, same_shape l v = true → bound l = true →
         ∃ v' t, rec l v c = Some (v', c, t) ∧ ids v' = ids l
                 ∧ updates_within (ids l) t.

(** ** A node whose attributes change *)




(** ** A node whose handlers change *)

Definition listening_previous : VNode :=
  mkVNode (Some "button") element KNull ∅ ∅
          {["click" := [HFunction 7; HFunction 9]]} [] (Some 0) None.

Definition listening_next : VNode :=
  mkVNode (Some "button") element KNull ∅ ∅
          {["click" := [HFunction 8]]} [] None None.

Definition listening_live : gmap DomId LiveNode :=
  {[0 := mkLiveNode ∅ ∅ [("click", HFunction 7); ("click", HFunction 9)] []
                    None]}.

(** ** The keyed pair with its children swapped, and with the first one
    dropped *)

Definition swapped_next : VNode :=
  parent_of [leaf 2 12 None; leaf 1 11 None] None.

Definition shrunk_next : VNode := parent_of [leaf 2 12 None] None.

(** ** A restyled node beside a live node that no virtual node is bound to *)

Definition beside_live : gmap DomId LiveNode :=
  <[1 := mkLiveNode {["color" := "blue"]} {["id" := "aside"]}
                    [("click", HFunction 5)] [] None]> restyled_live.

End Reconciler.
(** * Rendering and lifecycle of views *)

Module View.

Definition ViewId := nat.
Definition DomId := nat.

(** What a [throw] raises: [new Error(message)], or the [TypeError] of a
    property access on [null]. *)
Inductive Exception :=
| Error (message : string)
| TypeError.

(** The values that flow through [View.renderToVNode]: a [View], a [VNode],
    an empty value ([null] or [undefined]) or any other value.  A view is
    its identity and its [getBody]; running [getBody(side)] may call
    [state.set] and [state.dispatch], of its own view or of any other view
    it holds, any number of times before it returns its result, which it
    builds anew on every call and which is taken not to depend on the
    state.  Of a [VNode] the rendering only reads and writes [view] and
    [body]; [node_ref] is the identity of the object. *)
#[warnings="-register-all"]
Inductive Value :=
| Null
| Plain (n : Z)
| AView (w : View)
| ANode (n : VNode)
with View :=
| mkView (view_id : ViewId) (getBody : string → Body)
with Body :=
| Return (v : Value)
| StateSet (target : ViewId) (keys : gmap string Z) (k : Body)
| StateDispatch (target : ViewId) (keys : gmap string Z) (k : Body)
with VNode :=
| mkVNode (node_ref : nat) (node_view : option ViewId) (body : list Value).

Definition view_id (w : View) : ViewId :=
  match w with mkView i _ => i end.
Definition getBody (w : View) : string → Body :=
  match w with mkView _ g => g end.
Definition node_ref (n : VNode) : nat :=
  match n with mkVNode r _ _ => r end.
Definition node_view (n : VNode) : option ViewId :=
  match n with mkVNode _ w _ => w end.
Definition body (n : VNode) : list Value :=
  match n with mkVNode _ _ b => b end.

(** The function stored in [view.state.set]: the dispatching closure of the
    constructor, or the [() => {}] of a render pass. *)
Inductive SetFn := SetDispatch | SetNoop.

(** The mutable fields of a view. *)
Record ViewState := mkViewState {
  lastVNode : option VNode;
  state_set : SetFn;
  currentState : gmap string Z
}.

(** A unit of work handed to [Worker.addUnitOfWork]. *)
Inductive Work :=
| WMount (this : View) (parent : DomId)
| WUnmount (this : ViewId)
| WForceInvalidate (this : ViewId).

Inductive Hook :=
| HandleMount (w : ViewId).

(** Everything the views share: their fields, the [dom] field of every
    [VNode] object (by object identity), the children appended to live
    nodes, the next unused live identity, the pending units of work and the
    lifecycle hooks fired so far. *)
Record World := mkWorld {
  views : gmap ViewId ViewState;
  doms : gmap nat DomId;
  appended : list (DomId * DomId);
  next_dom : nat;
  queue : list Work;
  hooks : list Hook
}.

(** A view as its constructor leaves it. *)
Definition constructed : ViewState := mkViewState None SetDispatch ∅.

Definition view_state (W : World) (i : ViewId) : ViewState :=
  default constructed (views W !! i).

Definition with_view (i : ViewId) (f : ViewState → ViewState) (W : World)
  : World :=
  mkWorld (<[i := f (view_state W i)]> (views W)) (doms W) (appended W)
          (next_dom W) (queue W) (hooks W).

Definition set_lastVNode (n : option VNode) (s : ViewState) : ViewState :=
  mkViewState n (state_set s) (currentState s).
Definition set_state_set (f : SetFn) (s : ViewState) : ViewState :=
  mkViewState (lastVNode s) f (currentState s).
Definition set_currentState (m : gmap string Z) (s : ViewState) : ViewState :=
  mkViewState (lastVNode s) (state_set s) m.

(** Modelled from the spec: [Worker.addUnitOfWork] (Worker.js is not among
    the sources).  Enqueued work runs later, after the call that enqueued
    it has returned, in submission order. *)
Definition addUnitOfWork (u : Work) (W : World) : World :=
  mkWorld (views W) (doms W) (appended W) (next_dom W) (queue W ++ [u])
          (hooks W).

(** The getter installed by the constructor:
    [this.lastVNode instanceof VNode && this.lastVNode.dom instanceof Node] *)
Definition mounted (W : World) (i : ViewId) : bool :=
  match lastVNode (view_state W i) with
  | Some n => bool_decide (is_Some (doms W !! node_ref n))
  | None => false
  end.

(** [invalidate()] *)
Definition invalidate (i : ViewId) (W : World) : World :=
  if mounted W i then addUnitOfWork (WForceInvalidate i) W else W.

(** [view.state.dispatch({ type: "set", value: keys })]: the reducer
    merges [keys] into the state and the subscriber runs.  The field
    [preferForceInvalidation] is [false] (it also hides the method of that
    name), so the subscriber calls [invalidate()]. *)
Definition dispatch (i : ViewId) (keys : gmap string Z) (W : World) : World :=
  invalidate i
    (with_view i (λ s, set_currentState (keys ∪ currentState s) s) W).

(** A call of [view.state.set(keys)]: of the closure of the constructor,
    which dispatches a ["set"] action, or of the [() => {}] that a render
    pass has put in its place. *)
Definition callSet (i : ViewId) (keys : gmap string Z) (W : World) : World :=
  match state_set (view_state W i) with
  | SetNoop => W
  | SetDispatch => dispatch i keys W
  end.

Inductive outcome (A : Type) :=
| Ok (a : A) (W : World)
| Throw (e : Exception) (W : World).
Arguments Ok {A} a W.
Arguments Throw {A} e W.

(** The loop of lines 637-641. *)
Definition saveTo (vs : list ViewId) (n : option VNode) (W : World) : World :=
  foldl (λ W i, with_view i (set_lastVNode n) W) W vs.

Definition expected_a_vnode : string :=
  "Expected a VNode as the result of rendering the View (the rendering is recursive, so the error can be in the parent class or in the child class)".

(** The entry of [node.body] that a rendered child becomes: the node
    returned, or the empty value. *)
Definition entry_of (n : option VNode) : Value := from_option ANode Null n.

(** The loop of lines 628-634 over [node.body], with [rec] the recursive
    call on an entry. *)
Definition renderChildren (rec : Value → World → outcome (option VNode))
  : list Value → World → outcome (list Value) :=
  fix each (l : list Value) (W : World) : outcome (list Value) :=
    match l with
    | [] => Ok [] W
    | Null :: _ | Plain _ :: _ => Throw (Error "Unexpected child passed") W
    | child :: rest =>
        match rec child W with
        | Throw e W' => Throw e W'
        | Ok n W' =>
            match each rest W' with
            | Throw e W'' => Throw e W''
            | Ok rest' W'' => Ok (entry_of n :: rest') W''
            end
        end
    end.

(** [View.renderToVNode].  [render node vs ...] is the function from the
    point where the chain has reached [node] with [vs] the views pushed so
    far; [vs] is empty exactly on entry, where a [VNode] is returned as it
    is.  The result is the node returned, [None] for an empty value. *)
Fixpoint render (node : Value) (vs : list ViewId)
    (saveVNode ignoreStateChange : bool) (side : string) (W : World)
    {struct node} : outcome (option VNode) :=
  match node with
  | AView (mkView i body_of) =>
      if ignoreStateChange then
        let nodeStateSet := state_set (view_state W i) in
        renderBody i (Some nodeStateSet) (body_of side) (vs ++ [i])
                   saveVNode ignoreStateChange side
                   (with_view i (set_state_set SetNoop) W)
      else
        renderBody i None (body_of side) (vs ++ [i])
                   saveVNode ignoreStateChange side W
  | ANode (mkVNode r w b) =>
      match vs with
      | [] => Ok (Some (mkVNode r w b)) W
      | _ :: _ =>
          match
            renderChildren
              (λ child W, render child [] true ignoreStateChange side W) b W
          with
          | Throw e W' => Throw e W'
          | Ok b' W' =>
              let node' := mkVNode r (last vs) b' in
              Ok (Some node')
                 (if saveVNode then saveTo vs (Some node') W' else W')
          end
      end
  | Null => Ok None (if saveVNode then saveTo vs None W else W)
  | Plain _ => Throw (Error expected_a_vnode) W
  end
with renderBody (i : ViewId) (restore : option SetFn) (b : Body)
    (vs : list ViewId) (saveVNode ignoreStateChange : bool) (side : string)
    (W : World) {struct b} : outcome (option VNode) :=
  match b with
  | StateSet target keys k =>
      renderBody i restore k vs saveVNode ignoreStateChange side
                 (callSet target keys W)
  | StateDispatch target keys k =>
      renderBody i restore k vs saveVNode ignoreStateChange side
                 (dispatch target keys W)
  | Return v =>
      render v vs saveVNode ignoreStateChange side
             (match restore with
              | Some f => with_view i (set_state_set f) W
              | None => W
              end)
  end.

Definition renderToVNode (view : Value) (saveVNode ignoreStateChange : bool)
    (side : string) (W : World) : outcome (option VNode) :=
  render view [] saveVNode ignoreStateChange side W.

(** Modelled from the spec: [VNode.mountTo(parent)] (VirtualDOM/VNode.js is
    not among the sources).  It materializes the node, which binds a fresh
    live node to it and to every node below it, and attaches the live
    subtree under [parent]. *)
Fixpoint materialize (n : VNode) (W : World) {struct n} : World :=
  match n with
  | mkVNode r _ b =>
      foldl (λ W c, match c with ANode n' => materialize n' W | _ => W end)
            (mkWorld (views W) (<[r := next_dom W]> (doms W)) (appended W)
                     (S (next_dom W)) (queue W) (hooks W))
            b
  end.

Definition VNode_mountTo (n : VNode) (parent : DomId) (W : World) : World :=
  let W' := materialize n W in
  mkWorld (views W') (doms W') (appended W' ++ [(parent, next_dom W)])
          (next_dom W') (queue W') (hooks W').

Definition handleMount (i : ViewId) (W : World) : World :=
  mkWorld (views W) (doms W) (appended W) (next_dom W) (queue W)
          (hooks W ++ [HandleMount i]).

(** [mountTo(parent)]; [parent] is [Some p] for a [Node] and [None] for any
    other argument. *)
Definition mountTo (this : View) (parent : option DomId) (W : World)
  : outcome unit :=
  if mounted W (view_id this) then
    Throw (Error "The view is already mounted") W
  else
    match parent with
    | None => Throw (Error "The parent is not an instance of Node") W
    | Some p => Ok tt (addUnitOfWork (WMount this p) W)
    end.

(** The unit of work enqueued by [mountTo], when the worker runs it. *)
Definition mountWork (this : View) (parent : DomId) (W : World)
  : outcome unit :=
  match renderToVNode (AView this) true false "client" W with
  | Throw e W' => Throw e W'
  | Ok _ W' =>
      match lastVNode (view_state W' (view_id this)) with
      | None => Throw TypeError W'
      | Some n => Ok tt (handleMount (view_id this) (VNode_mountTo n parent W'))
      end
  end.

(** [unmount()] *)
Definition unmount (this : View) (W : World) : outcome unit :=
  if negb (mounted W (view_id this)) then
    Throw (Error "The view is not mounted") W
  else Ok tt (addUnitOfWork (WUnmount (view_id this)) W).


(** The render pass of [forceInvalidate()], made when the view is mounted. *)
Definition forceInvalidate_pass (this : View) (W : World)
  : outcome (option VNode) :=
  renderToVNode (AView this) false false "client" W.

(** The views whose [getBody] a pass starting at a value calls: the
    delegation chain, then the chains of the child views of the node that
    ends it, and so on.  Nothing below a child given as a [VNode] is
    visited. *)
Fixpoint rendered (side : string) (v : Value) (top : bool) {struct v}
  : list ViewId :=
  match v with
  | AView (mkView i body_of) => i :: renderedBody side (body_of side)
  | ANode (mkVNode _ _ b) =>
      if top then [] else b ≫= λ c, rendered side c true
  | Null | Plain _ => []
  end
with renderedBody (side : string) (b : Body) {struct b} : list ViewId :=
  match b with
  | StateSet _ _ k | StateDispatch _ _ k => renderedBody side k
  | Return v => rendered side v false
  end.

(** The delegation chain of a value and the value that ends it. *)
Fixpoint chain (side : string) (v : Value) {struct v} : list ViewId :=
  match v with
  | AView (mkView i body_of) => i :: chainBody side (body_of side)
  | _ => []
  end
with chainBody (side : string) (b : Body) {struct b} : list ViewId :=
  match b with
  | StateSet _ _ k | StateDispatch _ _ k => chainBody side k
  | Return v => chain side v
  end.

Fixpoint terminal (side : string) (v : Value) {struct v} : Value :=
  match v with
  | AView (mkView _ body_of) => terminalBody side (body_of side)
  | x => x
  end
with terminalBody (side : string) (b : Body) {struct b} : Value :=
  match b with
  | StateSet _ _ k | StateDispatch _ _ k => terminalBody side k
  | Return v => terminal side v
  end.

(** [x instanceof View || x instanceof VNode] *)
Definition is_child (x : Value) : bool :=
  match x with
  | AView _ | ANode _ => true
  | Null | Plain _ => false
  end.

(** Whether a pass starting at a value meets no contract violation: the
    chain ends in a node or in an empty value, and every entry of the body
    of such a node is a [VNode] (taken as it is) or a view that in turn
    meets none. *)
Fixpoint contract_ok (side : string) (v : Value) (top : bool) {struct v}
  : bool :=
  match v with
  | AView (mkView _ body_of) => contract_okBody side (body_of side)
  | ANode (mkVNode _ _ b) =>
      if top then true
      else forallb (λ c, is_child c && contract_ok side c true) b
  | Null => true
  | Plain _ => false
  end
with contract_okBody (side : string) (b : Body) {struct b} : bool :=
  match b with
  | StateSet _ _ k | StateDispatch _ _ k => contract_okBody side k
  | Return v => contract_ok side v false
  end.

(** The recursive call of line 630 on an entry of [node.body]. *)
Definition render_child (ignoreStateChange : bool) (side : string)
    (child : Value) (W : World) : outcome (option VNode) :=
  render child [] true ignoreStateChange side W.

(** The world a call leaves behind, whether it returns or throws. *)
Definition world_of {A} (r : outcome A) : World :=
  match r with Ok _ W | Throw _ W => W end.

(** The node an entry holds, if it holds one. *)
Definition node_of (x : option Value) : option VNode :=
  match x with Some (ANode n) => Some n | _ => None end.

(** A pass that throws one of the two errors of [renderToVNode], a call
    that returns, and a pass that does the one or the other. *)
Definition thrown (r : outcome (option VNode)) : Prop :=
  ∃ W', r = Throw (Error expected_a_vnode) W'
        ∨ r = Throw (Error "Unexpected child passed") W'.

Definition returned {A} (r : outcome A) : Prop := ∃ a W', r = Ok a W'.

Definition decided (ok : bool) (r : outcome (option VNode)) : Prop :=
  if ok then returned r else thrown r.



(** ** Sample components *)

(** Nothing constructed yet, nothing mounted. *)
Definition start : World := mkWorld ∅ ∅ [] 0 [] [].

(** A view whose body is a node with the given entries. *)
Definition container (i : ViewId) (r : nat) (entries : list Value) : View :=
  mkView i (λ _, Return (ANode (mkVNode r None entries))).

(** A view that sets a key of its state every time its body is computed. *)
Definition counter (i : ViewId) (r : nat) : View :=
  mkView i (λ _, StateSet i {["renders" := 1%Z]}
                   (Return (ANode (mkVNode r None [])))).

(** The world after a counter has been mounted on the live node 0. *)
Definition counter_mounted : World :=
  world_of (mountWork (counter 1 1) 0 start).

(** The world after a first [mountTo] of an empty container on the live
    node 0, and the world after the worker has run that unit of work. *)
Definition mount_pending : World :=
  addUnitOfWork (WMount (container 1 1 []) 0) start.

Definition mount_done : World :=
  world_of (mountWork (container 1 1 []) 0 mount_pending).

(** A container with two child views. *)
Definition parent_view : View :=
  container 1 1 [AView (container 2 2 []); AView (counter 3 3)].






(** A view whose body is a number. *)
Definition broken (i : ViewId) : View :=
  mkView i (λ _, Return (Plain 42)).

(** A node given as it is, with a number among its entries. *)
Definition raw_node : Value := ANode (mkVNode 2 None [Plain 42]).

(** ** Vocabulary of the further properties *)

(** [this.state.get(key)]: the value under [key] in the current state,
    [None] for [undefined]. *)
Definition state_get (i : ViewId) (k : string) (W : World) : option Z :=
  currentState (view_state W i) !! k.

(** An entry of a body after rendering: a node, or the empty value. *)
Definition resolved (x : Value) : Prop := x = Null ∨ ∃ m, x = ANode m.

(** Two worlds with the same live side: the bindings of the nodes, the
    children appended, the next unused identity and the hooks fired. *)
Definition same_live (W W' : World) : Prop :=
  doms W' = doms W ∧ appended W' = appended W ∧ next_dom W' = next_dom W
  ∧ hooks W' = hooks W.

(** A view whose body is the empty value, a view that delegates to such a
    view, and a view that delegates to an empty container. *)
Definition blank (i : ViewId) : View := mkView i (λ _, Return Null).

Definition wrapper (i j : ViewId) : View :=
  mkView i (λ _, Return (AView (blank j))).

Definition delegating (i j : ViewId) (r : nat) : View :=
  mkView i (λ _, Return (AView (container j r []))).

End View.

(** * The property builders of a view *)

Module ViewProperties.

Import Reconciler (Key, KNull, KNum, KStr, truthy).

(** Address of a JS object used as a dictionary. *)
Definition Loc := nat.

(** What a field such as [view.styles] holds: a reference to an object, or
    a value that is no object ([undefined], a number, a boolean). *)
Inductive Field :=
| Obj (l : Loc)
| NotObj.

(** The second argument of [addHandlerFor]. *)
Inductive Arg :=
| AFunction (f : nat)
| AArray (l : list nat).

(** The fields of a view set by the builder methods.  [styles] and
    [attributes] are references: two fields may hold the same object. *)
Record ViewObj := mkViewObj {
  styles : Field;
  attributes : Field;
  events : gmap string (list nat);
  key : Key
}.

(** [Object.assign(target, source)]: copies the entries of [source] over
    those of [target], in place, and returns [target].  A source that is no
    object contributes nothing; a target that is none is a [TypeError]. *)
Definition Object_assign (target source : Field)
    (H : gmap Loc (gmap string string))
  : option (Field * gmap Loc (gmap string string)) :=
  match target with
  | NotObj => None
  | Obj t =>
      to ← H !! t;
      match source with
      | NotObj => Some (target, H)
      | Obj s => so ← H !! s; Some (target, <[t := so ∪ to]> H)
      end
  end.

(** The names that a plain object such as [this.events] inherits from
    [Object.prototype].  None of the inherited values is an array. *)
Definition Object_prototype : list string :=
  ["constructor"; "__defineGetter__"; "__defineSetter__"; "hasOwnProperty";
   "__lookupGetter__"; "__lookupSetter__"; "isPrototypeOf";
   "propertyIsEnumerable"; "toString"; "valueOf"; "__proto__";
   "toLocaleString"].

(** [event in this.events]: the name is a key of the object itself or an
    inherited one. *)
Definition in_events (event : string) (this : ViewObj) : bool :=
  bool_decide (is_Some (events this !! event))
  || bool_decide (event ∈ Object_prototype).

(** [addHandlerFor(event, handler)] with a string [event].  The list is
    created only when [event in this.events] fails; [this.events[event]] is
    then the list of the object itself, or an inherited value, on which
    [push] is a [TypeError] ([None]). *)
Definition addHandlerFor (event : string) (handler : Arg) (this : ViewObj)
  : option ViewObj :=
  match handler with
  | AFunction f =>
      let evs := if in_events event this then events this
                 else <[event := []]> (events this) in
      hs ← evs !! event;
      Some (mkViewObj (styles this) (attributes this)
                      (<[event := hs ++ [f]]> evs) (key this))
  | AArray _ => Some this
  end.

(** [setKey(key)] on a number or a string. *)
Definition setKey (k : Key) (this : ViewObj) : ViewObj :=
  mkViewObj (styles this) (attributes this) (events this) k.

(** [typeof view.styles === "object" ? x : {}]; the empty literal is an
    object without entries, which contributes nothing either. *)
Definition if_styles_object (view : ViewObj) (x : Field) : Field :=
  match styles view with
  | Obj _ => x
  | NotObj => NotObj
  end.

(** [applyViewProperties(view)]; [view] is [None] when the argument is not
    an instance of [View]. *)
Definition applyViewProperties (view : option ViewObj) (this : ViewObj)
    (H : gmap Loc (gmap string string))
  : option (ViewObj * gmap Loc (gmap string string)) :=
  match view with
  | None => Some (this, H)
  | Some view =>
      '(s, H1) ← Object_assign (styles this)
                               (if_styles_object view (styles view)) H;
      let this1 := mkViewObj s (attributes this) (events this) (key this) in
      '(a, H2) ← Object_assign (styles this1)
                               (if_styles_object view (attributes view)) H1;
      let this2 := mkViewObj (styles this1) a (events this1) (key this1) in
      this3 ← foldr (λ '(i, hs) t, t ≫= addHandlerFor i (AArray hs))
                    (Some this2) (map_to_list (events view));
      Some (if truthy (key view) then setKey (key view) this3 else this3, H2)
  end.

(** [setAttributes(attributes)] and [applyCSS(properties)], on a dictionary
    of strings. *)
Definition setAttributes (new : gmap string string) (this : ViewObj)
    (H : gmap Loc (gmap string string))
  : option (gmap Loc (gmap string string)) :=
  match attributes this with
  | NotObj => if decide (new = ∅) then Some H else None
  | Obj l => o ← H !! l; Some (<[l := new ∪ o]> H)
  end.

Definition applyCSS (properties : gmap string string) (this : ViewObj)
    (H : gmap Loc (gmap string string))
  : option (gmap Loc (gmap string string)) :=
  match styles this with
  | NotObj => if decide (properties = ∅) then Some H else None
  | Obj l => o ← H !! l; Some (<[l := properties ∪ o]> H)
  end.

(** The entries seen through a field. *)
Definition entries (H : gmap Loc (gmap string string)) (f : Field)
  : gmap string string :=
  match f with
  | Obj l => default ∅ (H !! l)
  | NotObj => ∅
  end.

(** ** Sample views *)

Definition receiver : ViewObj := mkViewObj (Obj 0) (Obj 1) ∅ KNull.
Definition source : ViewObj := mkViewObj (Obj 2) (Obj 3) ∅ KNull.

Definition sample_heap : gmap Loc (gmap string string) :=
  {[0 := {["color" := "red"]}; 1 := {["id" := "main"]};
    2 := {["width" := "1px"]}; 3 := {["title" := "hint"]}]}.

(** ** Lifecycle handlers *)

(** [handleMount()], [handleUnmount()] and [handleInvalidation()]: the
    handlers called, in order, each with the view as its argument; none
    when the view has no list for the event. *)
Definition handleMount (this : ViewObj) : list nat :=
  default [] (events this !! "mount").

Definition handleUnmount (this : ViewObj) : list nat :=
  default [] (events this !! "unmount").

Definition handleInvalidation (this : ViewObj) : list nat :=
  default [] (events this !! "invalidation").

(** A sequence of [addHandlerFor] calls on a view; it ends at the first
    call that throws. *)
Fixpoint addHandlers (regs : list (string * Arg)) (this : ViewObj)
  : option ViewObj :=
  match regs with
  | [] => Some this
  | (event, handler) :: regs =>
      addHandlerFor event handler this ≫= addHandlers regs
  end.

(** The registrations that [this.events] can take: a function is
    registered under a name inherited from [Object.prototype] only where
    the object has a list of its own under that name. *)
Definition registrable (regs : list (string * Arg)) (this : ViewObj) : Prop :=
  ∀ event f, (event, AFunction f) ∈ regs → event ∈ Object_prototype →
             is_Some (events this !! event).

(** The functions that a sequence of registrations gives for an event, in
    the order of the calls. *)
Definition functions_for (event : string) (regs : list (string * Arg))
  : list nat :=
  regs ≫= λ '(e, handler),
    match handler with
    | AFunction f => if decide (e = event) then [f] else []
    | AArray _ => []
    end.

(** A view with a handler and a key. *)
Definition keyed_source : ViewObj :=
  mkViewObj (Obj 2) (Obj 3) {["click" := [5]]} (KStr "row").

End ViewProperties.

(** * Fonts *)

Module Font.

(** The members of the three enumerations of lines 17-27, one per name
    given to [new Enum(...)]; [ts_default] is [TextStyle.default].
    Values/Enum.js is not among the sources; of an enumeration [E] the code
    below only uses that [E.contains(x)] holds exactly for the members of
    [E], that [E.name] is the member of that name, and that a name that was
    not given, such as [Weight.ultraThin], reads as [undefined] like any
    missing property. *)
Inductive TextStyle :=
| ts_default | largeTitle | title | subheading | monospace.

Inductive Weight :=
| regular | ultraLight | thin | light | medium | semibold | bold | heavy
| black.

Inductive FontStyle := normal | italic | oblique.

(** The measures that Font.js names: the two of the constructor, and
    [pixels], the measure of the predefined fonts. *)
Inductive Measure := points | parentFontSize | pixels.

(** [new Length(value, measure)] (Values/Length.js is not among the
    sources): the two arguments, kept as they are. *)
Record Length := mkLength { length_value : Z; measure : Measure }.

#[global] Instance TextStyle_eq_dec : EqDecision TextStyle.
Proof. solve_decision. Defined.
#[global] Instance Weight_eq_dec : EqDecision Weight.
Proof. solve_decision. Defined.
#[global] Instance FontStyle_eq_dec : EqDecision FontStyle.
Proof. solve_decision. Defined.

(** An argument of the constructor or of [with]: [null] or [undefined], a
    value of the kind that the constructor accepts for the field, or any
    other value. *)
Inductive Given (A : Type) :=
| Missing
| Valid (a : A)
| Invalid.
Arguments Missing {A}.
Arguments Valid {A} a.
Arguments Invalid {A}.

(** A size that the constructor accepts: a [Length] or a number. *)
Inductive Size :=
| SLength (l : Length)
| SNumber (n : Z).

Record Options := mkOptions {
  o_name : Given string;
  o_textStyle : Given TextStyle;
  o_size : Given Size;
  o_weight : Given Weight;
  o_fontStyle : Given FontStyle
}.

Record Font := mkFont {
  name : option string;
  textStyle : TextStyle;
  weight : option Weight;
  fontStyle : option FontStyle;
  size : Length
}.

Definition accepted {A} (x : Given A) : option A :=
  match x with Valid a => Some a | _ => None end.

(** The constructor (lines 44-55). *)
Definition new_Font (o : Options) : Font :=
  mkFont (accepted (o_name o))
         (default ts_default (accepted (o_textStyle o)))
         (accepted (o_weight o))
         (accepted (o_fontStyle o))
         (match o_size o with
          | Valid (SLength l) => l
          | Valid (SNumber n) => mkLength n points
          | _ => mkLength 1 parentFontSize
          end).

(** A field of a font read back as an argument: [null] is missing. *)
Definition given {A} (x : option A) : Given A :=
  match x with Some a => Valid a | None => Missing end.

(** [Object.assign({}, this)] *)
Definition clone (this : Font) : Options :=
  mkOptions (given (name this)) (Valid (textStyle this))
            (Valid (SLength (size this))) (given (weight this))
            (given (fontStyle this)).

(** [if (x !== null && x !== undefined) clone.f = x] *)
Definition override {A} (x old : Given A) : Given A :=
  match x with Missing => old | _ => x end.

(** [with({ name, textStyle, size, weight })] (lines 66-86). *)
Definition with_ (this : Font) (name : Given string)
    (textStyle : Given TextStyle) (size : Given Size) (weight : Given Weight)
  : Font :=
  let c := clone this in
  new_Font (mkOptions (override name (o_name c))
                      (override textStyle (o_textStyle c))
                      (override size (o_size c))
                      (override weight (o_weight c))
                      (o_fontStyle c)).

(** [weightToCssValue] (lines 147-172); [None] is [undefined].  The first
    [case] compares with [Weight.ultraThin], which is [undefined] and equal
    to no member, so [ultraLight] leaves the [switch] without a value. *)
Definition weightToCssValue (weight : option Weight) : option string :=
  match weight with
  | None => None
  | Some w =>
      match w with
      | thin => Some "200"
      | light => Some "300"
      | regular => Some "400"
      | medium => Some "500"
      | semibold => Some "600"
      | bold => Some "700"
      | heavy => Some "800"
      | black => Some "900"
      | ultraLight => None
      end
  end.

(** [textStyleToTagName] (lines 122-141). *)
Definition textStyleToTagName (style : option TextStyle) : option string :=
  match style with
  | None => None
  | Some ts_default => Some "p"
  | Some largeTitle => Some "h1"
  | Some title => Some "h2"
  | Some subheading => Some "h3"
  | Some monospace => Some "code"
  end.

(** [fontStyleToCssValue] (lines 178-191). *)
Definition fontStyleToCssValue (fontStyle : option FontStyle)
  : option string :=
  match fontStyle with
  | None => None
  | Some normal => Some "normal"
  | Some italic => Some "italic"
  | Some oblique => Some "oblique"
  end.

End Font.

(** * Properties of the reconciler *)

Module ReconcilerSpec.

Import Reconciler.

Lemma VNode_ind' (P : VNode → Prop) :
  (∀ t ty k s a e b d w, Forall P b → P (mkVNode t ty k s a e b d w)) →
  ∀ v, P v.
Proof.
  intros H. fix IH 1. intros [t ty k s a e b d w]. apply H.
  induction b as [|x b IHb]; constructor; [apply IH | exact IHb].
Qed.

Lemma updateVNodeDOM_unfold lastVNode vNode c :
  updateVNodeDOM lastVNode vNode c =
  if irreconcilable lastVNode vNode then
    d ← dom lastVNode;
    let '(v', c') := toHTMLNode vNode c in
    new ← dom v';
    Some (v', c', [ToHTMLNode v'; ReplaceWith d new])
  else
    t0 ← on_dom (dom lastVNode) (diffNode lastVNode vNode);
    '(b, c', t1) ←
      (if bool_decide (length (body lastVNode) ≠ length (body vNode)) then
         '(ns, keysUpdated, c1, t1) ←
           keyed updateVNodeDOM (body lastVNode) (body vNode) [] c;
         '(ns', c2, t2) ← placeNew (dom lastVNode) keysUpdated None ns c1;
         Some (ns', c2, t1 ++ t2)
       else
         positional updateVNodeDOM (body lastVNode) (body vNode) c);
    Some (bound_to vNode b (dom lastVNode),
          c', t0 ++ t1 ++ invalidation_hook vNode).
Proof. by destruct lastVNode. Qed.

Lemma toHTMLNode_dom v c : dom (toHTMLNode v c).1 = Some c.
Proof.
  destruct v; simpl. by destruct (toHTMLNodes _ _ _).
Qed.

Lemma updateVNodeDOM_rebuild l v c d :
  irreconcilable l v = true → dom l = Some d →
  updateVNodeDOM l v c = Some (rebuilt v c d).
Proof.
  intros Hi Hd. destruct l; simpl in *. rewrite Hi. subst. simpl.
  unfold rebuilt. pose proof (toHTMLNode_dom v c) as Hc.
  destruct (toHTMLNode v c) as [v' c']. simpl in *. by rewrite Hc.
Qed.

Lemma updateVNodeDOM_in_place l v c v' c' t d :
  irreconcilable l v = false → dom l = Some d →
  updateVNodeDOM l v c = Some (v', c', t) →
  dom v' = Some d ∧ ∃ t1, t = diffNode l v d ++ t1.
Proof.
  intros Hi Hd. destruct l; simpl in *. rewrite Hi. subst. simpl.
  intros H.
  match type of H with
  | (?m ≫= _) = _ => destruct m as [[[b c1] t1]|] eqn:E; simpl in H; [|done]
  end.
  injection H as <- <- <-. split; [done|].
  eexists. reflexivity.
Qed.

Lemma irreconcilable_spec l v :
  irreconcilable l v = true ↔ tag l ≠ tag v ∨ type l = text ∨ type v = text.
Proof.
  unfold irreconcilable. rewrite !orb_true_iff, !bool_decide_eq_true. tauto.
Qed.

(** An event that the next node does not list, or lists with no handler,
    gets no [removeEventListener] call, whatever the previous node has
    registered for it. *)
Lemma detachEvents_absent le ve d i h :
  default [] (ve !! i) = [] → RemoveEventListener d i h ∉ detachEvents le ve d.
Proof.
  intros Hve Hin. apply list_elem_of_bind in Hin as ([k hs] & Hin & _).
  simpl in Hin. destruct (ve !! k) as [ws|] eqn:E; [|by apply elem_of_nil in Hin].
  apply list_elem_of_fmap in Hin as (j & [= <- _] & Hj).
  rewrite E in Hve. simpl in Hve. subst ws. by apply elem_of_nil in Hj.
Qed.

(** C1, at the failing input: the previous node listens to ["click"] with
    one handler and the next node lists no event at all.  The reconciler
    makes no [removeEventListener] call, and the old handler is still
    registered on the live node afterwards. *)
Theorem stale_handler_survives :
  ∃ v' calls D,
    updateVNodeDOM clicked_previous clicked_next 1 = Some (v', 1, calls)
    ∧ (∀ i h, RemoveEventListener 0 i h ∉ calls)
    ∧ exec_all clicked_live calls = Some D
    ∧ ln_listeners <$> D !! 0 = Some [("click", HFunction 7)].
Proof.
  eexists _, [], clicked_live.
  split; [vm_compute; reflexivity|].
  split; [|split; reflexivity].
  intros i h Hin. by apply elem_of_nil in Hin.
Qed.

(** After reconciling the keyed reorder scenario the children of the live
    parent are not in the order [B, A, C] (live nodes 2, 1, 3). *)
Lemma keyed_reorder_not_B_A_C :
  ¬ ∃ v' c' calls D,
      updateVNodeDOM reorder_previous reorder_next 3 = Some (v', c', calls)
      ∧ exec_all reorder_live calls = Some D
      ∧ ln_children <$> D !! 0 = Some [2; 1; 3].
Proof.
  intros (v' & c' & calls & D & Hu & He & Hc).
  vm_compute in Hu. injection Hu as <- <- <-.
  vm_compute in He. injection He as <-.
  vm_compute in Hc. discriminate.
Qed.

(** C4 as stated fails: two text nodes (equal tags, both of kind Text) are
    not diffed in place; the previous live node is replaced by a fresh
    one. *)
Lemma both_text_rebuilt :
  updateVNodeDOM (text_node (Some 0)) (text_node None) 1
  = Some (rebuilt (text_node None) 1 0)
  ∧ ¬ (tag (text_node (Some 0)) ≠ tag (text_node None)
       ∨ (type (text_node (Some 0)) = text ∧ type (text_node None) ≠ text)
       ∨ (type (text_node (Some 0)) ≠ text ∧ type (text_node None) = text)).
Proof.
  split; [vm_compute; reflexivity|].
  simpl. intros [H|[[_ H]|[H _]]]; by apply H.
Qed.

(** C4, amended: [updateVNodeDOM] discards the previous live node and
    materializes the next node in its place, without any diffing call,
    exactly when the tags differ or at least one of the two nodes is of
    kind Text; otherwise the live node is kept, becomes the live node of the
    next node, and the calls start with the diff of the node itself. *)
Theorem rebuild_exactly_when (l v : VNode) (c : nat) (d : DomId) :
  dom l = Some d → d < c →
  (updateVNodeDOM l v c = Some (rebuilt v c d)
   ↔ tag l ≠ tag v ∨ type l = text ∨ type v = text)
  ∧ (¬ (tag l ≠ tag v ∨ type l = text ∨ type v = text) →
     ∀ v' c' t, updateVNodeDOM l v c = Some (v', c', t) →
                dom v' = Some d ∧ ∃ t1, t = diffNode l v d ++ t1).
Proof.
  intros Hd Hlt. rewrite <- irreconcilable_spec. split; [split|].
  - intros Hu. destruct (irreconcilable l v) eqn:Hi; [done|].
    unfold rebuilt in Hu. pose proof (toHTMLNode_dom v c) as Hc.
    destruct (toHTMLNode v c) as [v' c'].
    apply (updateVNodeDOM_in_place l v c v' c' _ d Hi Hd) in Hu as [Hv _].
    simpl in Hc. rewrite Hc in Hv. injection Hv as ->. lia.
  - intros Hi. by apply updateVNodeDOM_rebuild.
  - intros Hi v' c' t Hu. apply not_true_is_false in Hi.
    by apply (updateVNodeDOM_in_place l v c v' c' t d).
Qed.

Lemma rebuild_exactly_when_witness :
  dom (text_node (Some 0)) = Some 0 ∧ 0 < 1
  ∧ (updateVNodeDOM (text_node (Some 0)) (text_node None) 1
     = Some (rebuilt (text_node None) 1 0)
     ↔ tag (text_node (Some 0)) ≠ tag (text_node None)
       ∨ type (text_node (Some 0)) = text ∨ type (text_node None) = text).
Proof.
  split; [reflexivity|]. split; [lia|].
  apply (rebuild_exactly_when (text_node (Some 0)) (text_node None) 1 0);
    [reflexivity | lia].
Defined.

(** *** Reconciling a tree against a copy of itself *)

Section identical_copy.

Lemma bind_all_nil {A B} (f : A → list B) (l : list A) :
  (∀ x, x ∈ l → f x = []) → l ≫= f = [].
Proof.
  induction l as [|x l IH]; intros H; [done|].
  rewrite bind_cons, (H x), IH; [done| |]; set_solver.
Qed.

Lemma clearStyles_same (S : gmap string Value) d : clearStyles S S d = [].
Proof.
  apply bind_all_nil. intros [i x] Hin%elem_of_map_to_list. by rewrite Hin.
Qed.

Lemma writeStyles_same (S : gmap string Value) d : writeStyles S S d = [].
Proof.
  apply bind_all_nil. intros [i x] Hin%elem_of_map_to_list. rewrite Hin.
  by rewrite decide_True.
Qed.

Lemma removeAttributes_same (S : gmap string Value) d :
  removeAttributes S S d = [].
Proof.
  apply bind_all_nil. intros [i x] Hin%elem_of_map_to_list. by rewrite Hin.
Qed.

Lemma setAttributes_same (S : gmap string Value) d : setAttributes S S d = [].
Proof.
  apply bind_all_nil. intros [i x] Hin%elem_of_map_to_list. rewrite Hin.
  by rewrite decide_True.
Qed.

Lemma detachEvents_quiet le ve d : Forall quiet (detachEvents le ve d).
Proof.
  apply Forall_bind, Forall_forall. intros [i hs] _.
  simpl. case_match; [|by constructor]. by apply Forall_fmap, Forall_forall.
Qed.

Lemma attachEvents_quiet ve d : Forall quiet (attachEvents ve d).
Proof.
  apply Forall_bind, Forall_forall. intros [i ws] _.
  apply Forall_bind, Forall_forall. intros h _.
  simpl. destruct (is_function h); by repeat constructor.
Qed.

Lemma invalidation_hook_quiet v : Forall quiet (invalidation_hook v).
Proof. unfold invalidation_hook. destruct (view v); repeat constructor. Qed.

Lemma unbound_fields t t' :
  unbound t' = unbound t →
  tag t' = tag t ∧ type t' = type t ∧ styles t' = styles t
  ∧ attributes t' = attributes t ∧ events t' = events t
  ∧ view t' = view t ∧ unbound <$> body t' = unbound <$> body t.
Proof. destruct t, t'; simpl. intros [= -> -> -> -> -> -> H ->]. done. Qed.

Lemma positional_copy rec ls :
  Forall (λ l, ∀ t' c, bound l = true → unbound t' = unbound l →
               ∃ v' c' calls, rec l t' c = Some (v', c', calls)
                              ∧ Forall quiet calls) ls →
  ∀ ns c, forallb bound ls = true → unbound <$> ns = unbound <$> ls →
  ∃ b c' calls, positional rec ls ns c = Some (b, c', calls)
                ∧ Forall quiet calls.
Proof.
  induction 1 as [|l ls Hl _ IH]; intros [|n ns] c Hb Hu; try done.
  - by eexists _, _, _.
  - simpl in *. apply andb_true_iff in Hb as [Hb1 Hb2].
    injection Hu as Hu1 Hu2.
    destruct (Hl n c Hb1 Hu1) as (v' & c1 & t1 & -> & Hq1). simpl.
    destruct (IH ns c1 Hb2 Hu2) as (b & c2 & t2 & -> & Hq2).
    simpl. eexists _, _, _. split; [done|]. by apply Forall_app.
Qed.

Lemma bound_dom t : bound t = true → is_Some (dom t).
Proof.
  destruct t; simpl. intros [H _]%andb_true_iff.
  by apply bool_decide_eq_true in H.
Qed.

Lemma bound_body t : bound t = true → forallb bound (body t) = true.
Proof. destruct t; simpl. by intros [_ H]%andb_true_iff. Qed.

Lemma identical_copy_total_quiet t :
  ∀ t' c, bound t = true → unbound t' = unbound t →
  ∃ v' c' calls, updateVNodeDOM t t' c = Some (v', c', calls)
                 ∧ Forall quiet calls.
Proof.
  induction t as [tg ty k s a e b d w IH] using VNode_ind'.
  intros t' c Hb Hu. set (t := mkVNode tg ty k s a e b d w) in *.
  destruct (bound_dom _ Hb) as [x Hx]. pose proof (bound_body _ Hb) as Hbb.
  destruct (unbound_fields _ _ Hu) as (Htag & Hty & Hs & Ha & He & Hw & Hbody).
  rewrite updateVNodeDOM_unfold.
  destruct (irreconcilable t t') eqn:Hi.
  - rewrite Hx. simpl. pose proof (toHTMLNode_dom t' c) as Hc.
    destruct (toHTMLNode t' c) as [v' c']. simpl in Hc. rewrite Hc. simpl.
    eexists _, _, _. split; [done|]. repeat constructor.
  - assert (length (body t) = length (body t')) as Hlen.
    { by rewrite <- (length_fmap unbound (body t)), <- Hbody, length_fmap. }
    rewrite Hx. simpl in *.
    rewrite bool_decide_eq_false_2 by (intros Hne; by apply Hne).
    destruct (positional_copy updateVNodeDOM b IH (body t') c Hbb Hbody)
      as (b' & c' & calls & Hp & Hq).
    rewrite Hp. simpl. eexists _, _, _. split; [done|].
    unfold diffNode. simpl. rewrite Hs, Ha, He.
    rewrite clearStyles_same, writeStyles_same, removeAttributes_same,
      setAttributes_same. simpl.
    rewrite !Forall_app. repeat split; auto using detachEvents_quiet,
      attachEvents_quiet, invalidation_hook_quiet.
Qed.

(** C3 as stated fails: a node that listens to an event, reconciled
    against an identical copy of itself, has its handler detached and
    attached again. *)
Lemma identical_copy_reattaches_handler :
  ∃ v' c' calls,
    updateVNodeDOM clicked_previous (unbound clicked_previous) 1
    = Some (v', c', calls)
    ∧ RemoveEventListener 0 "click" (Some (HFunction 7)) ∈ calls
    ∧ AddEventListener 0 "click" (HFunction 7) ∈ calls
    ∧ ¬ Forall (λ call, is_event_call call = false) calls.
Proof.
  eexists _, _, _. split; [vm_compute; reflexivity|].
  split; [apply elem_of_cons; by left|].
  split; [apply elem_of_cons; right; apply elem_of_cons; by left|].
  intros H. by apply Forall_cons_1 in H as [H _].
Qed.

Lemma detachEvents_same (e : gmap string (list Handler)) d i hs h :
  e !! i = Some hs → h ∈ hs →
  RemoveEventListener d i (Some h) ∈ detachEvents e e d.
Proof.
  intros He [j Hj]%list_elem_of_lookup. apply list_elem_of_bind.
  exists (i, hs). split; [|by apply elem_of_map_to_list].
  simpl. rewrite He. apply list_elem_of_fmap. exists j. split.
  - by rewrite Hj.
  - apply elem_of_seq. apply lookup_lt_Some in Hj. lia.
Qed.

Lemma attachEvents_function (e : gmap string (list Handler)) d i hs h :
  e !! i = Some hs → h ∈ hs → is_function h = true →
  AddEventListener d i h ∈ attachEvents e d.
Proof.
  intros He Hh Hf. apply list_elem_of_bind.
  exists (i, hs). split; [|by apply elem_of_map_to_list].
  apply list_elem_of_bind. exists h. split; [|done].
  rewrite Hf. apply elem_of_cons. by left.
Qed.

(** C3, amended: reconciling a tree whose nodes are all bound against an
    identical copy of itself completes and makes no style write and no
    attribute set/remove call.  Event handlers are not exempt: on a node
    diffed in place every listed handler is detached and, when it is a
    function, attached again. *)
Theorem identical_copy_reconcile (t t' : VNode) (c : nat) :
  bound t = true → unbound t' = unbound t →
  ∃ v' c' calls,
    updateVNodeDOM t t' c = Some (v', c', calls)
    ∧ Forall (λ call, is_style_or_attribute_call call = false) calls
    ∧ (type t ≠ text →
       ∀ d i hs h, dom t = Some d → events t !! i = Some hs → h ∈ hs →
         RemoveEventListener d i (Some h) ∈ calls
         ∧ (is_function h = true → AddEventListener d i h ∈ calls)).
Proof.
  intros Hb Hu.
  destruct (identical_copy_total_quiet t t' c Hb Hu)
    as (v' & c' & calls & Hupd & Hq).
  exists v', c', calls. split; [done|]. split; [done|].
  intros Hty d i hs h Hd He Hh.
  destruct (unbound_fields _ _ Hu) as (Htag & Hty' & _ & _ & Hev & _ & _).
  assert (irreconcilable t t' = false) as Hi.
  { unfold irreconcilable. rewrite Htag, Hty'.
    rewrite !bool_decide_eq_false_2; [done|done|by intros []]. }
  destruct (updateVNodeDOM_in_place t t' c v' c' calls d Hi Hd Hupd)
    as (_ & t1 & ->).
  unfold diffNode. rewrite Hev. rewrite !elem_of_app. split.
  - left. right. right. left. by eapply detachEvents_same.
  - intros Hf. left. right. right. right. left.
    by eapply attachEvents_function.
Qed.

Lemma identical_copy_reconcile_witness :
  bound clicked_previous = true
  ∧ unbound (unbound clicked_previous) = unbound clicked_previous
  ∧ ∃ v' c' calls,
      updateVNodeDOM clicked_previous (unbound clicked_previous) 1
      = Some (v', c', calls)
      ∧ Forall (λ call, is_style_or_attribute_call call = false) calls
      ∧ (type clicked_previous ≠ text →
         ∀ d i hs h, dom clicked_previous = Some d →
           events clicked_previous !! i = Some hs → h ∈ hs →
           RemoveEventListener d i (Some h) ∈ calls
           ∧ (is_function h = true → AddEventListener d i h ∈ calls)).
Proof.
  split; [reflexivity|]. split; [reflexivity|].
  apply (identical_copy_reconcile clicked_previous (unbound clicked_previous) 1);
    reflexivity.
Defined.

End identical_copy.

(** *** The inline style after a reconciliation *)

Section style_round_trip.

Implicit Types (D : gmap DomId LiveNode) (S : gmap string Value).

(** Fresh identities only grow. *)
Lemma toHTMLNodes_ids rec l :
  Forall (λ x, ∀ c x' c', rec x c = (x', c') →
               c ≤ c' ∧ ∀ y, y ∈ ids x' → c ≤ y) l →
  ∀ c l' c', toHTMLNodes rec l c = (l', c') →
             c ≤ c' ∧ ∀ y, y ∈ l' ≫= ids → c ≤ y.
Proof.
  induction 1 as [|x l Hx _ IH]; intros c l' c' Heq; simpl in Heq.
  - injection Heq as <- <-. split; [lia|]. intros y Hy. by apply elem_of_nil in Hy.
  - destruct (rec x c) as [x' c1] eqn:E1.
    destruct (toHTMLNodes rec l c1) as [r' c2] eqn:E2.
    injection Heq as <- <-.
    destruct (Hx _ _ _ E1) as [Hc1 Hi1]. destruct (IH _ _ _ E2) as [Hc2 Hi2].
    split; [lia|]. intros y. rewrite bind_cons, elem_of_app.
    intros [Hy|Hy]; [by apply Hi1 | apply Hi2 in Hy; lia].
Qed.

Lemma toHTMLNode_ids v :
  ∀ c v' c', toHTMLNode v c = (v', c') → c ≤ c' ∧ ∀ y, y ∈ ids v' → c ≤ y.
Proof.
  induction v as [tg ty k s a e b d w IH] using VNode_ind'.
  intros c v' c' Heq. simpl in Heq.
  destruct (toHTMLNodes toHTMLNode b (S c)) as [b' c1] eqn:E.
  injection Heq as <- <-.
  destruct (toHTMLNodes_ids toHTMLNode b IH _ _ _ E) as [Hc Hi].
  split; [lia|]. intros y. simpl. rewrite elem_of_cons.
  intros [->|Hy]; [lia|]. apply Hi in Hy. lia.
Qed.







Lemma on_dom_Some o calls t :
  on_dom o calls = Some t → (∃ d, o = Some d ∧ t = calls d) ∨ t = [].
Proof.
  destruct o as [d|]; simpl.
  - intros [= <-]. left. by exists d.
  - destruct (calls 0); [intros [= <-]; by right|done].
Qed.




(** **** The calls on the live tree *)

Lemma create_each_frame rec l x :
  Forall (λ y, ∀ D D', rec y D = Some D' → x ∉ ids y → D' !! x = D !! x) l →
  ∀ D D', create_each rec l D = Some D' → x ∉ l ≫= ids → D' !! x = D !! x.
Proof.
  induction 1 as [|y l Hy _ IH]; intros D D' Heq Hx; simpl in Heq.
  - by injection Heq as <-.
  - destruct (rec y D) as [D1|] eqn:E1; simpl in Heq; [|done].
    rewrite bind_cons, elem_of_app in Hx.
    rewrite (IH _ _ Heq), (Hy _ _ E1); [done|tauto|tauto].
Qed.

Lemma create_frame v :
  ∀ parent D D' x, create parent v D = Some D' → x ∉ ids v → D' !! x = D !! x.
Proof.
  induction v as [tg ty k s a e b d w IH] using VNode_ind'.
  intros parent D D' x Heq Hx. simpl in Heq, Hx.
  destruct d as [d|]; simpl in Heq, Hx; [|done].
  apply not_elem_of_cons in Hx as [Hne Hx].
  erewrite (create_each_frame _ b x); [by rewrite lookup_insert_ne| |done|done].
  eapply Forall_impl; [exact IH|]. intros y Hy D1 D2. apply Hy.
Qed.








Lemma diffNode_not_ToHTMLNode l v d w : ToHTMLNode w ∉ diffNode l v d.
Proof.
  unfold diffNode. rewrite !elem_of_app.
  intros [H|[H|[H|[H|[H|H]]]]];
    apply list_elem_of_bind in H as ([i y] & H & _); simpl in H.
  - case_match; [by apply elem_of_nil in H|].
    by apply list_elem_of_singleton in H.
  - repeat case_match; try (by apply elem_of_nil in H);
      by apply list_elem_of_singleton in H.
  - case_match; [|by apply elem_of_nil in H].
    by apply list_elem_of_fmap in H as (j & ? & _).
  - apply list_elem_of_bind in H as (h & H & _).
    case_match; [|by apply elem_of_nil in H].
    by apply list_elem_of_singleton in H.
  - case_match; [by apply elem_of_nil in H|].
    by apply list_elem_of_singleton in H.
  - repeat case_match; try (by apply elem_of_nil in H);
      by apply list_elem_of_singleton in H.
Qed.



End style_round_trip.

(** *** The keyed regime *)

Lemma exec_all_app D t1 t2 :
  exec_all D (t1 ++ t2) = exec_all D t1 ≫= λ D1, exec_all D1 t2.
Proof.
  revert D. induction t1 as [|call t1 IH]; intros D; simpl; [done|].
  destruct (exec D call); simpl; [apply IH|done].
Qed.

Lemma structure_at_insert D D' k n n' x :
  (∀ y, structure_at D' y = structure_at D y) →
  D !! k = Some n → ln_children n' = ln_children n → ln_parent n' = ln_parent n →
  structure_at (<[k := n']> D') x = structure_at D x.
Proof.
  intros HD Hk Hc Hp. unfold structure_at in *.
  destruct (decide (k = x)) as [->|Hne].
  - rewrite lookup_insert_eq, Hk. simpl. by rewrite Hc, Hp.
  - rewrite lookup_insert_ne by done. apply HD.
Qed.

Lemma exec_local D d call :
  local_call d call → is_Some (D !! d) →
  ∃ D', exec D call = Some D' ∧ ∀ x, structure_at D' x = structure_at D x.
Proof.
  intros Hl [n Hn].
  destruct call as [d' k s|d' k [h|]|d' k h|d' k|d' k s|v|d' new|d'|ref new
                    |q new|w|w]; simpl in Hl; try done; subst; simpl;
    rewrite ?Hn; simpl; eexists; (split; [done|]); intros x; try done;
    by apply (structure_at_insert D D d n).
Qed.

Lemma exec_all_local calls :
  ∀ D, Forall (on_live D) calls →
  ∃ D', exec_all D calls = Some D' ∧ ∀ x, structure_at D' x = structure_at D x.
Proof.
  induction calls as [|call calls IH]; intros D Hall.
  - by exists D.
  - apply Forall_cons in Hall as [(d & Hc & Hd) Hall].
    assert (is_Some (D !! d)) as Hd'.
    { unfold structure_at in Hd.
      destruct (D !! d); [by eexists|]. simpl in Hd. by destruct Hd. }
    destruct (exec_local D d call Hc Hd') as (D1 & E1 & H1).
    simpl. rewrite E1. simpl.
    destruct (IH D1) as (D2 & E2 & H2).
    + eapply Forall_impl; [exact Hall|]. intros x (d2 & ? & ?).
      exists d2. split; [done|]. by rewrite H1.
    + exists D2. split; [done|]. intros x. by rewrite H2.
Qed.

Lemma diffNode_local l v d : Forall (local_call d) (diffNode l v d).
Proof.
  unfold diffNode. rewrite !Forall_app. repeat split;
    apply Forall_bind, Forall_forall; intros [i y] _; simpl.
  - by case_match; repeat constructor.
  - by repeat case_match; repeat constructor.
  - case_match; [|by constructor]. by apply Forall_fmap, Forall_forall.
  - apply Forall_bind, Forall_forall. intros h _. simpl.
    by case_match; repeat constructor.
  - by case_match; repeat constructor.
  - by repeat case_match; repeat constructor.
Qed.

Lemma invalidation_hook_local v d : Forall (local_call d) (invalidation_hook v).
Proof. unfold invalidation_hook. by destruct (view v); repeat constructor. Qed.

Lemma updateVNodeDOM_leaf l v c d :
  irreconcilable l v = false → body l = [] → body v = [] → dom l = Some d →
  updateVNodeDOM l v c
  = Some (bound_to v [] (Some d), c, diffNode l v d ++ invalidation_hook v).
Proof.
  intros Hi Hl Hv Hd. rewrite updateVNodeDOM_unfold, Hi, Hd, Hl, Hv. simpl.
  done.
Qed.

Lemma toHTMLNode_view v c : view (toHTMLNode v c).1 = view v.
Proof. destruct v; simpl. by destruct (toHTMLNodes _ _ _). Qed.

Lemma create_each_total rec l :
  Forall (λ x, ∀ D, ∃ D', rec x D = Some D'
                          ∧ ∀ y, is_Some (D !! y) → is_Some (D' !! y)) l →
  ∀ D, ∃ D', create_each rec l D = Some D'
             ∧ ∀ y, is_Some (D !! y) → is_Some (D' !! y).
Proof.
  induction 1 as [|x l Hx _ IH]; intros D; simpl.
  - by exists D.
  - destruct (Hx D) as (D1 & -> & H1). simpl.
    destruct (IH D1) as (D2 & -> & H2). exists D2. split; [done|]. auto.
Qed.

Lemma toHTMLNodes_Forall2 rec l :
  ∀ c l' c', toHTMLNodes rec l c = (l', c') →
  Forall2 (λ x x', ∃ c0 c1, rec x c0 = (x', c1)) l l'.
Proof.
  induction l as [|x l IH]; intros c l' c' Heq; simpl in Heq.
  - injection Heq as <- <-. constructor.
  - destruct (rec x c) as [x' c1] eqn:E1.
    destruct (toHTMLNodes rec l c1) as [r' c2] eqn:E2.
    injection Heq as <- <-. constructor; [by eauto|by eapply IH].
Qed.

Lemma create_unfold parent v D :
  create parent v D =
  d ← dom v;
  create_each (create (Some d)) (body v)
    (<[d := mkLiveNode (filter (λ kv, kv.2 ≠ "") (value_str <$> styles v))
                       (value_str <$> attributes v)
                       (listeners_of (events v))
                       (omap dom (body v))
                       parent]> D).
Proof. by destruct v. Qed.

Lemma create_total v :
  ∀ c v' c' parent D,
    toHTMLNode v c = (v', c') →
    ∃ D', create parent v' D = Some D'
          ∧ ∀ y, is_Some (D !! y) → is_Some (D' !! y).
Proof.
  induction v as [tg ty k s a e b d w IH] using VNode_ind'.
  intros c v' c' parent D Heq. simpl in Heq.
  destruct (toHTMLNodes toHTMLNode b (S c)) as [b' c1] eqn:E.
  injection Heq as <- <-. rewrite create_unfold. cbn -[create].
  apply toHTMLNodes_Forall2 in E.
  assert (Forall (λ x, ∀ D, ∃ D', create (Some c) x D = Some D'
                 ∧ ∀ y, is_Some (D !! y) → is_Some (D' !! y)) b') as Hb.
  { clear -IH E. induction E as [|x x' l l' (c0 & c1 & Hx) _ IHE];
      [constructor|].
    apply Forall_cons in IH as [IHx IHl].
    constructor; [|by apply IHE]. intros D. by eapply IHx. }
  destruct (create_each_total _ _ Hb
              (<[c := mkLiveNode (filter (λ kv, kv.2 ≠ "") (value_str <$> s))
                                 (value_str <$> a) (listeners_of e)
                                 (omap dom b') parent]> D))
    as (D' & E' & HD').
  exists D'. split; [exact E'|]. intros y Hy. apply HD'.
  destruct (decide (c = y)) as [->|Hne].
  - by rewrite lookup_insert_eq.
  - by rewrite lookup_insert_ne.
Qed.

Lemma create_root v c v' c' parent D D' :
  toHTMLNode v c = (v', c') → create parent v' D = Some D' →
  is_Some (D' !! c).
Proof.
  intros Heq. destruct v as [tg ty k s a e b d w]. simpl in Heq.
  destruct (toHTMLNodes toHTMLNode b (S c)) as [b' c1] eqn:E.
  injection Heq as <- <-. rewrite create_unfold. cbn -[create]. intros Hc.
  apply toHTMLNodes_Forall2 in E.
  assert (Forall (λ x, ∀ D, ∃ D', create (Some c) x D = Some D'
                 ∧ ∀ y, is_Some (D !! y) → is_Some (D' !! y)) b') as Hb.
  { clear -E. induction E as [|x x' l l' (c0 & c1 & Hx) _ IHE];
      constructor; [|done]. intros D. by eapply create_total. }
  destruct (create_each_total _ _ Hb
              (<[c := mkLiveNode (filter (λ kv, kv.2 ≠ "") (value_str <$> s))
                                 (value_str <$> a) (listeners_of e)
                                 (omap dom b') parent]> D))
    as (D2 & E2 & HD2).
  assert (Some D' = Some D2) as [= ->] by (rewrite <- Hc; exact E2).
  apply HD2. by rewrite lookup_insert_eq.
Qed.

Ltac tail_mem Hin :=
  unfold mount_hook, invalidation_hook in Hin;
  repeat match type of Hin with
         | context [match ?o with Some _ => _ | None => _ end] => destruct o
         end;
  simpl in Hin;
  repeat (apply elem_of_cons in Hin as [Hin|Hin]; [try discriminate|]);
  try (by apply elem_of_nil in Hin).

Section keyed_reorder_scenario.

Variables (P P' A B A' B' C : VNode) (p a b : DomId) (c : nat)
          (D : gmap DomId LiveNode).
Hypothesis HP : body P = [A; B].
Hypothesis HP' : body P' = [B'; A'; C].
Hypothesis HPi : irreconcilable P P' = false.
Hypothesis HPd : dom P = Some p.
Hypothesis HkA : key A = KNum 1.
Hypothesis HkA' : key A' = KNum 1.
Hypothesis HkB : key B = KNum 2.
Hypothesis HkB' : key B' = KNum 2.
Hypothesis HkC : key C = KNum 3.
Hypothesis HbA : body A = [].
Hypothesis HbA' : body A' = [].
Hypothesis HbB : body B = [].
Hypothesis HbB' : body B' = [].
Hypothesis HAi : irreconcilable A A' = false.
Hypothesis HBi : irreconcilable B B' = false.
Hypothesis HAd : dom A = Some a.
Hypothesis HBd : dom B = Some b.

Variables (C1 : VNode) (c1 : nat).
Hypothesis HC : toHTMLNode C c = (C1, c1).

Lemma reorder_keyed :
  keyed updateVNodeDOM [A; B] [B'; A'; C] [] c
  = Some ([bound_to B' [] (Some b); bound_to A' [] (Some a); C],
          [KNum 1; KNum 2], c,
          (diffNode A A' a ++ invalidation_hook A')
          ++ (diffNode B B' b ++ invalidation_hook B') ++ []).
Proof.
  assert (find_key (key A) [B'; A'; C] 0 = Some (1, A')) as F1.
  { simpl. by rewrite HkA, HkB', HkA'. }
  assert (∀ x, find_key (key B) [B'; x; C] 0 = Some (0, B')) as F2.
  { intros x. simpl. by rewrite HkB, HkB'. }
  cbn [keyed]. rewrite F1.
  rewrite (updateVNodeDOM_leaf A A' c a) by done.
  cbn [mbind option_bind]. cbn [insert list_insert].
  rewrite F2, (updateVNodeDOM_leaf B B' c b) by done.
  cbn [mbind option_bind]. cbn [insert list_insert].
  by rewrite HkA', HkB'.
Qed.

Lemma reorder_placeNew :
  placeNew (Some p) [KNum 1; KNum 2] None
           [bound_to B' [] (Some b); bound_to A' [] (Some a); C] c
  = Some ([bound_to B' [] (Some b); bound_to A' [] (Some a); C1], c1,
          ToHTMLNode C1 :: InsertAfter a c :: mount_hook C1 ++ []).
Proof.
  assert (needs_node [KNum 1; KNum 2] (bound_to B' [] (Some b)) = false) as H1.
  { unfold needs_node. simpl. by rewrite HkB'. }
  assert (needs_node [KNum 1; KNum 2] (bound_to A' [] (Some a)) = false) as H2.
  { unfold needs_node. simpl. by rewrite HkA'. }
  assert (needs_node [KNum 1; KNum 2] C = true) as H3.
  { unfold needs_node. by rewrite HkC. }
  cbn [placeNew]. rewrite H1, H2, H3, HC.
  pose proof (toHTMLNode_dom C c) as Hd. rewrite HC in Hd. simpl in Hd.
  rewrite Hd. reflexivity.
Qed.

Lemma reorder_calls :
  updateVNodeDOM P P' c
  = Some (bound_to P' [bound_to B' [] (Some b); bound_to A' [] (Some a); C1]
                  (Some p),
          c1,
          diffNode P P' p
          ++ (((diffNode A A' a ++ invalidation_hook A')
               ++ (diffNode B B' b ++ invalidation_hook B') ++ [])
              ++ (ToHTMLNode C1 :: InsertAfter a c :: mount_hook C1 ++ []))
          ++ invalidation_hook P').
Proof.
  rewrite updateVNodeDOM_unfold, HPi, HPd, HP, HP'.
  rewrite reorder_keyed. cbn -[placeNew diffNode].
  rewrite reorder_placeNew. reflexivity.
Qed.

Hypothesis Hlive_p : ln_children <$> D !! p = Some [a; b].
Hypothesis Hlive_a : ln_parent <$> D !! a = Some (Some p).
Hypothesis Hlive_b : is_Some (D !! b).
Hypothesis Hfresh_a : a < c.
Hypothesis Hfresh_p : p < c.

Lemma hooks_exec D0 w z :
  exec_all D0 (mount_hook w ++ invalidation_hook z) = Some D0.
Proof.
  unfold mount_hook, invalidation_hook. by destruct (view w), (view z).
Qed.

(** The keyed reorder for every childless [A] and [B] diffed in place and
    every [C]: the reconciliation completes; the next [A] and [B] take over
    the live nodes [a] and [b], for which no replacing, detaching or moving
    call is made; [C] alone is materialized, on the fresh live node [c],
    and inserted into the live parent right after [a]; the post-mount hook
    of the view of [C] fires.  The children of the live parent are then
    [a, c, b], whereas the tree handed back lists [b, a, c]. *)
Theorem keyed_reorder :
  ∃ v' calls D',
    updateVNodeDOM P P' c = Some (v', c1, calls)
    ∧ exec_all D calls = Some D'
    ∧ dom <$> body v' = [Some b; Some a; Some c]
    ∧ ln_children <$> D' !! p = Some [a; c; b]
    ∧ ln_parent <$> D' !! c = Some (Some p)
    ∧ (∀ d new, ReplaceWith d new ∉ calls)
    ∧ (∀ d, RemoveChild d ∉ calls)
    ∧ (∀ v, ToHTMLNode v ∈ calls → v = C1)
    ∧ (∀ w, view C = Some w → HandleMount w ∈ calls).
Proof.
  set (L := diffNode P P' p ++ (diffNode A A' a ++ invalidation_hook A')
            ++ (diffNode B B' b ++ invalidation_hook B')).
  assert (Forall (λ call, ∃ d, local_call d call ∧ d ∈ [p; a; b]) L) as HL.
  { unfold L. rewrite !Forall_app. repeat split.
    - eapply Forall_impl; [apply (diffNode_local P P' p)|].
      intros x ?. exists p. split; [done|]. set_solver.
    - eapply Forall_impl; [apply (diffNode_local A A' a)|].
      intros x ?. exists a. split; [done|]. set_solver.
    - eapply Forall_impl; [apply (invalidation_hook_local A' a)|].
      intros x ?. exists a. split; [done|]. set_solver.
    - eapply Forall_impl; [apply (diffNode_local B B' b)|].
      intros x ?. exists b. split; [done|]. set_solver.
    - eapply Forall_impl; [apply (invalidation_hook_local B' b)|].
      intros x ?. exists b. split; [done|]. set_solver. }
  assert (is_Some (D !! p)) as [pn Hpn].
  { destruct (D !! p); [by eexists|done]. }
  assert (is_Some (D !! a)) as [an Han].
  { destruct (D !! a); [by eexists|done]. }
  destruct (exec_all_local L D) as (D1 & E1 & H1).
  { eapply Forall_impl; [exact HL|]. intros x (d & Hd & Hin).
    exists d. split; [done|]. unfold structure_at.
    apply elem_of_cons in Hin as [->|Hin]; [by rewrite Hpn; eexists|].
    apply elem_of_cons in Hin as [->|Hin]; [by rewrite Han; eexists|].
    apply list_elem_of_singleton in Hin as ->.
    destruct Hlive_b as [bn ->]. by eexists. }
  destruct (create_total C c C1 c1 None D1 HC) as (D2 & E2 & H2).
  pose proof (create_root C c C1 c1 None D1 D2 HC E2) as [m Hm].
  assert (∀ x, x < c → D2 !! x = D1 !! x) as Hframe.
  { intros x Hx. apply (create_frame C1 None D1 D2 x E2). intros Hin.
    apply (proj2 (toHTMLNode_ids C c C1 c1 HC)) in Hin. lia. }
  assert (∃ pn1, D1 !! p = Some pn1 ∧ ln_children pn1 = [a; b]) as (pn1 & Hp1 & Hc1).
  { specialize (H1 p). unfold structure_at in H1. rewrite Hpn in H1.
    destruct (D1 !! p) as [pn1|]; [|done]. exists pn1. split; [done|].
    rewrite Hpn in Hlive_p. simpl in *. congruence. }
  assert (∃ an1, D1 !! a = Some an1 ∧ ln_parent an1 = Some p) as (an1 & Ha1 & Hq1).
  { specialize (H1 a). unfold structure_at in H1. rewrite Han in H1.
    destruct (D1 !! a) as [an1|]; [|done]. exists an1. split; [done|].
    rewrite Han in Hlive_a. simpl in *. congruence. }
  exists (bound_to P' [bound_to B' [] (Some b); bound_to A' [] (Some a); C1]
                  (Some p)),
         (L ++ [ToHTMLNode C1; InsertAfter a c]
            ++ (mount_hook C1 ++ invalidation_hook P')),
         (<[c := set_parent (Some p) m]>
            (<[p := set_children (insert_after a c) pn1]> D2)).
  split; [|split; [|split; [|split; [|split; [|split; [|split; [|split]]]]]]].
  - rewrite reorder_calls. unfold L. f_equal. f_equal.
    rewrite !app_nil_r. rewrite <- !app_assoc. reflexivity.
  - rewrite exec_all_app, E1. simpl. rewrite E2. simpl.
    assert (D2 !! a = Some an1) as Ha2 by (by rewrite Hframe).
    assert (D2 !! p = Some pn1) as Hp2 by (by rewrite Hframe).
    assert (D2 !! (c : DomId) = Some m) as Hm2 by exact Hm.
    rewrite Ha2. simpl. rewrite Hq1. simpl.
    rewrite Hp2. simpl. rewrite Hm2. simpl.
    apply hooks_exec.
  - pose proof (toHTMLNode_dom C c) as Hd. rewrite HC in Hd. simpl in *.
    by rewrite Hd.
  - rewrite lookup_insert_ne by lia. rewrite lookup_insert_eq. simpl.
    rewrite Hc1. simpl. by rewrite decide_True.
  - by rewrite lookup_insert_eq.
  - intros d new [Hin|Hin]%elem_of_app.
    + rewrite Forall_forall in HL. by destruct (HL _ Hin) as (? & [] & _).
    + tail_mem Hin.
  - intros d [Hin|Hin]%elem_of_app.
    + rewrite Forall_forall in HL. by destruct (HL _ Hin) as (? & [] & _).
    + tail_mem Hin.
  - intros v [Hin|Hin]%elem_of_app.
    + rewrite Forall_forall in HL. by destruct (HL _ Hin) as (? & [] & _).
    + tail_mem Hin; by injection Hin.
  - intros w Hw. apply elem_of_app. right.
    do 2 (apply elem_of_cons; right). apply elem_of_app. left.
    unfold mount_hook. pose proof (toHTMLNode_view C c) as Hv.
    rewrite HC in Hv. simpl in Hv. rewrite Hv, Hw. apply elem_of_cons. by left.
Qed.

End keyed_reorder_scenario.

Lemma keyed_reorder_witness :
  ∃ v' calls D',
    updateVNodeDOM reorder_previous reorder_next 3 = Some (v', 4, calls)
    ∧ exec_all reorder_live calls = Some D'
    ∧ dom <$> body v' = [Some 2; Some 1; Some 3]
    ∧ ln_children <$> D' !! 0 = Some [1; 3; 2]
    ∧ ln_parent <$> D' !! 3 = Some (Some 0)
    ∧ (∀ d new, ReplaceWith d new ∉ calls)
    ∧ (∀ d, RemoveChild d ∉ calls)
    ∧ (∀ v, ToHTMLNode v ∈ calls → v = leaf 3 13 (Some 3))
    ∧ (∀ w, view (leaf 3 13 None) = Some w → HandleMount w ∈ calls).
Proof.
  apply (keyed_reorder reorder_previous reorder_next
           (leaf 1 11 (Some 1)) (leaf 2 12 (Some 2))
           (leaf 1 11 None) (leaf 2 12 None) (leaf 3 13 None)
           0 1 2 3 reorder_live);
    first [reflexivity | lia | (eexists; reflexivity)].
Defined.

(** C2: at the keyed reorder scenario, previous children [A(key=1),
    B(key=2)] on the live nodes 1 and 2 and next children [B(key=2),
    A(key=1), C(key=3)], the reconciler keeps the live nodes of [A] and [B]
    and creates [C], whose post-mount hook fires, but the only call it
    makes on the children of the live parent inserts [C] after the live
    node of [A]: the live children end in the order [A, C, B] and not
    [B, A, C], out of step with the tree handed back, which lists them as
    [B, A, C].  The same happens when [A] and [B] have children of their
    own.  Without keys the same loop removes both children, creates three
    and leaves them in the order of the tree handed back. *)
Theorem keyed_reorder_out_of_order :
  (∃ v' calls D,
     updateVNodeDOM reorder_previous reorder_next 3 = Some (v', 4, calls)
     ∧ exec_all reorder_live calls = Some D
     ∧ calls = [HandleInvalidation 11; HandleInvalidation 12;
                ToHTMLNode (leaf 3 13 (Some 3)); InsertAfter 1 3;
                HandleMount 13]
     ∧ dom <$> body v' = [Some 2; Some 1; Some 3]
     ∧ ln_children <$> D !! 0 = Some [1; 3; 2]
     ∧ ln_children <$> D !! 0 ≠ Some [2; 1; 3]
     ∧ in_order D v' = false)
  ∧ (∃ v' calls D,
       updateVNodeDOM nested_previous nested_next 5 = Some (v', 6, calls)
       ∧ exec_all nested_live calls = Some D
       ∧ calls = [HandleInvalidation 14; HandleInvalidation 11;
                  HandleInvalidation 15; HandleInvalidation 12;
                  ToHTMLNode (leaf 3 13 (Some 5)); InsertAfter 1 5;
                  HandleMount 13]
       ∧ dom <$> body v' = [Some 2; Some 1; Some 5]
       ∧ ln_children <$> D !! 0 = Some [1; 5; 2]
       ∧ ln_children <$> D !! 1 = Some [3]
       ∧ ln_children <$> D !! 2 = Some [4]
       ∧ in_order D v' = false)
  ∧ (∃ v' calls D,
       updateVNodeDOM unkeyed_previous unkeyed_next 3 = Some (v', 6, calls)
       ∧ exec_all reorder_live calls = Some D
       ∧ dom <$> body v' = [Some 3; Some 4; Some 5]
       ∧ view <$> body v' = [Some 12; Some 11; Some 13]
       ∧ ln_children <$> D !! 0 = Some [3; 4; 5]
       ∧ in_order D v' = true).
Proof.
  split; [|split].
  - eexists _, _, _. split; [vm_compute; reflexivity|].
    split; [vm_compute; reflexivity|].
    split; [reflexivity|]. split; [reflexivity|].
    split; [vm_compute; reflexivity|].
    split; [by vm_compute|]. vm_compute; reflexivity.
  - eexists _, _, _. split; [vm_compute; reflexivity|].
    split; [vm_compute; reflexivity|].
    split; [reflexivity|]. split; [reflexivity|].
    repeat split; vm_compute; reflexivity.
  - eexists _, _, _. split; [vm_compute; reflexivity|].
    split; [vm_compute; reflexivity|].
    repeat split; vm_compute; reflexivity.
Qed.

End ReconcilerSpec.

(** * Properties of the rendering pipeline and of the lifecycle *)

Module ViewSpec.

Import View.

Section induction.

Variables (P : Value → Prop) (Q : Body → Prop).
Hypothesis HNull : P Null.
Hypothesis HPlain : ∀ n, P (Plain n).
Hypothesis HView : ∀ i g, (∀ side, Q (g side)) → P (AView (mkView i g)).
Hypothesis HNode : ∀ r w b, Forall P b → P (ANode (mkVNode r w b)).
Hypothesis HReturn : ∀ v, P v → Q (Return v).
Hypothesis HSet : ∀ target keys k, Q k → Q (StateSet target keys k).
Hypothesis HDispatch :
  ∀ target keys k, Q k → Q (StateDispatch target keys k).

Lemma Value_Body_ind : (∀ v, P v) ∧ (∀ b, Q b).
Proof.
  assert (∀ v, P v) as Hv.
  { fix IHv 1 with (IHb (b : Body) {struct b} : Q b).
    - intros [| n | [i g] | [r w b]].
      + exact HNull.
      + apply HPlain.
      + apply HView. intros side. apply IHb.
      + apply HNode. induction b as [|x b IH]; constructor; [apply IHv|exact IH].
    - intros [v | target keys k | target keys k].
      + apply HReturn, IHv.
      + apply HSet, IHb.
      + apply HDispatch, IHb. }
  split; [exact Hv|].
  fix IHb 1. intros [v | target keys k | target keys k];
    [apply HReturn, Hv | apply HSet, IHb | apply HDispatch, IHb].
Qed.

End induction.

(** *** The render contract *)

Section contract.

Variables (ignoreStateChange : bool) (side : string).

Lemma renderChildren_cons rec c rest W :
  is_child c = true →
  renderChildren rec (c :: rest) W =
  match rec c W with
  | Throw e W' => Throw e W'
  | Ok n W' =>
      match renderChildren rec rest W' with
      | Throw e W'' => Throw e W''
      | Ok rest' W'' => Ok (entry_of n :: rest') W''
      end
  end.
Proof. by destruct c. Qed.

Lemma renderChildren_not_child rec c rest W :
  is_child c = false →
  renderChildren rec (c :: rest) W = Throw (Error "Unexpected child passed") W.
Proof. by destruct c. Qed.

Lemma renderChildren_decided rec b :
  Forall (λ c, ∀ W, decided (contract_ok side c true) (rec c W)) b →
  ∀ W, if forallb (λ c, is_child c && contract_ok side c true) b
       then returned (renderChildren rec b W)
       else ∃ W', renderChildren rec b W = Throw (Error expected_a_vnode) W'
                  ∨ renderChildren rec b W
                    = Throw (Error "Unexpected child passed") W'.
Proof.
  induction 1 as [|c b Hc _ IH]; intros W.
  - by eexists _, _.
  - cbn [forallb]. destruct (is_child c) eqn:Hch.
    + rewrite renderChildren_cons by done. specialize (Hc W). revert Hc.
      destruct (contract_ok side c true); cbn [andb decided].
      * intros (r & W1 & ->). specialize (IH W1). revert IH.
        destruct (forallb _ b).
        -- intros (b' & W2 & ->). by eexists _, _.
        -- intros (W2 & [-> | ->]); eexists; eauto.
      * intros (W1 & [-> | ->]); eexists; eauto.
    + rewrite renderChildren_not_child by done. eexists. by right.
Qed.

Lemma render_decided :
  (∀ v vs saveVNode W,
     decided (contract_ok side v (bool_decide (vs = [])))
             (render v vs saveVNode ignoreStateChange side W))
  ∧ (∀ b i restore vs saveVNode W,
       vs ≠ [] →
       decided (contract_okBody side b)
               (renderBody i restore b vs saveVNode ignoreStateChange side W)).
Proof.
  apply Value_Body_ind.
  - intros vs sv W. simpl. by eexists _, _.
  - intros n vs sv W. simpl. eexists. by left.
  - intros i g IH vs sv W. simpl.
    destruct ignoreStateChange; apply IH; by destruct vs.
  - intros r w b IH vs sv W. destruct vs as [|x vs]; simpl.
    + by eexists _, _.
    + pose proof (renderChildren_decided
                    (λ child W, render child [] true ignoreStateChange side W)
                    b) as Hb.
      specialize (Hb (Forall_impl _ _ _ IH (λ c Hc W, Hc [] true W)) W).
      revert Hb. destruct (forallb _ b); intros Hb.
      * destruct Hb as (b' & W' & ->). by eexists _, _.
      * destruct Hb as (W' & [-> | ->]); eexists; eauto.
  - intros v IH i restore vs sv W Hvs. simpl.
    specialize (IH vs sv (match restore with
                          | Some f => with_view i (set_state_set f) W
                          | None => W
                          end)).
    by rewrite bool_decide_eq_false_2 in IH.
  - intros target keys k IH i restore vs sv W Hvs. simpl. by apply IH.
  - intros target keys k IH i restore vs sv W Hvs. simpl. by apply IH.
Qed.

Lemma terminal_render :
  (∀ v vs saveVNode W,
     (∀ n, terminal side v = Plain n →
           ∃ W', render v vs saveVNode ignoreStateChange side W
                 = Throw (Error expected_a_vnode) W')
     ∧ (terminal side v = Null →
        ∃ W', render v vs saveVNode ignoreStateChange side W = Ok None W'))
  ∧ (∀ b i restore vs saveVNode W,
       (∀ n, terminalBody side b = Plain n →
             ∃ W', renderBody i restore b vs saveVNode ignoreStateChange side W
                   = Throw (Error expected_a_vnode) W')
       ∧ (terminalBody side b = Null →
          ∃ W', renderBody i restore b vs saveVNode ignoreStateChange side W
                = Ok None W')).
Proof.
  apply Value_Body_ind.
  - intros vs sv W. split; [done|]. intros _. by eexists.
  - intros n vs sv W. split; [|done]. intros m _. by eexists.
  - intros i g IH vs sv W. simpl. destruct ignoreStateChange; apply IH.
  - intros r w b _ vs sv W. split; [done|done].
  - intros v IH i restore vs sv W. apply IH.
  - intros target keys k IH i restore vs sv W. apply IH.
  - intros target keys k IH i restore vs sv W. apply IH.
Qed.

(** The chain of a view ends where the chain of its body ends, and a pass
    is judged on the value that ends it. *)
Lemma contract_ok_terminal :
  (∀ v, contract_ok side v false = contract_ok side (terminal side v) false)
  ∧ (∀ b, contract_okBody side b
          = contract_ok side (terminalBody side b) false).
Proof.
  apply Value_Body_ind; try done.
  intros i g IH. simpl. apply IH.
Qed.

(** C6, amended: [View.renderToVNode] fails with an [Error] when the body
    chain of the root ends in a value that is neither empty nor a [VNode];
    it fails with an [Error] as well when an entry of the body of the node
    that ends the chain of a view is neither a [View] nor a [VNode], or is a
    view whose own pass fails in one of these ways, so the check is made at
    every level reached through views; it returns in every other case, in
    particular when the chain ends in an empty value.  The entries of a
    child given as a [VNode] are not inspected. *)
Theorem render_contract (view : Value) (saveVNode : bool) (W : World) :
  (∀ n, terminal side view = Plain n →
        ∃ W', renderToVNode view saveVNode ignoreStateChange side W
              = Throw (Error expected_a_vnode) W')
  ∧ (terminal side view = Null →
     ∃ W', renderToVNode view saveVNode ignoreStateChange side W = Ok None W')
  ∧ (∀ w r x b c,
       view = AView w → terminal side view = ANode (mkVNode r x b) →
       c ∈ b → is_child c && contract_ok side c true = false →
       ∃ msg W', renderToVNode view saveVNode ignoreStateChange side W
                 = Throw (Error msg) W')
  ∧ (contract_ok side view true = false →
     ∃ msg W', renderToVNode view saveVNode ignoreStateChange side W
               = Throw (Error msg) W')
  ∧ (contract_ok side view true = true →
     ∃ n W', renderToVNode view saveVNode ignoreStateChange side W = Ok n W').
Proof.
  pose proof (proj1 render_decided view [] saveVNode W) as Hd.
  rewrite bool_decide_eq_true_2 in Hd by done.
  assert (contract_ok side view true = false →
          ∃ msg W', renderToVNode view saveVNode ignoreStateChange side W
                    = Throw (Error msg) W') as Hfail.
  { intros Hok. rewrite Hok in Hd. destruct Hd as (W' & [H|H]); eauto. }
  split; [|split; [|split; [|split]]].
  - intros n. apply terminal_render.
  - apply terminal_render.
  - intros w r x b c -> Ht Hc Hbad. apply Hfail.
    destruct w as [i g]. simpl in *.
    rewrite (proj2 contract_ok_terminal), Ht. simpl.
    apply not_true_is_false. intros Hall.
    rewrite forallb_forall in Hall. apply list_elem_of_In, Hall in Hc.
    congruence.
  - exact Hfail.
  - intros Hok. by rewrite Hok in Hd.
Qed.

End contract.

(** C6 as stated fails: a node given as it is among the entries of a body
    is not inspected, so the number among its own entries, one level down in
    the resulting tree, raises nothing. *)
Lemma nested_entry_unchecked :
  ∃ n m W',
    renderToVNode (AView (container 1 1 [raw_node])) false false "client"
                  start
    = Ok (Some n) W'
    ∧ body n = [ANode m]
    ∧ Plain 42 ∈ body m.
Proof.
  exists (mkVNode 1 (Some 1) [raw_node]), (mkVNode 2 None [Plain 42]).
  eexists. split; [reflexivity|]. split; [done|]. apply elem_of_cons. by left.
Qed.


Lemma render_contract_witness :
  terminal "client" (AView (broken 1)) = Plain 42
  ∧ ∃ W', renderToVNode (AView (broken 1)) false false "client" start
          = Throw (Error expected_a_vnode) W'.
Proof.
  split; [reflexivity|].
  apply (proj1 (render_contract false "client" (AView (broken 1)) false
                               start) 42%Z).
  reflexivity.
Defined.

(** *** Rendering without state changes *)

Section ignore_state_change.

Variable side : string.

Lemma view_state_with_view W i f j :
  view_state (with_view i f W) j
  = if decide (i = j) then f (view_state W i) else view_state W j.
Proof.
  unfold view_state at 1, with_view. simpl. destruct (decide (i = j)) as [->|H].
  - by rewrite lookup_insert_eq.
  - by rewrite lookup_insert_ne.
Qed.














(** Without [ignoreStateChange] the same pass does change the state and
    does enqueue an invalidation, when a body method calls [state.set] on a
    mounted view. *)
Lemma state_change_when_not_ignored :
  queue counter_mounted = []
  ∧ queue (world_of (renderToVNode (AView (counter 1 1)) false false "client"
                                   counter_mounted))
    = [WForceInvalidate 1]
  ∧ queue (world_of (renderToVNode (AView (counter 1 1)) false true "client"
                                   counter_mounted))
    = [].
Proof. split; [|split]; vm_compute; reflexivity. Qed.



End ignore_state_change.


(** *** What a pass saves *)

Section saved_nodes.

Variables (ignoreStateChange : bool) (side : string).

Local Abbreviation last_of W i := (lastVNode (view_state W i)).

Lemma last_of_with_view W i f j :
  (∀ s, lastVNode (f s) = lastVNode s) →
  last_of (with_view i f W) j = last_of W j.
Proof.
  intros Hf. rewrite view_state_with_view.
  destruct (decide (i = j)) as [->|]; [apply Hf|done].
Qed.

Lemma last_of_dispatch i keys W j :
  last_of (dispatch i keys W) j = last_of W j.
Proof.
  unfold dispatch, invalidate. destruct (mounted _ i); by apply last_of_with_view.
Qed.

Lemma last_of_callSet i keys W j : last_of (callSet i keys W) j = last_of W j.
Proof.
  unfold callSet. destruct (state_set (view_state W i)); [|done].
  apply last_of_dispatch.
Qed.

Lemma last_of_saveTo_other vs n W j :
  j ∉ vs → last_of (saveTo vs n W) j = last_of W j.
Proof.
  unfold saveTo. revert W. induction vs as [|i vs IH]; intros W Hj; [done|].
  apply not_elem_of_cons in Hj as [Hne Hj]. simpl. rewrite IH by done.
  rewrite view_state_with_view. by rewrite decide_False.
Qed.

Lemma last_of_saveTo vs n W j : j ∈ vs → last_of (saveTo vs n W) j = n.
Proof.
  unfold saveTo. revert W. induction vs as [|i vs IH]; intros W Hj.
  - by apply elem_of_nil in Hj.
  - simpl. destruct (decide (j ∈ vs)) as [Hin|Hout]; [by apply IH|].
    apply elem_of_cons in Hj as [->|?]; [|done].
    fold (saveTo vs n (with_view i (set_lastVNode n) W)).
    rewrite last_of_saveTo_other by done.
    rewrite view_state_with_view. by rewrite decide_True.
Qed.

Local Abbreviation render_child :=
  (View.render_child ignoreStateChange side).

(** A pass writes [lastVNode] only in views that it renders. *)
Lemma renderChildren_others rec b :
  Forall (λ c, ∀ W r W' j, rec c W = Ok r W' → j ∉ rendered side c true →
                           last_of W' j = last_of W j) b →
  ∀ W b' W' j, renderChildren rec b W = Ok b' W' →
               j ∉ b ≫= (λ c, rendered side c true) →
               last_of W' j = last_of W j.
Proof.
  induction 1 as [|c b Hc _ IH]; intros W b' W' j Heq Hj.
  - by injection Heq as <- <-.
  - rewrite bind_cons, elem_of_app in Hj.
    destruct (is_child c) eqn:Hch;
      [|by rewrite renderChildren_not_child in Heq].
    rewrite renderChildren_cons in Heq by done.
    destruct (rec c W) as [r W1|e W1] eqn:E1; [|done].
    destruct (renderChildren rec b W1) as [b1 W2|e W2] eqn:E2; [|done].
    injection Heq as <- <-.
    rewrite (IH _ _ _ j E2), (Hc _ _ _ j E1); [done|tauto|tauto].
Qed.

Lemma render_others :
  (∀ v vs saveVNode W r W' j,
     render v vs saveVNode ignoreStateChange side W = Ok r W' →
     j ∉ vs → j ∉ rendered side v (bool_decide (vs = [])) →
     last_of W' j = last_of W j)
  ∧ (∀ b i restore vs saveVNode W r W' j,
       vs ≠ [] →
       renderBody i restore b vs saveVNode ignoreStateChange side W = Ok r W' →
       j ∉ vs → j ∉ renderedBody side b →
       last_of W' j = last_of W j).
Proof.
  apply Value_Body_ind.
  - intros vs sv W r W' j [= <- <-] Hj _.
    destruct sv; [by apply last_of_saveTo_other|done].
  - done.
  - intros i g IH vs sv W r W' j Heq Hj Hr. simpl in Heq, Hr.
    apply not_elem_of_cons in Hr as [Hne Hr].
    assert (j ∉ vs ++ [i]) as Hj'.
    { rewrite elem_of_app, list_elem_of_singleton. tauto. }
    assert (vs ++ [i] ≠ []) as Hvs by (by destruct vs).
    destruct ignoreStateChange.
    + rewrite (IH side _ _ _ _ _ _ _ j Hvs Heq Hj' Hr).
      by apply last_of_with_view.
    + by rewrite (IH side _ _ _ _ _ _ _ j Hvs Heq Hj' Hr).
  - intros r w b IH vs sv W r' W' j Heq Hj Hr.
    destruct vs as [|x vs]; simpl in Heq; [by injection Heq as <- <-|].
    rewrite bool_decide_eq_false_2 in Hr by done. simpl in Hr.
    destruct (renderChildren _ b W) as [b' W1|e W1] eqn:E1; [|done].
    injection Heq as <- <-.
    assert (last_of W1 j = last_of W j) as H1.
    { eapply (renderChildren_others _ b); [|exact E1|exact Hr].
      eapply Forall_impl; [exact IH|]. intros c Hc W2 r2 W3 j2 Heq2 Hj2.
      apply (Hc [] true W2 r2 W3 j2 Heq2); [apply not_elem_of_nil|exact Hj2]. }
    destruct sv; [|done].
    rewrite <- H1. by apply (last_of_saveTo_other (x :: vs)).
  - intros v IH i restore vs sv W r W' j Hvs Heq Hj Hr. simpl in Heq, Hr.
    specialize (IH _ _ _ _ _ j Heq Hj).
    rewrite bool_decide_eq_false_2 in IH by done. rewrite (IH Hr).
    destruct restore; [by apply last_of_with_view|done].
  - intros target keys k IH i restore vs sv W r W' j Hvs Heq Hj Hr.
    simpl in Heq, Hr.
    rewrite (IH _ _ _ _ _ _ _ j Hvs Heq Hj Hr). apply last_of_callSet.
  - intros target keys k IH i restore vs sv W r W' j Hvs Heq Hj Hr.
    simpl in Heq, Hr.
    rewrite (IH _ _ _ _ _ _ _ j Hvs Heq Hj Hr). apply last_of_dispatch.
Qed.

(** A pass with [saveVNode] leaves its result in every view of the
    delegation chain. *)
Lemma render_saves :
  (∀ v vs W r W' j,
     render v vs true ignoreStateChange side W = Ok r W' →
     j ∈ vs ++ chain side v → last_of W' j = r)
  ∧ (∀ b i restore vs W r W' j,
       renderBody i restore b vs true ignoreStateChange side W = Ok r W' →
       j ∈ vs ++ chainBody side b → last_of W' j = r).
Proof.
  apply Value_Body_ind.
  - intros vs W r W' j [= <- <-] Hj. rewrite app_nil_r in Hj.
    by apply last_of_saveTo.
  - done.
  - intros i g IH vs W r W' j Heq Hj. simpl in Heq, Hj.
    rewrite cons_middle, app_assoc in Hj.
    destruct ignoreStateChange; by apply (IH side _ _ _ _ _ _ j Heq).
  - intros r w b _ vs W r' W' j Heq Hj. rewrite app_nil_r in Hj.
    destruct vs as [|x vs]; [by apply elem_of_nil in Hj|]. simpl in Heq.
    destruct (renderChildren _ b W) as [b' W1|e W1]; [|done].
    injection Heq as <- <-. by apply (last_of_saveTo (x :: vs)).
  - intros v IH i restore vs W r W' j Heq Hj. by apply (IH _ _ _ _ j Heq).
  - intros target keys k IH i restore vs W r W' j Heq Hj.
    by apply (IH _ _ _ _ _ _ j Heq).
  - intros target keys k IH i restore vs W r W' j Heq Hj.
    by apply (IH _ _ _ _ _ _ j Heq).
Qed.

Lemma chain_rendered :
  (∀ v top j, j ∈ chain side v → j ∈ rendered side v top)
  ∧ (∀ b j, j ∈ chainBody side b → j ∈ renderedBody side b).
Proof.
  apply Value_Body_ind.
  - intros top j Hj. by apply elem_of_nil in Hj.
  - intros n top j Hj. by apply elem_of_nil in Hj.
  - intros i g IH top j. simpl. rewrite !elem_of_cons.
    intros [->|Hj]; [by left|right; by apply IH].
  - intros r w b _ top j Hj. by apply elem_of_nil in Hj.
  - intros v IH j. simpl. apply IH.
  - intros target keys k IH j. simpl. apply IH.
  - intros target keys k IH j. simpl. apply IH.
Qed.

(** What the loop over the entries of a body leaves in the views. *)
Lemma renderChildren_saves b :
  ∀ W b' W',
    renderChildren render_child b W = Ok b' W' →
    NoDup (b ≫= (λ c, rendered side c true)) →
    ∀ k c j, b !! k = Some c → j ∈ chain side c →
             last_of W' j = node_of (b' !! k).
Proof.
  induction b as [|c b IH]; intros W b' W' Heq Hnd k c' j Hk Hj; [done|].
  rewrite bind_cons in Hnd. apply NoDup_app in Hnd as (_ & Hdisj & Hnd).
  destruct (is_child c) eqn:Hch;
    [|by rewrite renderChildren_not_child in Heq].
  rewrite renderChildren_cons in Heq by done.
  destruct (render_child c W) as [r W1|e W1] eqn:E1; [|done].
  destruct (renderChildren render_child b W1) as [b1 W2|e W2] eqn:E2; [|done].
  injection Heq as <- <-. destruct k as [|k]; simpl in Hk |- *.
  - injection Hk as <-.
    assert (last_of W2 j = last_of W1 j) as ->.
    { eapply (renderChildren_others render_child b); [|exact E2|].
      - apply Forall_forall. intros x _ W3 r3 W4 j3 Heq3 Hj3.
        apply (proj1 render_others x [] true W3 r3 W4 j3 Heq3);
          [apply not_elem_of_nil|exact Hj3].
      - apply Hdisj. by apply chain_rendered. }
    rewrite (proj1 render_saves c [] W r W1 j E1 Hj). by destruct r.
  - by apply (IH W1 b1 W2 E2 Hnd k c' j).
Qed.

Section root.

Variables (r0 : nat) (w0 : option ViewId) (b : list Value).

(** A pass without [saveVNode] reaches the node that ends the chain
    without writing any [lastVNode], and then renders its entries. *)
Lemma render_root :
  (∀ v vs W r W',
     vs ++ chain side v ≠ [] →
     terminal side v = ANode (mkVNode r0 w0 b) →
     render v vs false ignoreStateChange side W = Ok r W' →
     ∃ Wk b', (∀ j, last_of Wk j = last_of W j)
              ∧ renderChildren render_child b Wk = Ok b' W'
              ∧ r = Some (mkVNode r0 (last (vs ++ chain side v)) b'))
  ∧ (∀ bd i restore vs W r W',
       vs ≠ [] →
       terminalBody side bd = ANode (mkVNode r0 w0 b) →
       renderBody i restore bd vs false ignoreStateChange side W = Ok r W' →
       ∃ Wk b', (∀ j, last_of Wk j = last_of W j)
                ∧ renderChildren render_child b Wk = Ok b' W'
                ∧ r = Some (mkVNode r0 (last (vs ++ chainBody side bd)) b')).
Proof.
  apply Value_Body_ind.
  - done.
  - done.
  - intros i g IH vs W r W' _ Ht Heq. simpl in Ht, Heq.
    assert (vs ++ [i] ≠ []) as Hvs by (by destruct vs).
    simpl. rewrite cons_middle, app_assoc. destruct ignoreStateChange.
    + destruct (IH side _ _ _ _ _ _ Hvs Ht Heq) as (Wk & b' & Hk & Hc & ->).
      exists Wk, b'. split; [|done]. intros j. rewrite Hk.
      by apply last_of_with_view.
    + apply (IH side _ _ _ _ _ _ Hvs Ht Heq).
  - intros r w b1 _ vs W r' W' Hvs [= -> -> ->] Heq.
    rewrite app_nil_r in Hvs |- *. destruct vs as [|x vs]; [done|].
    simpl in Heq.
    destruct (renderChildren _ b W) as [b' W1|e W1] eqn:E1; [|done].
    injection Heq as <- <-. by exists W, b'.
  - intros v IH i restore vs W r W' Hvs Ht Heq. simpl in Ht, Heq.
    destruct (IH _ _ _ _ (λ H, Hvs (proj1 (app_eq_nil _ _ H))) Ht Heq)
      as (Wk & b' & Hk & Hc & ->).
    exists Wk, b'. split; [|done]. intros j. rewrite Hk.
    destruct restore; [by apply last_of_with_view|done].
  - intros target keys k IH i restore vs W r W' Hvs Ht Heq.
    simpl in Ht, Heq.
    destruct (IH _ _ _ _ _ _ Hvs Ht Heq) as (Wk & b' & Hk & Hc & ->).
    exists Wk, b'. split; [|done]. intros j. rewrite Hk.
    apply last_of_callSet.
  - intros target keys k IH i restore vs W r W' Hvs Ht Heq.
    simpl in Ht, Heq.
    destruct (IH _ _ _ _ _ _ Hvs Ht Heq) as (Wk & b' & Hk & Hc & ->).
    exists Wk, b'. split; [|done]. intros j. rewrite Hk.
    apply last_of_dispatch.
Qed.

Lemma rendered_root :
  (∀ v top,
     top = false ∨ chain side v ≠ [] →
     terminal side v = ANode (mkVNode r0 w0 b) →
     rendered side v top = chain side v ++ (b ≫= λ c, rendered side c true))
  ∧ (∀ bd,
       terminalBody side bd = ANode (mkVNode r0 w0 b) →
       renderedBody side bd
       = chainBody side bd ++ (b ≫= λ c, rendered side c true)).
Proof.
  apply Value_Body_ind.
  - done.
  - done.
  - intros i g IH top _ Ht. simpl in *. by rewrite IH.
  - intros r w b1 _ top [->|?] [= -> -> ->]; done.
  - intros v IH Ht. simpl in *. apply IH; [by left|done].
  - intros target keys k IH Ht. simpl in *. by apply IH.
  - intros target keys k IH Ht. simpl in *. by apply IH.
Qed.

End root.

(** C9: a pass without [saveVNode] over a view whose chain ends in a node
    (the pass of [toString] and of [forceInvalidate]) leaves [lastVNode]
    unchanged in the views of the root delegation chain, and yet overwrites
    it in every child view among the entries of that node, and in every
    view of the child's own chain, with the node rendered for that entry
    (the empty value when the child's chain ends in one): the recursive
    call always passes [saveVNode: true].  The views rendered by the pass
    are distinct instances. *)
Theorem children_saved (this : View) (W W' : World) (n : VNode)
    (r0 : nat) (w0 : option ViewId) (b : list Value) :
  NoDup (rendered side (AView this) true) →
  terminal side (AView this) = ANode (mkVNode r0 w0 b) →
  renderToVNode (AView this) false ignoreStateChange side W = Ok (Some n) W' →
  (∀ i, i ∈ chain side (AView this) →
        lastVNode (view_state W' i) = lastVNode (view_state W i))
  ∧ length (body n) = length b
  ∧ (∀ k child i,
       b !! k = Some (AView child) → i ∈ chain side (AView child) →
       lastVNode (view_state W' i) = node_of (body n !! k)).
Proof.
  intros Hnd Ht Heq.
  assert ([] ++ chain side (AView this) ≠ []) as Hne by (by destruct this).
  destruct (proj1 (render_root r0 w0 b) _ _ _ _ _ Hne Ht Heq)
    as (Wk & b' & Hk & Hc & [= ->]).
  rewrite (proj1 (rendered_root r0 w0 b) _ true (or_intror Hne) Ht) in Hnd.
  apply NoDup_app in Hnd as (_ & Hdisj & Hnd).
  split; [|split].
  - intros i Hi. rewrite <- Hk.
    eapply (renderChildren_others render_child b); [|exact Hc|by apply Hdisj].
    apply Forall_forall. intros x _ W3 r3 W4 j3 Heq3 Hj3.
    apply (proj1 render_others x [] true W3 r3 W4 j3 Heq3);
      [apply not_elem_of_nil|exact Hj3].
  - simpl. clear -Hc. revert Wk b' Hc.
    induction b as [|c l IH]; intros Wk b' Hc.
    + by injection Hc as <- <-.
    + destruct (is_child c) eqn:Hch;
        [|by rewrite renderChildren_not_child in Hc].
      rewrite renderChildren_cons in Hc by done.
      destruct (render_child c Wk) as [r W1|e W1]; [|done].
      destruct (renderChildren render_child l W1) as [b1 W2|e W2] eqn:E2;
        [|done].
      injection Hc as <- <-. simpl. f_equal. by apply (IH W1).
  - intros k child i Hk' Hi. simpl.
    by apply (renderChildren_saves b Wk b' W' Hc Hnd k (AView child) i).
Qed.

End saved_nodes.

Lemma children_saved_witness :
  ∃ n W',
    NoDup (rendered "client" (AView parent_view) true)
    ∧ renderToVNode (AView parent_view) false false "client" start
      = Ok (Some n) W'
    ∧ lastVNode (view_state W' 1) = lastVNode (view_state start 1)
    ∧ lastVNode (view_state W' 2) = node_of (body n !! 0)
    ∧ lastVNode (view_state W' 3) = node_of (body n !! 1)
    ∧ lastVNode (view_state W' 3) = Some (mkVNode 3 (Some 3) []).
Proof.
  eexists _, _.
  assert (NoDup (rendered "client" (AView parent_view) true)) as Hnd.
  { apply (bool_decide_unpack _). by vm_compute. }
  split; [exact Hnd|].
  split; [vm_compute; reflexivity|].
  pose proof (children_saved false "client" parent_view start _ _ 1 None _
                Hnd eq_refl eq_refl) as (H1 & _ & H2).
  split; [apply H1; apply elem_of_cons; by left|].
  split; [apply (H2 0 (container 2 2 [])); [done|apply elem_of_cons; by left]|].
  split; [apply (H2 1 (counter 3 3)); [done|apply elem_of_cons; by left]|].
  vm_compute. reflexivity.
Defined.

(** *** Mounting and unmounting *)

Section lifecycle.

Lemma materialize_views_doms :
  (∀ v, match v with
        | ANode n =>
            ∀ W, views (materialize n W) = views W
                 ∧ ∀ r, is_Some (doms W !! r) →
                        is_Some (doms (materialize n W) !! r)
        | _ => True
        end)
  ∧ (∀ b : Body, True).
Proof.
  apply Value_Body_ind; try done.
  intros r w b IH W. simpl.
  set (step := λ (W : World) (c : Value),
                 match c with ANode n' => materialize n' W | _ => W end).
  assert (∀ W, views (foldl step W b) = views W
               ∧ ∀ r, is_Some (doms W !! r) →
                      is_Some (doms (foldl step W b) !! r)) as Hfold.
  { clear W. induction IH as [|c b Hc _ IHb]; intros W; [done|]. simpl.
    destruct (IHb (step W c)) as [Hv Hd].
    assert (views (step W c) = views W
            ∧ ∀ r, is_Some (doms W !! r) → is_Some (doms (step W c) !! r))
      as [Hv1 Hd1].
    { destruct c; try done. apply Hc. }
    split; [congruence|]. intros r' Hr. by apply Hd, Hd1. }
  destruct (Hfold (mkWorld (views W) (<[r := next_dom W]> (doms W))
                           (appended W) (S (next_dom W)) (queue W) (hooks W)))
    as [Hv Hd].
  split; [done|]. intros r' Hr. apply Hd. simpl.
  destruct (decide (r = r')) as [->|Hne].
  - by rewrite lookup_insert_eq.
  - by rewrite lookup_insert_ne.
Qed.

Lemma materialize_binds n W : is_Some (doms (materialize n W) !! node_ref n).
Proof.
  destruct n as [r w b]. simpl.
  set (W0 := mkWorld _ _ _ _ _ _).
  set (step := λ (W : World) (c : Value),
                 match c with ANode n' => materialize n' W | _ => W end).
  assert (∀ l W, (∀ r, is_Some (doms W !! r) →
                       is_Some (doms (foldl step W l) !! r))) as Hfold.
  { induction l as [|c l IHl]; intros W1 r' Hr; [done|]. simpl.
    apply IHl. destruct c; try done.
    by apply (proj1 materialize_views_doms (ANode n)). }
  apply Hfold. unfold W0. simpl. by rewrite lookup_insert_eq.
Qed.

(** Once the unit of work of [mountTo] has run, the view is mounted. *)
Lemma mountWork_mounted this p W W' :
  mountWork this p W = Ok tt W' → mounted W' (view_id this) = true.
Proof.
  unfold mountWork.
  destruct (renderToVNode _ _ _ _ _) as [r W1|e W1]; [|done].
  destruct (lastVNode (view_state W1 (view_id this))) as [n|] eqn:En; [|done].
  intros [= <-]. unfold mounted.
  assert (view_state (handleMount (view_id this) (VNode_mountTo n p W1))
                     (view_id this) = view_state W1 (view_id this)) as ->.
  { unfold view_state. simpl.
    by rewrite (proj1 (proj1 materialize_views_doms (ANode n) W1)). }
  rewrite En. apply bool_decide_eq_true. simpl. apply materialize_binds.
Qed.

(** C7 as stated fails: a second [mountTo], made before the worker has run
    the unit of work of the first, does not fail; it enqueues a second
    mounting of the same view. *)
Lemma mount_twice_before_worker :
  ∃ W1 W2,
    mountTo (container 1 1 []) (Some 0) start = Ok tt W1
    ∧ mountTo (container 1 1 []) (Some 0) W1 = Ok tt W2
    ∧ queue W2 = [WMount (container 1 1 []) 0; WMount (container 1 1 []) 0].
Proof. by eexists _, _. Qed.

(** C7, amended: once the unit of work of a first [mountTo] has run, every
    further [mountTo] on the same view fails with an [Error] and changes
    nothing, any number of times; a [mountTo] whose target is not a [Node]
    fails with an [Error] and changes nothing; an [unmount] on a view that
    is not mounted fails with an [Error] and changes nothing.  A [mountTo]
    on a view that is not mounted yet, with a [Node] as target, only
    enqueues the mounting, also when an earlier one is still pending. *)
Theorem mount_guard (this : View) (W : World) :
  (∀ p W', mountWork this p W = Ok tt W' →
           ∀ target, mountTo this target W'
                     = Throw (Error "The view is already mounted") W')
  ∧ (∃ msg, mountTo this None W = Throw (Error msg) W)
  ∧ (mounted W (view_id this) = false →
     unmount this W = Throw (Error "The view is not mounted") W
     ∧ ∀ p, mountTo this (Some p) W = Ok tt (addUnitOfWork (WMount this p) W)).
Proof.
  split; [|split].
  - intros p W' Hw target. unfold mountTo.
    by rewrite (mountWork_mounted this p W W' Hw).
  - unfold mountTo. destruct (mounted W (view_id this)); by eexists.
  - intros Hm. unfold unmount, mountTo. by rewrite Hm.
Qed.

Lemma mount_guard_witness :
  mounted start 1 = false
  ∧ mountTo (container 1 1 []) (Some 0) start = Ok tt mount_pending
  ∧ mountWork (container 1 1 []) 0 mount_pending = Ok tt mount_done
  ∧ mountTo (container 1 1 []) (Some 0) mount_done
    = Throw (Error "The view is already mounted") mount_done
  ∧ (∃ msg, mountTo (container 1 1 []) None start = Throw (Error msg) start)
  ∧ unmount (container 1 1 []) start
    = Throw (Error "The view is not mounted") start.
Proof.
  split; [reflexivity|].
  split; [apply (mount_guard (container 1 1 []) start); reflexivity|].
  split; [vm_compute; reflexivity|].
  split; [|split].
  - apply (proj1 (mount_guard (container 1 1 []) mount_pending) 0).
    vm_compute. reflexivity.
  - apply (mount_guard (container 1 1 []) start).
  - apply (mount_guard (container 1 1 []) start). reflexivity.
Defined.

End lifecycle.

End ViewSpec.

(** * Properties of the builders *)

Module ViewPropertiesSpec.

Import ViewProperties.

Implicit Types (H : gmap Loc (gmap string string)).

Lemma copy_events_unchanged (l : list (string * list nat)) (t : ViewObj) :
  foldr (λ '(i, hs) t, t ≫= addHandlerFor i (AArray hs)) (Some t) l = Some t.
Proof. induction l as [|[i hs] l IH]; [done|]. simpl. by rewrite IH. Qed.

Lemma Object_assign_target target source H f H' :
  Object_assign target source H = Some (f, H') →
  f = target ∧ ∃ l, target = Obj l ∧ is_Some (H !! l)
    ∧ H' = match source with
           | Obj s => <[l := default ∅ (H !! s) ∪ default ∅ (H !! l)]> H
           | NotObj => H
           end.
Proof.
  unfold Object_assign. destruct target as [t|]; [|done].
  destruct (H !! t) as [to|] eqn:Et; simpl; [|done].
  destruct source as [s|].
  - destruct (H !! s) as [so|] eqn:Es; simpl; [|done].
    intros [= <- <-]. split; [done|]. exists t. rewrite Et. by eauto.
  - intros [= <- <-]. split; [done|]. exists t. rewrite Et. by eauto.
Qed.

(** C10: after [applyViewProperties(source)] the attributes of the receiving
    view are its style object: both fields hold one and the same object,
    whose entries are those of the old style object overwritten by the
    styles and then by the attributes of the source.  The entries of the
    old attribute object play no part in the result, and from then on an
    attribute set on the view shows among its styles and a style among its
    attributes. *)
Theorem applyViewProperties_aliases (this view this' : ViewObj) (ls : Loc)
    (H H' : gmap Loc (gmap string string)) :
  styles this = Obj ls →
  (∀ l, styles view = Obj l → l ≠ ls) →
  (∀ l, attributes view = Obj l → l ≠ ls) →
  applyViewProperties (Some view) this H = Some (this', H') →
  styles this' = Obj ls ∧ attributes this' = Obj ls
  ∧ entries H' (attributes this')
    = entries H (if_styles_object view (attributes view))
      ∪ (entries H (if_styles_object view (styles view))
         ∪ entries H (styles this))
  ∧ (∀ new H'', setAttributes new this' H' = Some H'' →
                entries H'' (styles this') = new ∪ entries H' (styles this'))
  ∧ (∀ properties H'', applyCSS properties this' H' = Some H'' →
                       entries H'' (attributes this')
                       = properties ∪ entries H' (attributes this')).
Proof.
  intros Hs Hvs Hva. unfold applyViewProperties.
  destruct (Object_assign (styles this) _ H) as [[s H1]|] eqn:E1;
    simpl; [|done].
  destruct (Object_assign s _ H1) as [[a H2]|] eqn:E2; simpl; [|done].
  rewrite copy_events_unchanged. simpl. intros [= <- <-].
  apply Object_assign_target in E1 as (-> & l1 & Hl1 & [to Hto] & HH1).
  rewrite Hs in Hl1. injection Hl1 as <-.
  apply Object_assign_target in E2 as (-> & l2 & Hl2 & [to2 Hto2] & HH2).
  rewrite Hs in Hl2. injection Hl2 as <-.
  assert (styles (if Reconciler.truthy (key view)
                  then setKey (key view)
                         (mkViewObj (styles this) (styles this) (events this)
                                    (key this))
                  else mkViewObj (styles this) (styles this) (events this)
                                 (key this)) = Obj ls
          ∧ attributes (if Reconciler.truthy (key view)
                        then setKey (key view)
                               (mkViewObj (styles this) (styles this)
                                          (events this) (key this))
                        else mkViewObj (styles this) (styles this)
                                       (events this) (key this)) = Obj ls)
    as [Hs' Ha'].
  { by destruct (Reconciler.truthy (key view)). }
  rewrite Hs', Ha'. split; [done|]. split; [done|].
  assert (entries H1 (Obj ls)
          = entries H (if_styles_object view (styles view))
            ∪ entries H (Obj ls)) as Hent1.
  { simpl. rewrite HH1. unfold if_styles_object.
    destruct (styles view) as [l|] eqn:El; simpl.
    - by rewrite lookup_insert_eq.
    - rewrite Hto. simpl. by rewrite (left_id_L ∅ (∪)). }
  assert (entries H1 (if_styles_object view (attributes view))
          = entries H (if_styles_object view (attributes view))) as Hent2.
  { rewrite HH1. unfold if_styles_object.
    destruct (styles view) as [l|] eqn:El; [|done].
    destruct (attributes view) as [la|] eqn:Ela; [|done]. simpl.
    rewrite lookup_insert_ne; [done|]. intros <-. by apply (Hva ls). }
  split; [|split].
  - rewrite Hs, <- Hent2, <- Hent1. simpl. rewrite HH2.
    destruct (if_styles_object view (attributes view)) as [la|]; simpl.
    + by rewrite lookup_insert_eq.
    + rewrite Hto2. simpl. by rewrite (left_id_L ∅ (∪)).
  - intros new H''. unfold setAttributes. rewrite Ha'.
    destruct (H2 !! ls) as [o|] eqn:Eo; simpl; [|done].
    intros [= <-]. by rewrite lookup_insert_eq, Eo.
  - intros properties H''. unfold applyCSS. rewrite Hs'.
    destruct (H2 !! ls) as [o|] eqn:Eo; simpl; [|done].
    intros [= <-]. by rewrite lookup_insert_eq, Eo.
Qed.

Lemma applyViewProperties_aliases_witness :
  ∃ this' H',
    applyViewProperties (Some source) receiver sample_heap = Some (this', H')
    ∧ styles this' = Obj 0 ∧ attributes this' = Obj 0
    ∧ entries H' (attributes this')
      = {["title" := "hint"]} ∪ ({["width" := "1px"]} ∪ {["color" := "red"]})
    ∧ entries H' (attributes this') !! "id" = None.
Proof.
  destruct (applyViewProperties (Some source) receiver sample_heap)
    as [[this' H']|] eqn:E; [|by vm_compute in E].
  exists this', H'. split; [done|].
  destruct (applyViewProperties_aliases receiver source this' 0 sample_heap H'
              eq_refl) as (Hs & Ha & He & _).
  - by intros l [= <-].
  - by intros l [= <-].
  - exact E.
  - split; [exact Hs|]. split; [exact Ha|]. rewrite He.
    split; vm_compute; reflexivity.
Defined.

End ViewPropertiesSpec.

(** * Further properties of the reconciler *)

Module ReconcilerInvariants.

Import Reconciler ReconcilerSpec.

Implicit Types (D : gmap DomId LiveNode).

(** *** Where a reconciliation writes *)

Lemma writes_within_nil l c : writes_within l c [].
Proof. intros call x Hc. by apply elem_of_nil in Hc. Qed.

Lemma writes_within_app l c t1 t2 :
  writes_within l c t1 → writes_within l c t2 → writes_within l c (t1 ++ t2).
Proof.
  intros H1 H2 call x [Hc|Hc]%elem_of_app; [by apply H1 | by apply H2].
Qed.

Lemma writes_within_weaken l l' c c' t :
  writes_within l c t → (∀ x, x ∈ l → x ∈ l') → c' ≤ c →
  writes_within l' c' t.
Proof.
  intros H Hl Hc call x Hin Hx. destruct (H call x Hin Hx); [left; auto|right; lia].
Qed.

Lemma writes_within_cons l c call t :
  (∀ x, x ∈ written call → x ∈ l ∨ c ≤ x) → writes_within l c t →
  writes_within l c (call :: t).
Proof.
  intros H1 H2 call' x [->|Hin]%elem_of_cons Hx; [by apply H1|by apply (H2 call')].
Qed.

Lemma mount_hook_writes l c n : writes_within l c (mount_hook n).
Proof.
  unfold mount_hook. destruct (view n); [|apply writes_within_nil].
  intros call x ->%list_elem_of_singleton Hx. by apply elem_of_nil in Hx.
Qed.

Lemma invalidation_hook_writes l c n : writes_within l c (invalidation_hook n).
Proof.
  unfold invalidation_hook. destruct (view n); [|apply writes_within_nil].
  intros call x ->%list_elem_of_singleton Hx. by apply elem_of_nil in Hx.
Qed.

Lemma placeNew_writes lastDom keys ns :
  ∀ prev c ns' c' t, placeNew lastDom keys prev ns c = Some (ns', c', t) →
                     c ≤ c' ∧ writes_within [] c t.
Proof.
  induction ns as [|n ns IH]; intros prev c ns' c' t Heq; simpl in Heq.
  - injection Heq as <- <- <-. split; [lia|apply writes_within_nil].
  - destruct (needs_node keys n).
    + destruct (toHTMLNode n c) as [n' c1] eqn:E1.
      destruct (toHTMLNode_ids _ _ _ _ E1) as [Hc1 Hi1].
      destruct (dom n') as [new|]; simpl in Heq; [|done].
      match type of Heq with
      | (?m ≫= _) = _ => destruct m as [place|] eqn:Ep; simpl in Heq; [|done]
      end.
      destruct (placeNew lastDom keys (Some n') ns c1)
        as [[[rest' c2] t2]|] eqn:E2; simpl in Heq; [|done].
      injection Heq as <- <- <-.
      destruct (IH _ _ _ _ _ E2) as [Hc2 Ht2]. split; [lia|].
      apply writes_within_cons; [intros x Hx; right; by apply Hi1|].
      apply writes_within_cons.
      { intros x Hx. destruct prev as [p|]; simpl in Ep.
        - destruct (dom p); simpl in Ep; [|done]. injection Ep as <-.
          by apply elem_of_nil in Hx.
        - destruct lastDom; simpl in Ep; [|done]. injection Ep as <-.
          by apply elem_of_nil in Hx. }
      apply writes_within_app; [apply mount_hook_writes|].
      eapply writes_within_weaken; [exact Ht2|done|lia].
    + destruct (placeNew lastDom keys (Some n) ns c)
        as [[[rest' c2] t2]|] eqn:E2; simpl in Heq; [|done].
      injection Heq as <- <- <-. by apply (IH _ _ _ _ _ E2).
Qed.

Lemma keyed_writes rec ls :
  Forall (writes_ok rec) ls →
  ∀ ns keys c ns' keys' c' t,
    keyed rec ls ns keys c = Some (ns', keys', c', t) →
    c ≤ c' ∧ writes_within (ls ≫= ids) c t.
Proof.
  induction 1 as [|l ls Hl _ IH]; intros ns keys c ns' keys' c' t Heq;
    simpl in Heq.
  - injection Heq as <- <- <- <-. split; [lia|apply writes_within_nil].
  - destruct (find_key (key l) ns 0) as [[j n]|].
    + destruct (rec l n c) as [[[n' c1] t1]|] eqn:E1; simpl in Heq; [|done].
      match type of Heq with
      | (?m ≫= _) = _ =>
          destruct m as [[[[ns2 keys2] c2] t2]|] eqn:E2; simpl in Heq; [|done]
      end.
      injection Heq as <- <- <- <-.
      destruct (Hl _ _ _ _ _ E1) as [Hc1 Ht1].
      destruct (IH _ _ _ _ _ _ _ E2) as [Hc2 Ht2].
      split; [lia|]. apply writes_within_app.
      * eapply writes_within_weaken; [exact Ht1| |lia].
        intros x Hx. rewrite bind_cons, elem_of_app. by left.
      * eapply writes_within_weaken; [exact Ht2| |lia].
        intros x Hx. rewrite bind_cons, elem_of_app. by right.
    + destruct (dom l) as [d|]; simpl in Heq; [|done].
      match type of Heq with
      | (?m ≫= _) = _ =>
          destruct m as [[[[ns2 keys2] c2] t2]|] eqn:E2; simpl in Heq; [|done]
      end.
      injection Heq as <- <- <- <-.
      destruct (IH _ _ _ _ _ _ _ E2) as [Hc2 Ht2].
      split; [lia|]. apply writes_within_cons.
      * intros x Hx. by apply elem_of_nil in Hx.
      * eapply writes_within_weaken; [exact Ht2| |lia].
        intros x Hx. rewrite bind_cons, elem_of_app. by right.
Qed.

Lemma positional_writes rec ls :
  Forall (writes_ok rec) ls →
  ∀ ns c ns' c' t,
    positional rec ls ns c = Some (ns', c', t) →
    c ≤ c' ∧ writes_within (ls ≫= ids) c t.
Proof.
  induction 1 as [|l ls Hl _ IH]; intros [|n ns] c ns' c' t Heq;
    simpl in Heq; try done.
  - injection Heq as <- <- <-. split; [lia|apply writes_within_nil].
  - injection Heq as <- <- <-. split; [lia|apply writes_within_nil].
  - destruct (rec l n c) as [[[n' c1] t1]|] eqn:E1; simpl in Heq; [|done].
    destruct (positional rec ls ns c1) as [[[ns2 c2] t2]|] eqn:E2;
      simpl in Heq; [|done].
    injection Heq as <- <- <-.
    destruct (Hl _ _ _ _ _ E1) as [Hc1 Ht1].
    destruct (IH _ _ _ _ _ E2) as [Hc2 Ht2].
    split; [lia|]. apply writes_within_app.
    + eapply writes_within_weaken; [exact Ht1| |lia].
      intros x Hx. rewrite bind_cons, elem_of_app. by left.
    + eapply writes_within_weaken; [exact Ht2| |lia].
      intros x Hx. rewrite bind_cons, elem_of_app. by right.
Qed.

(** The diff of a node writes on its own live node only. *)
Lemma diffNode_written l v d call x :
  call ∈ diffNode l v d → x ∈ written call → x = d.
Proof.
  intros Hin Hx.
  pose proof (proj1 (Forall_forall _ _) (diffNode_local l v d) call Hin) as Hl.
  destruct call; simpl in *; try done;
    try (by apply elem_of_nil in Hx);
    apply list_elem_of_singleton in Hx; congruence.
Qed.

(** The calls of the children of a pair diffed in place. *)
Lemma children_writes l v c b c1 t1 :
  Forall (writes_ok updateVNodeDOM) (body l) →
  (if bool_decide (length (body l) ≠ length (body v)) then
     '(ns, keysUpdated, c1, t1) ←
       keyed updateVNodeDOM (body l) (body v) [] c;
     '(ns', c2, t2) ← placeNew (dom l) keysUpdated None ns c1;
     Some (ns', c2, t1 ++ t2)
   else positional updateVNodeDOM (body l) (body v) c) = Some (b, c1, t1) →
  c ≤ c1 ∧ writes_within (body l ≫= ids) c t1.
Proof.
  intros IH E1. destruct (bool_decide (length (body l) ≠ length (body v))).
  - destruct (keyed updateVNodeDOM (body l) (body v) [] c)
      as [[[[ns keys] c2] t2]|] eqn:E2; simpl in E1; [|done].
    destruct (placeNew (dom l) keys None ns c2) as [[[ns3 c3] t3]|] eqn:E3;
      simpl in E1; [|done].
    injection E1 as <- <- <-.
    destruct (keyed_writes _ _ IH _ _ _ _ _ _ _ E2) as [Hc2 Ht2].
    destruct (placeNew_writes _ _ _ _ _ _ _ _ E3) as [Hc3 Ht3].
    split; [lia|]. apply writes_within_app; [done|].
    eapply writes_within_weaken; [exact Ht3| |lia].
    intros x Hx. by apply elem_of_nil in Hx.
  - by apply (positional_writes _ _ IH _ _ _ _ _ E1).
Qed.

Lemma updateVNodeDOM_writes l : writes_ok updateVNodeDOM l.
Proof.
  induction l as [tg ty k s a e b d w IH] using VNode_ind'.
  intros v c v' c' t. set (l := mkVNode tg ty k s a e b d w) in *.
  rewrite updateVNodeDOM_unfold. destruct (irreconcilable l v).
  - destruct (dom l) as [x|]; simpl; [|done].
    destruct (toHTMLNode v c) as [v1 c1] eqn:E1.
    destruct (toHTMLNode_ids _ _ _ _ E1) as [Hc1 Hi1].
    destruct (dom v1); simpl; [|done]. intros [= <- <- <-]. split; [done|].
    apply writes_within_cons; [intros y Hy; right; by apply Hi1|].
    apply writes_within_cons; [|apply writes_within_nil].
    intros y Hy. by apply elem_of_nil in Hy.
  - destruct (on_dom (dom l) (diffNode l v)) as [t0|] eqn:E0; simpl; [|done].
    intros Heq.
    match type of Heq with
    | (?m ≫= _) = _ =>
        destruct m as [[[b' c1] t1]|] eqn:E1; simpl in Heq; [|done]
    end.
    injection Heq as <- <- <-.
    destruct (children_writes l v c b' c1 t1 IH E1) as [Hc Ht1].
    split; [done|]. apply writes_within_app; [|apply writes_within_app].
    + apply on_dom_Some in E0 as [(x & Hx & ->)| ->];
        [|apply writes_within_nil].
      intros call y Hin Hy. left.
      apply (diffNode_written _ _ _ _ _ Hin) in Hy as ->.
      unfold l in Hx. simpl in Hx. subst d. simpl. apply elem_of_cons. by left.
    + eapply writes_within_weaken; [exact Ht1| |lia].
      intros x Hx. simpl. rewrite elem_of_app. by right.
    + apply invalidation_hook_writes.
Qed.

Lemma updateVNodeDOM_in_place_writes l v c v' c' t d :
  irreconcilable l v = false → dom l = Some d →
  updateVNodeDOM l v c = Some (v', c', t) →
  ∃ t1, t = diffNode l v d ++ t1 ∧ writes_within (body l ≫= ids) c t1.
Proof.
  intros Hi Hd. rewrite updateVNodeDOM_unfold, Hi, Hd. simpl. intros Heq.
  match type of Heq with
  | (?m ≫= _) = _ =>
      destruct m as [[[b' c1] t1]|] eqn:E1; simpl in Heq; [|done]
  end.
  injection Heq as <- <- <-. eexists. split; [done|].
  assert (Forall (writes_ok updateVNodeDOM) (body l)) as IH.
  { apply Forall_forall. intros x _. apply updateVNodeDOM_writes. }
  rewrite <- Hd in E1.
  apply writes_within_app; [|apply invalidation_hook_writes].
  by apply (children_writes l v c b' c1 t1 IH E1).
Qed.

Lemma content_at_insert D D' k n n' x :
  (∀ y, content_at D' y = content_at D y) →
  D !! k = Some n →
  ln_style n' = ln_style n → ln_attrs n' = ln_attrs n →
  ln_listeners n' = ln_listeners n →
  content_at (<[k := n']> D') x = content_at D x.
Proof.
  intros HD Hk Hs Ha Hl. unfold content_at in *.
  destruct (decide (k = x)) as [->|Hne].
  - rewrite lookup_insert_eq, Hk. simpl. by rewrite Hs, Ha, Hl.
  - rewrite lookup_insert_ne by done. apply HD.
Qed.

(** A call changes the content of no live node but those it writes. *)
Lemma exec_content D call D' x :
  exec D call = Some D' → x ∉ written call → content_at D' x = content_at D x.
Proof.
  intros Hex Hx.
  destruct call as [d' k s|d' k [h|]|d' k h|d' k|d' k s|v|d' new|d'|ref new
                    |p new|w|w]; simpl in Hex, Hx;
    try (apply not_elem_of_cons in Hx as [Hne _];
         destruct (D !! d') as [n|] eqn:En; simpl in Hex; [|done];
         injection Hex as <-; unfold content_at;
         by rewrite ?lookup_insert_ne).
  - unfold content_at. by rewrite (create_frame v None D D' x Hex Hx).
  - destruct (D !! d') as [n|] eqn:En; simpl in Hex; [|done].
    destruct (ln_parent n) as [p|]; [|by injection Hex as <-].
    destruct (D !! p) as [pn|] eqn:Ep; simpl in Hex; [|done].
    destruct (D !! new) as [m|] eqn:Em; simpl in Hex; [|done].
    injection Hex as <-.
    apply (content_at_insert D _ new m); [|done..]. intros y.
    apply (content_at_insert D _ d' n); [|done..]. intros z.
    by apply (content_at_insert D D p pn).
  - destruct (D !! d') as [n|] eqn:En; simpl in Hex; [|done].
    destruct (ln_parent n) as [p|]; simpl in Hex; [|done].
    destruct (D !! p) as [pn|] eqn:Ep; simpl in Hex; [|done].
    injection Hex as <-.
    apply (content_at_insert D _ d' n); [|done..]. intros z.
    by apply (content_at_insert D D p pn).
  - destruct (D !! ref) as [r|] eqn:En; simpl in Hex; [|done].
    destruct (ln_parent r) as [p|]; simpl in Hex; [|done].
    destruct (D !! p) as [pn|] eqn:Ep; simpl in Hex; [|done].
    destruct (D !! new) as [m|] eqn:Em; simpl in Hex; [|done].
    injection Hex as <-.
    apply (content_at_insert D _ new m); [|done..]. intros z.
    by apply (content_at_insert D D p pn).
  - destruct (D !! p) as [pn|] eqn:Ep; simpl in Hex; [|done].
    destruct (D !! new) as [m|] eqn:Em; simpl in Hex; [|done].
    injection Hex as <-.
    apply (content_at_insert D _ new m); [|done..]. intros z.
    by apply (content_at_insert D D p pn).
  - by injection Hex as <-.
  - by injection Hex as <-.
Qed.

Lemma exec_all_content calls x :
  ∀ D D', exec_all D calls = Some D' →
          (∀ call, call ∈ calls → x ∉ written call) →
          content_at D' x = content_at D x.
Proof.
  induction calls as [|call calls IH]; intros D D' Hex Hx; simpl in Hex.
  - by injection Hex as <-.
  - destruct (exec D call) as [D1|] eqn:E1; simpl in Hex; [|done].
    rewrite (IH D1 D' Hex), (exec_content D call D1 x E1); [done| |].
    + apply Hx. apply elem_of_cons. by left.
    + intros call' Hin. apply Hx. apply elem_of_cons. by right.
Qed.

(** X1: a reconciliation writes nowhere else. A live node that is not bound
    in the previous tree and that was there before the pass (its identity is
    below the next unused one) has after the calls of the reconciler the
    inline style, the attributes and the listeners that it had before them. *)
Theorem reconcile_frame (l v v' : VNode) (c c' : nat) (t : list Call)
    (D D' : gmap DomId LiveNode) (x : DomId) :
  updateVNodeDOM l v c = Some (v', c', t) → exec_all D t = Some D' →
  x ∉ ids l → x < c → content_at D' x = content_at D x.
Proof.
  intros Hu Hex Hx Hc. apply (exec_all_content t x D D' Hex).
  intros call Hin Hw.
  destruct (proj2 (updateVNodeDOM_writes l v c v' c' t Hu) call x Hin Hw);
    [done|lia].
Qed.

Lemma reconcile_frame_witness :
  ∃ v' c' t D',
    updateVNodeDOM restyled_previous restyled_next 2 = Some (v', c', t)
    ∧ exec_all beside_live t = Some D'
    ∧ content_at D' 1 = content_at beside_live 1.
Proof.
  eexists _, _, _, _.
  split; [vm_compute; reflexivity|]. split; [vm_compute; reflexivity|].
  eapply (reconcile_frame restyled_previous restyled_next _ 2 _ _ beside_live
            _ 1).
  - vm_compute. reflexivity.
  - vm_compute. reflexivity.
  - simpl. by intros ?%list_elem_of_singleton.
  - lia.
Defined.


Lemma registered_content D D' d i h :
  content_at D' d = content_at D d → registered D d i h → registered D' d i h.
Proof.
  unfold content_at, registered. intros Hc (n & Hn & Hin). rewrite Hn in Hc.
  destruct (D' !! d) as [n'|]; simpl in Hc; [|done].
  injection Hc as _ _ Hl. exists n'. by rewrite Hl.
Qed.








(** *** Listeners *)

Lemma registered_insert D d n n' i h :
  D !! d = Some n → (i, h) ∈ ln_listeners n →
  ((i, h) ∈ ln_listeners n → (i, h) ∈ ln_listeners n') →
  registered (<[d := n']> D) d i h.
Proof. intros Hn Hin Hk. exists n'. rewrite lookup_insert_eq. auto. Qed.

(** A listener stays registered through every call but its own removal. *)
Lemma exec_registered D call D' d i h :
  exec D call = Some D' →
  (∀ v, call = ToHTMLNode v → d ∉ ids v) →
  call ≠ RemoveEventListener d i (Some h) →
  registered D d i h → registered D' d i h.
Proof.
  intros Hex Hfresh Hcall Hreg.
  destruct (decide (d ∈ written call)) as [Hw|Hw];
    [|by apply (registered_content D D' d i h (exec_content D call D' d Hex Hw))].
  destruct Hreg as (n & Hn & Hin).
  destruct call as [d' k s|d' k [h'|]|d' k h'|d' k|d' k s|v|d' new|d'|ref new
                    |p new|w|w]; simpl in Hw;
    try (by apply elem_of_nil in Hw);
    try (apply list_elem_of_singleton in Hw as <-; simpl in Hex;
         rewrite Hn in Hex; simpl in Hex; injection Hex as <-).
  - by apply (registered_insert D d n).
  - apply (registered_insert D d n); [done..|]. intros _. simpl.
    apply list_elem_of_filter. split; [|done]. intros [= -> ->]. by apply Hcall.
  - by exists n.
  - apply (registered_insert D d n); [done..|]. intros _. simpl.
    unfold add_listener. case_bool_decide; [done|].
    apply elem_of_app. by left.
  - by apply (registered_insert D d n).
  - by apply (registered_insert D d n).
  - by destruct (Hfresh v eq_refl).
Qed.

Lemma exec_all_registered calls d i h :
  ∀ D D', exec_all D calls = Some D' →
          (∀ w, ToHTMLNode w ∈ calls → d ∉ ids w) →
          RemoveEventListener d i (Some h) ∉ calls →
          registered D d i h → registered D' d i h.
Proof.
  induction calls as [|call calls IH]; intros D D' Hex Hfresh Hrem Hreg;
    simpl in Hex.
  - by injection Hex as <-.
  - destruct (exec D call) as [D1|] eqn:E1; simpl in Hex; [|done].
    apply (IH D1 D' Hex).
    + intros w Hw. apply Hfresh. apply elem_of_cons. by right.
    + intros Hin. apply Hrem. apply elem_of_cons. by right.
    + apply (exec_registered D call D1 d i h E1); [| |done].
      * intros w ->. apply Hfresh. apply elem_of_cons. by left.
      * intros ->. apply Hrem. apply elem_of_cons. by left.
Qed.

Lemma exec_add_registered D d i h D' :
  exec D (AddEventListener d i h) = Some D' → registered D' d i h.
Proof.
  simpl. destruct (D !! d) as [n|]; simpl; [|done]. intros [= <-].
  eexists. rewrite lookup_insert_eq. split; [done|]. simpl.
  unfold add_listener. case_bool_decide; [done|].
  apply elem_of_app. right. by apply list_elem_of_singleton.
Qed.

Lemma elem_of_detachEvents le ve d d' i x :
  RemoveEventListener d' i x ∈ detachEvents le ve d
  ↔ d' = d ∧ ∃ hs ws j, le !! i = Some hs ∧ ve !! i = Some ws
                        ∧ j < length ws ∧ x = hs !! j.
Proof.
  unfold detachEvents. rewrite list_elem_of_bind. split.
  - intros ([k hs] & Hin & Hk%elem_of_map_to_list). simpl in Hin.
    destruct (ve !! k) as [ws|] eqn:E; [|by apply elem_of_nil in Hin].
    apply list_elem_of_fmap in Hin as (j & [= -> -> ->] & Hj).
    apply elem_of_seq in Hj. split; [done|]. exists hs, ws, j.
    split_and!; [done|done|lia|done].
  - intros (-> & hs & ws & j & Hl & Hv & Hj & ->). exists (i, hs).
    split; [|by apply elem_of_map_to_list]. simpl. rewrite Hv.
    apply list_elem_of_fmap. exists j. split; [done|].
    apply elem_of_seq. lia.
Qed.

(** The removals of the diff of a node come from the first event loop, and
    nothing after the second event loop removes a listener. *)
Lemma diffNode_events l v d :
  ∃ before after,
    diffNode l v d
    = before ++ detachEvents (events l) (events v) d
      ++ attachEvents (events v) d ++ after
    ∧ (∀ d' i x, RemoveEventListener d' i x ∉ before)
    ∧ (∀ d' i x, RemoveEventListener d' i x ∉ attachEvents (events v) d ++ after).
Proof.
  exists (clearStyles (styles l) (styles v) d
          ++ writeStyles (styles l) (styles v) d),
         (removeAttributes (attributes l) (attributes v) d
          ++ setAttributes (attributes l) (attributes v) d).
  split; [unfold diffNode; by rewrite <- !app_assoc|]. split.
  - intros d' i x [H|H]%elem_of_app;
      apply list_elem_of_bind in H as ([k y] & H & _); simpl in H;
      repeat case_match; try (by apply elem_of_nil in H);
      by apply list_elem_of_singleton in H.
  - intros d' i x. rewrite !elem_of_app. intros [H|[H|H]];
      apply list_elem_of_bind in H as ([k y] & H & _); simpl in H.
    + apply list_elem_of_bind in H as (h & H & _).
      case_match; [|by apply elem_of_nil in H].
      by apply list_elem_of_singleton in H.
    + case_match; [by apply elem_of_nil in H|].
      by apply list_elem_of_singleton in H.
    + repeat case_match; try (by apply elem_of_nil in H);
        by apply list_elem_of_singleton in H.
Qed.

(** A pair of nodes diffed in place, with a live node that was there before
    the pass and is bound to no node below the previous one, and the calls
    of the pass carried out on the live tree. *)
Section listeners.

Variables (l v v' : VNode) (c c' : nat) (calls : list Call)
  (D D' : gmap DomId LiveNode) (d : DomId).

Hypothesis Hi : irreconcilable l v = false.
Hypothesis Hd : dom l = Some d.
Hypothesis Hlt : d < c.
Hypothesis Hfresh : d ∉ body l ≫= ids.
Hypothesis Hupd : updateVNodeDOM l v c = Some (v', c', calls).
Hypothesis Hex : exec_all D calls = Some D'.

Lemma in_place_calls :
  ∃ before after,
    calls = before ++ detachEvents (events l) (events v) d
            ++ attachEvents (events v) d ++ after
    ∧ (∀ i x, RemoveEventListener d i x ∉ before)
    ∧ (∀ i x, RemoveEventListener d i x ∉ attachEvents (events v) d ++ after)
    ∧ (∀ w, ToHTMLNode w ∈ calls → d ∉ ids w).
Proof.
  destruct (updateVNodeDOM_in_place_writes l v c v' c' calls d Hi Hd Hupd)
    as (t1 & Hcalls & Ht1).
  assert (∀ call, call ∈ t1 → d ∉ written call) as Hout.
  { intros call Hin Hx. destruct (Ht1 call d Hin Hx); [done|lia]. }
  destruct (diffNode_events l v d) as (before & after & Hdiff & Hb & Ha).
  exists before, (after ++ t1). split; [|split; [|split]].
  - rewrite Hcalls, Hdiff. by rewrite <- !app_assoc.
  - intros i x. apply Hb.
  - intros i x. rewrite app_assoc. intros [H|H]%elem_of_app; [by apply Ha in H|].
    apply (Hout _ H). simpl. by apply list_elem_of_singleton.
  - intros w. rewrite Hcalls. intros [Hin|Hin]%elem_of_app;
      [by apply diffNode_not_ToHTMLNode in Hin|]. apply (Hout _ Hin).
Qed.

(** X3: after a pair of nodes has been diffed in place, every function that
    the next node lists as a handler of an event is registered for that
    event on the live node, whatever was registered before and whatever the
    calls made for the children. *)
Theorem handlers_attached (i : string) (ws : list Handler) (h : Handler) :
  events v !! i = Some ws → h ∈ ws → is_function h = true →
  registered D' d i h.
Proof.
  intros Hv Hh Hf.
  destruct in_place_calls as (before & after & Hcalls & _ & Ha & Hnew).
  pose proof (attachEvents_function (events v) d i ws h Hv Hh Hf) as Hin.
  apply list_elem_of_split in Hin as (a1 & a2 & Hsplit).
  assert (calls = (before ++ detachEvents (events l) (events v) d ++ a1)
                  ++ [AddEventListener d i h] ++ (a2 ++ after)) as Hc.
  { rewrite Hcalls, Hsplit. by rewrite <- !app_assoc. }
  pose proof Hex as Hex'. rewrite Hc, exec_all_app in Hex'.
  destruct (exec_all D (before ++ detachEvents (events l) (events v) d ++ a1))
    as [D1|]; [|done].
  change (exec D1 (AddEventListener d i h)
            ≫= (λ D2, exec_all D2 (a2 ++ after)) = Some D') in Hex'.
  destruct (exec D1 (AddEventListener d i h)) as [D2|] eqn:E2; [|done].
  apply (exec_all_registered (a2 ++ after) d i h D2 D' Hex').
  - intros w Hw. apply Hnew. rewrite Hc.
    apply elem_of_app. right. apply elem_of_app. by right.
  - intros Hr. apply (Ha i (Some h)). rewrite Hsplit, <- app_assoc.
    apply elem_of_app. right. by apply elem_of_cons; right.
  - by apply (exec_add_registered D1).
Qed.

(** X4: a listener registered on the live node is still registered after a
    pair of nodes has been diffed in place, unless the previous node lists
    it for its event at an index below the number of handlers that the next
    node lists for that event. So every listener of an event that the next
    node no longer lists stays, and so does every handler the previous node
    lists past the length of the next list. *)
Theorem unlisted_listener_survives (i : string) (h : Handler) :
  (∀ hs ws j, events l !! i = Some hs → events v !! i = Some ws →
              hs !! j = Some h → length ws ≤ j) →
  registered D d i h → registered D' d i h.
Proof.
  intros Hidx.
  destruct in_place_calls as (before & after & Hcalls & Hb & Ha & Hnew).
  apply (exec_all_registered calls d i h D D' Hex Hnew).
  rewrite Hcalls, app_assoc. intros [[H|H]%elem_of_app|H]%elem_of_app.
  - by apply Hb in H.
  - apply elem_of_detachEvents in H as (_ & hs & ws & j & Hl & Hv & Hj & Hx).
    specialize (Hidx hs ws j Hl Hv (eq_sym Hx)). lia.
  - by apply Ha in H.
Qed.

End listeners.

Lemma handlers_attached_witness :
  ∃ v' c' calls D',
    updateVNodeDOM listening_previous listening_next 1 = Some (v', c', calls)
    ∧ exec_all listening_live calls = Some D'
    ∧ registered D' 0 "click" (HFunction 8).
Proof.
  eexists _, _, _, _.
  split; [vm_compute; reflexivity|]. split; [vm_compute; reflexivity|].
  eapply (handlers_attached listening_previous listening_next _ 1 _ _
            listening_live _ 0 eq_refl eq_refl).
  - lia.
  - simpl. apply not_elem_of_nil.
  - vm_compute. reflexivity.
  - vm_compute. reflexivity.
  - reflexivity.
  - apply elem_of_cons. by left.
  - reflexivity.
Defined.

Lemma unlisted_listener_survives_witness :
  ∃ v' c' calls D',
    updateVNodeDOM listening_previous listening_next 1 = Some (v', c', calls)
    ∧ exec_all listening_live calls = Some D'
    ∧ registered listening_live 0 "click" (HFunction 9)
    ∧ registered D' 0 "click" (HFunction 9).
Proof.
  eexists _, _, _, _.
  split; [vm_compute; reflexivity|]. split; [vm_compute; reflexivity|].
  assert (registered listening_live 0 "click" (HFunction 9)) as Hreg.
  { eexists. split; [reflexivity|]. simpl.
    apply elem_of_cons. right. apply elem_of_cons. by left. }
  split; [exact Hreg|].
  eapply (unlisted_listener_survives listening_previous listening_next _ 1 _ _
            listening_live _ 0 eq_refl eq_refl).
  - lia.
  - simpl. apply not_elem_of_nil.
  - vm_compute. reflexivity.
  - vm_compute. reflexivity.
  - intros hs ws j H1 H2 Hj. vm_compute in H1, H2.
    injection H1 as <-. injection H2 as <-.
    destruct j as [|[|j]]; simpl in Hj |- *; [done|lia|done].
  - exact Hreg.
Defined.

(** *** The next tree after a reconciliation *)

Lemma unbound_unfold v :
  unbound v = mkVNode (tag v) (type v) (key v) (styles v) (attributes v)
                      (events v) (unbound <$> body v) None (view v).
Proof. by destruct v. Qed.

Lemma bound_unfold v :
  bound v = bool_decide (is_Some (dom v)) && forallb bound (body v).
Proof. by destruct v. Qed.

Lemma toHTMLNode_unfold v c :
  toHTMLNode v c =
  let '(b, c') := toHTMLNodes toHTMLNode (body v) (S c) in
  (bound_to v b (Some c), c').
Proof. by destruct v. Qed.

Lemma keys_ok_unfold v :
  keys_ok v = bool_decide (NoDup (filter (λ k, truthy k = true) (key <$> body v)))
              && forallb keys_ok (body v).
Proof. by destruct v. Qed.

Lemma unbound_body v b d :
  unbound <$> b = unbound <$> body v → unbound (bound_to v b d) = unbound v.
Proof. intros H. rewrite !unbound_unfold. simpl. by rewrite H. Qed.

Lemma unbound_key v v' : unbound v' = unbound v → key v' = key v.
Proof. rewrite !unbound_unfold. by intros [= _ _ ? _]. Qed.

Lemma toHTMLNodes_unbound rec l :
  Forall (λ x, ∀ c, unbound (rec x c).1 = unbound x ∧ bound (rec x c).1 = true) l →
  ∀ c, unbound <$> (toHTMLNodes rec l c).1 = unbound <$> l
       ∧ forallb bound (toHTMLNodes rec l c).1 = true.
Proof.
  induction 1 as [|x l Hx _ IH]; intros c; simpl; [done|].
  destruct (Hx c) as [H1 H2]. destruct (rec x c) as [x' c1]. simpl in *.
  destruct (IH c1) as [H3 H4]. destruct (toHTMLNodes rec l c1) as [r' c2].
  simpl in *. split; [by f_equal|]. by rewrite H2, H4.
Qed.

Lemma toHTMLNode_unbound_bound v :
  ∀ c, unbound (toHTMLNode v c).1 = unbound v ∧ bound (toHTMLNode v c).1 = true.
Proof.
  induction v as [tg ty k s a e b d w IH] using VNode_ind'. intros c.
  rewrite toHTMLNode_unfold. cbn [body].
  destruct (toHTMLNodes_unbound toHTMLNode b IH (S c)) as [H1 H2].
  destruct (toHTMLNodes toHTMLNode b (S c)) as [b' c']. simpl in *.
  split; [by f_equal|]. by rewrite H2.
Qed.

Lemma find_key_spec k ns :
  ∀ j0 j n, find_key k ns j0 = Some (j, n) →
            j0 ≤ j ∧ ns !! (j - j0) = Some n ∧ key n = k ∧ truthy k = true.
Proof.
  induction ns as [|x ns IH]; intros j0 j n Heq; simpl in Heq; [done|].
  destruct (truthy (key x) && truthy k && bool_decide (k = key x)) eqn:E.
  - injection Heq as <- <-.
    apply andb_true_iff in E as [[_ Hk]%andb_true_iff Heq%bool_decide_eq_true].
    replace (j0 - j0) with 0 by lia. done.
  - destruct (IH _ _ _ Heq) as (Hle & Hn & Hk & Ht).
    split; [lia|]. replace (j - j0) with (S (j - S j0)) by lia. done.
Qed.

Lemma find_key_None k ns j0 :
  find_key k ns j0 = None
  ↔ truthy k = false ∨ ∀ n, n ∈ ns → key n ≠ k.
Proof.
  revert j0. induction ns as [|x ns IH]; intros j0; simpl.
  - split; [|done]. intros _. right. intros n Hn. by apply elem_of_nil in Hn.
  - destruct (truthy (key x) && truthy k && bool_decide (k = key x)) eqn:E.
    + apply andb_true_iff in E as [[_ Hk]%andb_true_iff Heq%bool_decide_eq_true].
      split; [done|]. intros [Hf|Hn]; [congruence|].
      exfalso. apply (Hn x); [apply elem_of_cons; by left|done].
    + rewrite IH. split.
      * intros [?|Hn]; [by left|].
        destruct (truthy k) eqn:Hk; [right|by left].
        intros n [->|Hin]%elem_of_cons; [|by apply Hn].
        intros Heq. subst k. rewrite Hk in E. simpl in E.
        by rewrite bool_decide_eq_true_2 in E.
      * intros [?|Hn]; [by left|right].
        intros n Hin. apply Hn. apply elem_of_cons. by right.
Qed.

Lemma find_key_keys k ns1 ns2 j0 :
  key <$> ns1 = key <$> ns2 →
  (find_key k ns1 j0 = None ↔ find_key k ns2 j0 = None).
Proof.
  intros Hk. rewrite !find_key_None.
  assert (∀ a b : list VNode, key <$> a = key <$> b →
            (∀ n, n ∈ a → key n ≠ k) → ∀ n, n ∈ b → key n ≠ k) as H.
  { intros a b Hab Ha n Hn Heq.
    assert (k ∈ key <$> b) as Hin by (apply list_elem_of_fmap; eauto).
    rewrite <- Hab in Hin. apply list_elem_of_fmap in Hin as (m & -> & Hm).
    by apply (Ha m). }
  split; (intros [?|Hn]; [by left|right]); eapply H; eauto.
Qed.

Lemma insert_same_fmap {A B} (f : A → B) (l : list A) j x y :
  l !! j = Some x → f y = f x → f <$> <[j := y]> l = f <$> l.
Proof.
  intros Hl Hf. rewrite list_fmap_insert, Hf.
  apply list_insert_id. by rewrite list_lookup_fmap, Hl.
Qed.

Lemma keyed_unbound rec ls :
  Forall (keeps_unbound rec) ls →
  ∀ ns keys c ns' keys' c' t,
    keyed rec ls ns keys c = Some (ns', keys', c', t) →
    unbound <$> ns' = unbound <$> ns.
Proof.
  induction 1 as [|l ls Hl _ IH]; intros ns keys c ns' keys' c' t Heq;
    simpl in Heq.
  - by injection Heq as <- <- <- <-.
  - destruct (find_key (key l) ns 0) as [[j n]|] eqn:Ef.
    + destruct (rec l n c) as [[[n' c1] t1]|] eqn:E1; simpl in Heq; [|done].
      match type of Heq with
      | (?m ≫= _) = _ =>
          destruct m as [[[[ns2 keys2] c2] t2]|] eqn:E2; simpl in Heq; [|done]
      end.
      injection Heq as <- <- <- <-.
      rewrite (IH _ _ _ _ _ _ _ E2).
      apply find_key_spec in Ef as (_ & Hn & _). rewrite Nat.sub_0_r in Hn.
      apply (insert_same_fmap unbound ns j n n' Hn). by apply (Hl _ _ _ _ _ E1).
    + destruct (dom l) as [d|]; simpl in Heq; [|done].
      match type of Heq with
      | (?m ≫= _) = _ =>
          destruct m as [[[[ns2 keys2] c2] t2]|] eqn:E2; simpl in Heq; [|done]
      end.
      injection Heq as <- <- <- <-. by apply (IH _ _ _ _ _ _ _ E2).
Qed.

Lemma placeNew_unbound lastDom keys ns :
  ∀ prev c ns' c' t, placeNew lastDom keys prev ns c = Some (ns', c', t) →
                     unbound <$> ns' = unbound <$> ns.
Proof.
  induction ns as [|n ns IH]; intros prev c ns' c' t Heq; simpl in Heq.
  - by injection Heq as <- <- <-.
  - destruct (needs_node keys n).
    + pose proof (proj1 (toHTMLNode_unbound_bound n c)) as Hu.
      destruct (toHTMLNode n c) as [n' c1] eqn:E1.
      destruct (dom n') as [new|]; simpl in Heq; [|done].
      match type of Heq with
      | (?m ≫= _) = _ => destruct m as [place|] eqn:Ep; simpl in Heq; [|done]
      end.
      destruct (placeNew lastDom keys (Some n') ns c1)
        as [[[rest' c2] t2]|] eqn:E2; simpl in Heq; [|done].
      injection Heq as <- <- <-. simpl in Hu.
      rewrite !fmap_cons. f_equal; [done|]. by apply (IH _ _ _ _ _ E2).
    + destruct (placeNew lastDom keys (Some n) ns c)
        as [[[rest' c2] t2]|] eqn:E2; simpl in Heq; [|done].
      injection Heq as <- <- <-. rewrite !fmap_cons. f_equal.
      by apply (IH _ _ _ _ _ E2).
Qed.

Lemma positional_unbound rec ls :
  Forall (keeps_unbound rec) ls →
  ∀ ns c ns' c' t,
    positional rec ls ns c = Some (ns', c', t) →
    unbound <$> ns' = unbound <$> ns.
Proof.
  induction 1 as [|l ls Hl _ IH]; intros [|n ns] c ns' c' t Heq;
    simpl in Heq; try done.
  - by injection Heq as <- <- <-.
  - by injection Heq as <- <- <-.
  - destruct (rec l n c) as [[[n' c1] t1]|] eqn:E1; simpl in Heq; [|done].
    destruct (positional rec ls ns c1) as [[[ns2 c2] t2]|] eqn:E2;
      simpl in Heq; [|done].
    injection Heq as <- <- <-. rewrite !fmap_cons. f_equal.
    + by apply (Hl _ _ _ _ _ E1).
    + by apply (IH _ _ _ _ _ E2).
Qed.

Lemma updateVNodeDOM_unbound l : keeps_unbound updateVNodeDOM l.
Proof.
  induction l as [tg ty k s a e b d w IH] using VNode_ind'.
  intros v c v' c' t. set (l := mkVNode tg ty k s a e b d w) in *.
  rewrite updateVNodeDOM_unfold. destruct (irreconcilable l v).
  - destruct (dom l) as [x|]; simpl; [|done].
    pose proof (proj1 (toHTMLNode_unbound_bound v c)) as Hu.
    destruct (toHTMLNode v c) as [v1 c1].
    destruct (dom v1); simpl; [|done]. by intros [= <- <- <-].
  - destruct (on_dom (dom l) (diffNode l v)) as [t0|] eqn:E0; simpl; [|done].
    intros Heq.
    match type of Heq with
    | (?m ≫= _) = _ =>
        destruct m as [[[b' c1] t1]|] eqn:E1; simpl in Heq; [|done]
    end.
    injection Heq as <- <- <-. apply unbound_body.
    destruct (bool_decide (length b ≠ length (body v))).
    + destruct (keyed updateVNodeDOM b (body v) [] c)
        as [[[[ns keys] c2] t2]|] eqn:E2; simpl in E1; [|done].
      destruct (placeNew d keys None ns c2) as [[[ns3 c3] t3]|] eqn:E3;
        simpl in E1; [|done].
      injection E1 as <- <- <-.
      by rewrite (placeNew_unbound _ _ _ _ _ _ _ _ E3),
        (keyed_unbound _ _ IH _ _ _ _ _ _ _ E2).
    + by apply (positional_unbound _ _ IH _ _ _ _ _ E1).
Qed.

(** X5: the tree that a reconciliation leaves is the next tree with live
    nodes bound to its nodes: tags, kinds, keys, styles, attributes, events,
    views and the children and their order are those of the next tree. *)
Theorem reconcile_unbound (l v v' : VNode) (c c' : nat) (t : list Call) :
  updateVNodeDOM l v c = Some (v', c', t) → unbound v' = unbound v.
Proof. apply updateVNodeDOM_unbound. Qed.

Lemma reconcile_unbound_witness :
  ∃ v' c' t,
    updateVNodeDOM reorder_previous reorder_next 3 = Some (v', c', t)
    ∧ unbound v' = unbound reorder_next.
Proof.
  eexists _, _, _. split; [vm_compute; reflexivity|].
  eapply (reconcile_unbound reorder_previous reorder_next _ 3).
  vm_compute. reflexivity.
Defined.

Lemma keys_ok_unbound v : keys_ok (unbound v) = keys_ok v.
Proof.
  induction v as [tg ty k s a e b d w IH] using VNode_ind'.
  rewrite unbound_unfold, !keys_ok_unfold. cbn [body].
  assert (key <$> (unbound <$> b) = key <$> b) as ->.
  { rewrite <- list_fmap_compose. apply list_fmap_ext.
    intros i x _. by destruct x. }
  f_equal. induction IH as [|x b Hx _ IHb]; [done|].
  rewrite fmap_cons. simpl. by rewrite Hx, IHb.
Qed.

Lemma keys_ok_same v v' : unbound v' = unbound v → keys_ok v' = keys_ok v.
Proof. intros H. by rewrite <- (keys_ok_unbound v'), H, keys_ok_unbound. Qed.

Lemma keys_ok_body v :
  keys_ok v = true →
  NoDup (filter (λ k, truthy k = true) (key <$> body v))
  ∧ forallb keys_ok (body v) = true.
Proof.
  rewrite keys_ok_unfold. intros [H1 H2]%andb_true_iff.
  by apply bool_decide_eq_true in H1.
Qed.

Lemma needs_node_false keys n :
  needs_node keys n = false ↔ truthy (key n) = true ∧ key n ∈ keys.
Proof.
  unfold needs_node. destruct (truthy (key n)); simpl.
  - rewrite negb_false_iff, bool_decide_eq_true. tauto.
  - split; [done|]. by intros [? _].
Qed.

(** Among siblings with distinct truthy keys, a truthy key has one place. *)
Lemma NoDup_filter_lookup {A} (P : A → Prop) `{∀ x, Decision (P x)}
    (l : list A) i j x :
  NoDup (filter P l) → l !! i = Some x → l !! j = Some x → P x → i = j.
Proof.
  revert i j. induction l as [|y l IH]; intros i j Hnd Hi Hj HP; [done|].
  rewrite filter_cons in Hnd. destruct (decide (P y)) as [Hy|Hy].
  - apply NoDup_cons in Hnd as [Hnin Hnd].
    assert (∀ k, l !! k = Some x → y ≠ x) as Hne.
    { intros k Hk ->. apply Hnin. apply list_elem_of_filter. split; [done|].
      by apply list_elem_of_lookup_2 in Hk. }
    destruct i as [|i], j as [|j]; simpl in *; try done.
    + injection Hi as ->. by destruct (Hne j).
    + injection Hj as ->. by destruct (Hne i).
    + f_equal. by apply IH.
  - destruct i as [|i], j as [|j]; simpl in *; try congruence.
    f_equal. by apply IH.
Qed.

Lemma forallb_Forall_true {A} (f : A → bool) (l : list A) :
  forallb f l = true ↔ Forall (λ x, f x = true) l.
Proof.
  induction l as [|x l IH]; simpl; [by split|].
  rewrite andb_true_iff, Forall_cons, IH. tauto.
Qed.

Lemma matched_bound_insert ns keys j n n' :
  matched_bound ns keys → ns !! j = Some n → truthy (key n) = true →
  unbound n' = unbound n → bound n' = true →
  matched_bound (<[j := n']> ns) (keys ++ [key n]).
Proof.
  intros (Hk & Hnd & Hb) Hj Ht Hu Hbn. split; [|split].
  - apply Forall_insert; [done|]. rewrite (keys_ok_same n n' Hu).
    by apply (proj1 (Forall_lookup _ _) Hk j n).
  - rewrite (insert_same_fmap key ns j n n' Hj); [done|by apply unbound_key].
  - intros m Hm Hneed. apply list_elem_of_lookup in Hm as [i Hi].
    destruct (decide (i = j)) as [->|Hne].
    + rewrite list_lookup_insert_eq in Hi by (by apply lookup_lt_Some in Hj).
      by injection Hi as <-.
    + rewrite list_lookup_insert_ne in Hi by done.
      apply needs_node_false in Hneed as [Htm Hin].
      apply elem_of_app in Hin as [Hin|Hin%list_elem_of_singleton].
      * apply Hb; [by apply list_elem_of_lookup_2 in Hi|].
        by apply needs_node_false.
      * exfalso. apply Hne.
        apply (NoDup_filter_lookup (λ k, truthy k = true) (key <$> ns) i j
                 (key n) Hnd); [| |done].
        -- by rewrite list_lookup_fmap, Hi, <- Hin.
        -- by rewrite list_lookup_fmap, Hj.
Qed.

Lemma keyed_total rec ls :
  Forall (total_bound rec) ls → forallb bound ls = true →
  ∀ ns keys c, matched_bound ns keys →
  ∃ ns' keys' c' t, keyed rec ls ns keys c = Some (ns', keys', c', t)
                    ∧ matched_bound ns' keys'.
Proof.
  induction 1 as [|l ls Hl _ IH]; intros Hb ns keys c Hm; simpl.
  - by eexists _, _, _, _.
  - simpl in Hb. apply andb_true_iff in Hb as [Hbl Hbls].
    destruct (find_key (key l) ns 0) as [[j n]|] eqn:Ef.
    + apply find_key_spec in Ef as (_ & Hn & Hkn & Ht).
      rewrite Nat.sub_0_r in Hn.
      assert (keys_ok n = true) as Hkok.
      { destruct Hm as (Hk & _).
        by apply (proj1 (Forall_lookup _ _) Hk j n). }
      destruct (Hl Hbl n c Hkok) as (n' & c1 & t1 & -> & Hbn & Hu). simpl.
      rewrite <- Hkn in Ht.
      destruct (IH Hbls (<[j := n']> ns) (keys ++ [key n]) c1
                  (matched_bound_insert ns keys j n n' Hm Hn Ht Hu Hbn))
        as (ns2 & keys2 & c2 & t2 & -> & Hm2).
      simpl. by eexists _, _, _, _.
    + destruct (bound_dom _ Hbl) as [d ->]. simpl.
      destruct (IH Hbls ns keys c Hm) as (ns2 & keys2 & c2 & t2 & -> & Hm2).
      simpl. by eexists _, _, _, _.
Qed.

Lemma placeNew_total d keys ns :
  ∀ prev c,
    (∀ p, prev = Some p → is_Some (dom p)) →
    (∀ n, n ∈ ns → needs_node keys n = false → bound n = true) →
    ∃ ns' c' t, placeNew (Some d) keys prev ns c = Some (ns', c', t)
                ∧ forallb bound ns' = true.
Proof.
  induction ns as [|n ns IH]; intros prev c Hprev Hb; simpl.
  - by eexists _, _, _.
  - destruct (needs_node keys n) eqn:En.
    + pose proof (toHTMLNode_dom n c) as Hd.
      pose proof (proj2 (toHTMLNode_unbound_bound n c)) as Hbn.
      destruct (toHTMLNode n c) as [n' c1]. simpl in Hd, Hbn.
      destruct (IH (Some n') c1) as (ns' & c' & t & Hp & Hbs).
      * intros p [= <-]. by rewrite Hd.
      * intros m Hm. apply Hb. apply elem_of_cons. by right.
      * rewrite Hd. destruct prev as [p|].
        -- destruct (Hprev p eq_refl) as [x Hxp]. simpl. rewrite Hxp. simpl.
           rewrite Hp. simpl. eexists _, _, _. split; [done|].
           simpl. by rewrite Hbn, Hbs.
        -- simpl. rewrite Hp. simpl. eexists _, _, _. split; [done|].
           simpl. by rewrite Hbn, Hbs.
    + assert (bound n = true) as Hbn.
      { apply Hb; [apply elem_of_cons; by left|done]. }
      destruct (IH (Some n) c) as (ns' & c' & t & -> & Hbs).
      * intros p [= <-]. by apply bound_dom.
      * intros m Hm. apply Hb. apply elem_of_cons. by right.
      * simpl. eexists _, _, _. split; [done|]. simpl. by rewrite Hbn, Hbs.
Qed.

Lemma positional_total rec ls :
  Forall (total_bound rec) ls → forallb bound ls = true →
  ∀ ns c, length ls = length ns → forallb keys_ok ns = true →
  ∃ ns' c' t, positional rec ls ns c = Some (ns', c', t)
              ∧ forallb bound ns' = true.
Proof.
  induction 1 as [|l ls Hl _ IH]; intros Hb [|n ns] c Hlen Hk; try done.
  - by eexists _, _, _.
  - simpl in *. apply andb_true_iff in Hb as [Hbl Hbls].
    apply andb_true_iff in Hk as [Hkn Hkns].
    destruct (Hl Hbl n c Hkn) as (n' & c1 & t1 & -> & Hbn & _). simpl.
    destruct (IH Hbls ns c1) as (ns' & c' & t & -> & Hbs); [lia|done|].
    simpl. eexists _, _, _. split; [done|]. simpl. by rewrite Hbn, Hbs.
Qed.

Lemma updateVNodeDOM_total l : total_bound updateVNodeDOM l.
Proof.
  induction l as [tg ty k s a e b d w IH] using VNode_ind'.
  intros Hb v c Hk. set (l := mkVNode tg ty k s a e b d w) in *.
  destruct (bound_dom _ Hb) as [x Hx]. pose proof (bound_body _ Hb) as Hbb.
  destruct (keys_ok_body _ Hk) as [Hnd Hkb].
  assert (∀ v' c' t, updateVNodeDOM l v c = Some (v', c', t) →
                     bound v' = true →
                     ∃ v' c' t, updateVNodeDOM l v c = Some (v', c', t)
                                ∧ bound v' = true ∧ unbound v' = unbound v)
    as Hdone.
  { intros v' c' t Hu Hbv. exists v', c', t. split; [done|]. split; [done|].
    by apply (updateVNodeDOM_unbound l v c v' c' t). }
  rewrite updateVNodeDOM_unfold in Hdone |- *.
  destruct (irreconcilable l v).
  - rewrite Hx in Hdone |- *. simpl in Hdone |- *.
    pose proof (toHTMLNode_dom v c) as Hd.
    pose proof (proj2 (toHTMLNode_unbound_bound v c)) as Hbv.
    destruct (toHTMLNode v c) as [v1 c1]. simpl in Hd, Hbv.
    rewrite Hd in Hdone |- *. simpl in Hdone |- *. by eapply Hdone.
  - rewrite Hx in Hdone |- *. cbn [on_dom mbind option_bind] in Hdone |- *.
    assert (∃ b' c1 t1,
              (if bool_decide (length (body l) ≠ length (body v)) then
                 '(ns, keysUpdated, c1, t1) ←
                   keyed updateVNodeDOM (body l) (body v) [] c;
                 '(ns', c2, t2) ← placeNew (Some x) keysUpdated None ns c1;
                 Some (ns', c2, t1 ++ t2)
               else positional updateVNodeDOM (body l) (body v) c)
              = Some (b', c1, t1) ∧ forallb bound b' = true)
      as (b' & c1 & t1 & Hc & Hbs).
    { case_bool_decide as Hlen.
      - destruct (keyed_total updateVNodeDOM b IH Hbb (body v) [] c)
          as (ns & keys & c2 & t2 & Hkd & Hm).
        { split; [by apply forallb_Forall_true|]. split; [done|]. intros n _ Hn.
          apply needs_node_false in Hn as [_ Hn]. by apply elem_of_nil in Hn. }
        simpl. rewrite Hkd. simpl.
        destruct (placeNew_total x keys ns None c2) as (ns' & c3 & t3 & Hp & Hbs).
        + done.
        + apply Hm.
        + rewrite Hp. simpl. by eexists _, _, _.
      - apply (positional_total updateVNodeDOM b IH Hbb (body v) c);
          [|done]. simpl in Hlen. by destruct (decide (length b = length (body v))). }
    rewrite Hc in Hdone |- *. simpl in Hdone |- *. eapply Hdone; [done|].
    rewrite bound_unfold. simpl. by rewrite Hbs.
Qed.

(** X6: on a previous tree whose nodes are all bound to live nodes, and a
    next tree in which no two siblings carry the same truthy key, the
    reconciliation raises no [TypeError] on a missing [dom] or child and
    leaves every node of the next tree bound to a live node, so that the
    next tree can be the previous tree of the pass after it. *)
Theorem reconcile_total (l v : VNode) (c : nat) :
  bound l = true → keys_ok v = true →
  ∃ v' c' t, updateVNodeDOM l v c = Some (v', c', t) ∧ bound v' = true.
Proof.
  intros Hb Hk.
  destruct (updateVNodeDOM_total l Hb v c Hk) as (v' & c' & t & Hu & Hbv & _).
  by exists v', c', t.
Qed.

Lemma reconcile_total_witness :
  bound reorder_previous = true ∧ keys_ok reorder_next = true
  ∧ ∃ v' c' t, updateVNodeDOM reorder_previous reorder_next 3 = Some (v', c', t)
               ∧ bound v' = true.
Proof.
  split; [reflexivity|]. split; [by vm_compute|].
  apply (reconcile_total reorder_previous reorder_next 3); [reflexivity|].
  by vm_compute.
Defined.

(** *** Live nodes that are kept *)

Lemma same_shape_unfold l v :
  same_shape l v
  = negb (irreconcilable l v) && same_shape_each same_shape (body l) (body v).
Proof. by destruct l. Qed.

Lemma ids_unfold v :
  ids v = from_option (λ d, [d]) [] (dom v) ++ (body v ≫= ids).
Proof. by destruct v. Qed.

Lemma same_shape_each_length rec ls ns :
  same_shape_each rec ls ns = true → length ls = length ns.
Proof.
  revert ns. induction ls as [|l ls IH]; intros [|n ns]; simpl; try done.
  intros [_ H]%andb_true_iff. f_equal. by apply IH.
Qed.

Lemma updates_within_weaken ds ds' calls :
  (∀ x, x ∈ ds → x ∈ ds') → updates_within ds calls → updates_within ds' calls.
Proof.
  intros Hsub H. eapply Forall_impl; [exact H|].
  intros call (d & Hd & Hl). exists d. auto.
Qed.

Lemma positional_reuse rec ls :
  Forall (reuses rec) ls →
  ∀ ns c, same_shape_each same_shape ls ns = true → forallb bound ls = true →
  ∃ ns' t, positional rec ls ns c = Some (ns', c, t)
           ∧ ns' ≫= ids = ls ≫= ids
           ∧ updates_within (ls ≫= ids) t.
Proof.
  induction 1 as [|l ls Hl _ IH]; intros [|n ns] c Hs Hb; try done.
  - eexists _, _. split; [done|]. split; [done|]. constructor.
  - simpl in Hs, Hb. apply andb_true_iff in Hs as [Hs1 Hs2].
    apply andb_true_iff in Hb as [Hb1 Hb2].
    destruct (Hl n c Hs1 Hb1) as (n' & t1 & Hr & Hi1 & Hu1).
    destruct (IH ns c Hs2 Hb2) as (ns' & t2 & Hp & Hi2 & Hu2).
    simpl. rewrite Hr. simpl. rewrite Hp. simpl.
    eexists _, _. split; [done|]. rewrite !bind_cons, Hi1, Hi2.
    split; [done|]. apply Forall_app. split.
    + eapply updates_within_weaken; [|exact Hu1].
      intros x Hx. apply elem_of_app. by left.
    + eapply updates_within_weaken; [|exact Hu2].
      intros x Hx. apply elem_of_app. by right.
Qed.

Lemma updateVNodeDOM_reuses l : reuses updateVNodeDOM l.
Proof.
  induction l as [tg ty k s a e b d w IH] using VNode_ind'.
  intros v c Hs Hb. set (l := mkVNode tg ty k s a e b d w) in *.
  destruct (bound_dom _ Hb) as [x Hx]. pose proof (bound_body _ Hb) as Hbb.
  rewrite same_shape_unfold in Hs. apply andb_true_iff in Hs as [Hi Hs].
  apply negb_true_iff in Hi.
  pose proof (same_shape_each_length _ _ _ Hs) as Hlen.
  destruct (positional_reuse updateVNodeDOM b IH (body v) c Hs Hbb)
    as (ns' & t & Hp & Hids & Hu).
  rewrite updateVNodeDOM_unfold, Hi, Hx. cbn [on_dom mbind option_bind].
  rewrite bool_decide_eq_false_2 by (intros Hne; by apply Hne).
  change (body l) with b. rewrite Hp. cbn [mbind option_bind].
  eexists _, _. split; [done|].
  assert (x ∈ ids l) as Hxl.
  { rewrite ids_unfold, Hx. apply elem_of_app. left. by apply list_elem_of_singleton. }
  split.
  - rewrite (ids_unfold l), Hx, ids_unfold.
    change (body (bound_to v ns' (Some x))) with ns'.
    change (body l) with b. by rewrite Hids.
  - apply Forall_app. split; [|apply Forall_app; split].
    + eapply Forall_impl; [apply (diffNode_local l v x)|].
      intros call Hl. by exists x.
    + eapply updates_within_weaken; [|exact Hu].
      intros y Hy. rewrite ids_unfold. apply elem_of_app. by right.
    + eapply Forall_impl; [apply (invalidation_hook_local v x)|].
      intros call Hl. by exists x.
Qed.

(** X7: when the previous tree, all of it bound, and the next tree have the
    same shape (node for node the same tag, no text node, the same number of
    children), the reconciliation completes, creates no live node, binds the
    next tree to the live nodes of the previous one in the same order, and
    makes no call but setters on those live nodes and lifecycle hooks:
    nothing is materialized, replaced, removed or inserted. *)
Theorem same_shape_reuse (l v : VNode) (c : nat) :
  same_shape l v = true → bound l = true →
  ∃ v' t, updateVNodeDOM l v c = Some (v', c, t) ∧ ids v' = ids l
          ∧ Forall (λ call, ∃ d, d ∈ ids l ∧ local_call d call) t.
Proof. apply updateVNodeDOM_reuses. Qed.


Lemma same_shape_reuse_witness :
  same_shape reorder_previous swapped_next = true
  ∧ bound reorder_previous = true
  ∧ ∃ v' t, updateVNodeDOM reorder_previous swapped_next 3 = Some (v', 3, t)
            ∧ ids v' = [0; 1; 2]
            ∧ Forall (λ call, ∃ d, d ∈ ids reorder_previous ∧ local_call d call) t.
Proof.
  split; [reflexivity|]. split; [reflexivity|].
  apply (same_shape_reuse reorder_previous swapped_next 3); reflexivity.
Defined.

(** *** The children when their number changes *)

Lemma keyed_removes rec ls :
  Forall (keeps_unbound rec) ls →
  ∀ ns keys c ns' keys' c' t,
    keyed rec ls ns keys c = Some (ns', keys', c', t) →
    ∀ x, x ∈ ls → find_key (key x) ns 0 = None →
         ∃ d, dom x = Some d ∧ RemoveChild d ∈ t.
Proof.
  induction 1 as [|l ls Hl _ IH]; intros ns keys c ns' keys' c' t Heq x Hx Hf;
    simpl in Heq.
  - by apply elem_of_nil in Hx.
  - destruct (find_key (key l) ns 0) as [[j n]|] eqn:Ef.
    + destruct (rec l n c) as [[[n' c1] t1]|] eqn:E1; simpl in Heq; [|done].
      match type of Heq with
      | (?m ≫= _) = _ =>
          destruct m as [[[[ns2 keys2] c2] t2]|] eqn:E2; simpl in Heq; [|done]
      end.
      injection Heq as <- <- <- <-.
      apply elem_of_cons in Hx as [->|Hx]; [congruence|].
      apply find_key_spec in Ef as (_ & Hn & _). rewrite Nat.sub_0_r in Hn.
      destruct (IH _ _ _ _ _ _ _ E2 x Hx) as (d & Hd & Hin).
      * apply (find_key_keys (key x) (<[j := n']> ns) ns 0); [|done].
        apply (insert_same_fmap key ns j n n' Hn).
        by apply unbound_key, (Hl _ _ _ _ _ E1).
      * exists d. split; [done|]. apply elem_of_app. by right.
    + destruct (dom l) as [d|] eqn:Ed; simpl in Heq; [|done].
      match type of Heq with
      | (?m ≫= _) = _ =>
          destruct m as [[[[ns2 keys2] c2] t2]|] eqn:E2; simpl in Heq; [|done]
      end.
      injection Heq as <- <- <- <-.
      apply elem_of_cons in Hx as [->|Hx].
      * exists d. split; [done|]. apply elem_of_cons. by left.
      * destruct (IH _ _ _ _ _ _ _ E2 x Hx Hf) as (d' & Hd & Hin).
        exists d'. split; [done|]. apply elem_of_cons. by right.
Qed.

Lemma in_place_children l v c v' c' t :
  irreconcilable l v = false → length (body l) ≠ length (body v) →
  updateVNodeDOM l v c = Some (v', c', t) →
  ∃ t0 ns keys c1 t1 ns' t2,
    keyed updateVNodeDOM (body l) (body v) [] c = Some (ns, keys, c1, t1)
    ∧ placeNew (dom l) keys None ns c1 = Some (ns', c', t2)
    ∧ t = t0 ++ (t1 ++ t2) ++ invalidation_hook v.
Proof.
  intros Hi Hlen. rewrite updateVNodeDOM_unfold, Hi.
  rewrite bool_decide_eq_true_2 by done.
  destruct (on_dom (dom l) (diffNode l v)) as [t0|]; simpl; [|done].
  destruct (keyed updateVNodeDOM (body l) (body v) [] c)
    as [[[[ns keys] c1] t1]|] eqn:Ek; simpl; [|done].
  destruct (placeNew (dom l) keys None ns c1) as [[[ns' c2] t2]|] eqn:Ep;
    simpl; [|done].
  intros [= <- <- <-]. by eexists t0, ns, keys, c1, t1, ns', t2.
Qed.

(** X8: when the numbers of children differ, every previous child whose key
    is falsy, or is the key of no next child, has its live node removed from
    its parent. *)
Theorem keyed_removes_unmatched (l v v' : VNode) (c c' : nat) (t : list Call)
    (x : VNode) :
  irreconcilable l v = false → length (body l) ≠ length (body v) →
  updateVNodeDOM l v c = Some (v', c', t) →
  x ∈ body l →
  truthy (key x) = false ∨ (∀ n, n ∈ body v → key n ≠ key x) →
  ∃ d, dom x = Some d ∧ RemoveChild d ∈ t.
Proof.
  intros Hi Hlen Hu Hx Hkey.
  destruct (in_place_children l v c v' c' t Hi Hlen Hu)
    as (t0 & ns & keys & c1 & t1 & ns' & t2 & Hk & _ & ->).
  assert (Forall (keeps_unbound updateVNodeDOM) (body l)) as Hrec.
  { apply Forall_forall. intros y _. apply updateVNodeDOM_unbound. }
  destruct (keyed_removes updateVNodeDOM (body l) Hrec _ _ _ _ _ _ _ Hk x Hx)
    as (d & Hd & Hin); [by apply find_key_None|].
  exists d. split; [done|]. rewrite !elem_of_app. tauto.
Qed.

Lemma keyed_removes_unmatched_witness :
  ∃ v' c' t,
    updateVNodeDOM reorder_previous shrunk_next 3 = Some (v', c', t)
    ∧ ∃ d, dom (leaf 1 11 (Some 1)) = Some d ∧ RemoveChild d ∈ t.
Proof.
  eexists _, _, _. split; [vm_compute; reflexivity|].
  eapply (keyed_removes_unmatched reorder_previous shrunk_next _ 3).
  - reflexivity.
  - simpl. lia.
  - vm_compute. reflexivity.
  - apply elem_of_cons. by left.
  - right. intros n [->|Hn%elem_of_nil]%elem_of_cons; done.
Defined.

Lemma keyed_unmatched rec ls :
  Forall (keeps_unbound rec) ls →
  ∀ ns keys c ns' keys' c' t,
    keyed rec ls ns keys c = Some (ns', keys', c', t) →
    (∀ k, k ∈ keys' → k ∈ keys ∨ (truthy k = true ∧ ∃ x, x ∈ ls ∧ key x = k))
    ∧ (∀ i n, ns !! i = Some n →
              truthy (key n) = false ∨ (∀ x, x ∈ ls → key x ≠ key n) →
              ns' !! i = Some n).
Proof.
  induction 1 as [|l ls Hl _ IH]; intros ns keys c ns' keys' c' t Heq;
    simpl in Heq.
  - injection Heq as <- <- <- <-. split; [by left|done].
  - destruct (find_key (key l) ns 0) as [[j n0]|] eqn:Ef.
    + destruct (rec l n0 c) as [[[n' c1] t1]|] eqn:E1; simpl in Heq; [|done].
      match type of Heq with
      | (?m ≫= _) = _ =>
          destruct m as [[[[ns2 keys2] c2] t2]|] eqn:E2; simpl in Heq; [|done]
      end.
      injection Heq as <- <- <- <-.
      apply find_key_spec in Ef as (_ & Hn & Hk0 & Ht0).
      rewrite Nat.sub_0_r in Hn.
      destruct (IH _ _ _ _ _ _ _ E2) as [Hkeys Hkeep]. split.
      * intros k Hk. destruct (Hkeys k Hk) as [Hin|(Ht & x & Hx & Hkx)].
        -- apply elem_of_app in Hin as [Hin|Hin%list_elem_of_singleton];
             [by left|right].
           subst k. rewrite Hk0. split; [done|]. exists l.
           split; [apply elem_of_cons; by left|done].
        -- right. split; [done|]. exists x.
           split; [apply elem_of_cons; by right|done].
      * intros i n Hi Hcond. apply Hkeep.
        -- rewrite list_lookup_insert_ne; [done|]. intros <-.
           rewrite Hn in Hi. injection Hi as <-.
           destruct Hcond as [Hf|Hne]; [congruence|].
           apply (Hne l); [apply elem_of_cons; by left|done].
        -- destruct Hcond as [Hf|Hne]; [by left|right].
           intros x Hx. apply Hne. apply elem_of_cons. by right.
    + destruct (dom l) as [d|] eqn:Ed; simpl in Heq; [|done].
      match type of Heq with
      | (?m ≫= _) = _ =>
          destruct m as [[[[ns2 keys2] c2] t2]|] eqn:E2; simpl in Heq; [|done]
      end.
      injection Heq as <- <- <- <-.
      destruct (IH _ _ _ _ _ _ _ E2) as [Hkeys Hkeep]. split.
      * intros k Hk. destruct (Hkeys k Hk) as [Hin|(Ht & x & Hx & Hkx)];
          [by left|right].
        split; [done|]. exists x. split; [apply elem_of_cons; by right|done].
      * intros i n Hi Hcond. apply Hkeep; [done|].
        destruct Hcond as [Hf|Hne]; [by left|right].
        intros x Hx. apply Hne. apply elem_of_cons. by right.
Qed.

Lemma placeNew_creates lastDom keys ns :
  ∀ prev c ns' c' t,
    placeNew lastDom keys prev ns c = Some (ns', c', t) →
    ∀ n, n ∈ ns → needs_node keys n = true →
         ∃ k, c ≤ k ∧ ToHTMLNode (toHTMLNode n k).1 ∈ t
              ∧ ∀ w, view n = Some w → HandleMount w ∈ t.
Proof.
  induction ns as [|m ns IH]; intros prev c ns' c' t Heq n Hn Hneed;
    simpl in Heq.
  - by apply elem_of_nil in Hn.
  - destruct (needs_node keys m) eqn:Em.
    + pose proof (toHTMLNode_view m c) as Hv.
      destruct (toHTMLNode m c) as [m' c1] eqn:E1.
      destruct (toHTMLNode_ids _ _ _ _ E1) as [Hc1 _].
      destruct (dom m') as [new|]; simpl in Heq; [|done].
      match type of Heq with
      | (?x ≫= _) = _ => destruct x as [place|] eqn:Ep; simpl in Heq; [|done]
      end.
      destruct (placeNew lastDom keys (Some m') ns c1)
        as [[[rest' c2] t2]|] eqn:E2; simpl in Heq; [|done].
      injection Heq as <- <- <-.
      apply elem_of_cons in Hn as [->|Hn].
      * exists c. split; [done|]. rewrite E1. simpl. split.
        -- apply elem_of_cons. by left.
        -- intros w Hw. apply elem_of_cons. right. apply elem_of_cons. right.
           apply elem_of_app. left. unfold mount_hook. simpl in Hv.
           rewrite Hv, Hw. by apply list_elem_of_singleton.
      * destruct (IH _ _ _ _ _ E2 n Hn Hneed) as (k & Hk & Hin & Hhook).
        exists k. split; [lia|]. split.
        -- apply elem_of_cons. right. apply elem_of_cons. right.
           apply elem_of_app. by right.
        -- intros w Hw. apply elem_of_cons. right. apply elem_of_cons. right.
           apply elem_of_app. right. by apply Hhook.
    + destruct (placeNew lastDom keys (Some m) ns c)
        as [[[rest' c2] t2]|] eqn:E2; simpl in Heq; [|done].
      injection Heq as <- <- <-.
      apply elem_of_cons in Hn as [->|Hn]; [congruence|].
      by apply (IH _ _ _ _ _ E2 n Hn Hneed).
Qed.

(** X9: when the numbers of children differ, every next child whose key is
    falsy, or is the key of no previous child, is materialized anew, from an
    identity that was unused before the pass, and the mount hook of its
    view, if it has one, is called. *)
Theorem keyed_creates_unmatched (l v v' : VNode) (c c' : nat) (t : list Call)
    (n : VNode) :
  irreconcilable l v = false → length (body l) ≠ length (body v) →
  updateVNodeDOM l v c = Some (v', c', t) →
  n ∈ body v →
  truthy (key n) = false ∨ (∀ x, x ∈ body l → key x ≠ key n) →
  ∃ k, c ≤ k ∧ ToHTMLNode (toHTMLNode n k).1 ∈ t
       ∧ ∀ w, view n = Some w → HandleMount w ∈ t.
Proof.
  intros Hi Hlen Hu Hn Hkey.
  destruct (in_place_children l v c v' c' t Hi Hlen Hu)
    as (t0 & ns & keys & c1 & t1 & ns' & t2 & Hk & Hp & ->).
  assert (Forall (keeps_unbound updateVNodeDOM) (body l)) as Hrec.
  { apply Forall_forall. intros y _. apply updateVNodeDOM_unbound. }
  destruct (keyed_unmatched updateVNodeDOM (body l) Hrec _ _ _ _ _ _ _ Hk)
    as [Hkeys Hkeep].
  assert (Forall (writes_ok updateVNodeDOM) (body l)) as Hwr.
  { apply Forall_forall. intros y _. apply updateVNodeDOM_writes. }
  destruct (keyed_writes updateVNodeDOM (body l) Hwr _ _ _ _ _ _ _ Hk)
    as [Hc1 _].
  apply list_elem_of_lookup in Hn as [i Hi'].
  pose proof (Hkeep i n Hi' Hkey) as Hns.
  apply list_elem_of_lookup_2 in Hns.
  destruct (placeNew_creates _ _ _ _ _ _ _ _ Hp n Hns) as (k & Hck & Hin & Hhook).
  { unfold needs_node. destruct (truthy (key n)) eqn:Ht; [|done]. simpl.
    apply negb_true_iff, bool_decide_eq_false. intros Hin.
    destruct (Hkeys _ Hin) as [Hnil|(_ & x & Hx & Hkx)];
      [by apply elem_of_nil in Hnil|].
    destruct Hkey as [?|Hne]; [done|]. by apply (Hne x). }
  exists k. split; [lia|]. split.
  - rewrite !elem_of_app. tauto.
  - intros w Hw. specialize (Hhook w Hw). rewrite !elem_of_app. tauto.
Qed.

Lemma keyed_creates_unmatched_witness :
  ∃ v' c' t,
    updateVNodeDOM reorder_previous reorder_next 3 = Some (v', c', t)
    ∧ ∃ k, 3 ≤ k ∧ ToHTMLNode (toHTMLNode (leaf 3 13 None) k).1 ∈ t
           ∧ ∀ w, view (leaf 3 13 None) = Some w → HandleMount w ∈ t.
Proof.
  eexists _, _, _. split; [vm_compute; reflexivity|].
  eapply (keyed_creates_unmatched reorder_previous reorder_next _ 3).
  - reflexivity.
  - simpl. lia.
  - vm_compute. reflexivity.
  - apply elem_of_cons. right. apply elem_of_cons. right.
    apply elem_of_cons. by left.
  - right. intros x [->|[->|Hx%elem_of_nil]%elem_of_cons]%elem_of_cons; done.
Defined.

Lemma updateVNodeDOM_dom l : keeps_dom updateVNodeDOM l.
Proof.
  intros v c v' c' t Hi. rewrite updateVNodeDOM_unfold, Hi.
  destruct (on_dom (dom l) (diffNode l v)) as [t0|]; simpl; [|done].
  intros Heq.
  match type of Heq with
  | (?m ≫= _) = _ =>
      destruct m as [[[b' c1] t1]|] eqn:E1; simpl in Heq; [|done]
  end.
  by injection Heq as <- <- <-.
Qed.

Lemma keyed_keys_grow rec ls :
  ∀ ns keys c ns' keys' c' t,
    keyed rec ls ns keys c = Some (ns', keys', c', t) →
    ∀ k, k ∈ keys → k ∈ keys'.
Proof.
  induction ls as [|l ls IH]; intros ns keys c ns' keys' c' t Heq k Hk;
    simpl in Heq.
  - by injection Heq as <- <- <- <-.
  - destruct (find_key (key l) ns 0) as [[j n0]|] eqn:Ef.
    + destruct (rec l n0 c) as [[[n' c1] t1]|] eqn:E1; simpl in Heq; [|done].
      match type of Heq with
      | (?m ≫= _) = _ =>
          destruct m as [[[[ns2 keys2] c2] t2]|] eqn:E2; simpl in Heq; [|done]
      end.
      injection Heq as <- <- <- <-. apply (IH _ _ _ _ _ _ _ E2).
      apply elem_of_app. by left.
    + destruct (dom l) as [d|] eqn:Ed; simpl in Heq; [|done].
      match type of Heq with
      | (?m ≫= _) = _ =>
          destruct m as [[[[ns2 keys2] c2] t2]|] eqn:E2; simpl in Heq; [|done]
      end.
      injection Heq as <- <- <- <-. by apply (IH _ _ _ _ _ _ _ E2).
Qed.

Lemma NoDup_filter_head {A} (P : A → Prop) `{∀ x, Decision (P x)}
    (x : A) (l : list A) :
  NoDup (filter P (x :: l)) → P x → (x ∉ l) ∧ NoDup (filter P l).
Proof.
  rewrite filter_cons. intros Hnd HP. rewrite decide_True in Hnd by done.
  apply NoDup_cons in Hnd as [Hnin Hnd]. split; [|done].
  intros Hin. apply Hnin. by apply list_elem_of_filter.
Qed.

Lemma NoDup_filter_tail {A} (P : A → Prop) `{∀ x, Decision (P x)}
    (x : A) (l : list A) :
  NoDup (filter P (x :: l)) → NoDup (filter P l).
Proof.
  rewrite filter_cons. destruct (decide (P x)); [|done].
  by intros [_ ?]%NoDup_cons.
Qed.

(** A child of the previous node whose key is found among the children of
    the next node hands its live node over to that child. *)
Lemma keyed_keeps rec ls :
  Forall (keeps_unbound rec) ls → Forall (keeps_dom rec) ls →
  NoDup (filter (λ k, truthy k = true) (key <$> ls)) →
  ∀ ns keys c ns' keys' c' t i x j n,
    NoDup (filter (λ k, truthy k = true) (key <$> ns)) →
    keyed rec ls ns keys c = Some (ns', keys', c', t) →
    ls !! i = Some x → ns !! j = Some n →
    key x = key n → truthy (key x) = true → irreconcilable x n = false →
    ∃ n', ns' !! j = Some n' ∧ dom n' = dom x ∧ unbound n' = unbound n
          ∧ key n ∈ keys'.
Proof.
  intros Hu Hd. revert Hd.
  induction Hu as [|l ls Hl Hls IH]; intros Hd Hndl ns keys c ns' keys' c' t
    i x j n Hndn Heq Hi Hj Hkey Ht Hirr; [done|].
  apply Forall_cons in Hd as [Hdl Hdls]. simpl in Heq.
  rewrite fmap_cons in Hndl.
  destruct i as [|i]; simpl in Hi.
  - injection Hi as ->.
    destruct (NoDup_filter_head _ _ _ Hndl Ht) as [Hnin _].
    destruct (find_key (key x) ns 0) as [[j0 m]|] eqn:Ef.
    2:{ apply find_key_None in Ef as [Hf|Hne]; [congruence|].
        exfalso. apply (Hne n); [by apply list_elem_of_lookup_2 in Hj|done]. }
    apply find_key_spec in Ef as (_ & Hm & Hkm & _).
    rewrite Nat.sub_0_r in Hm.
    assert (j0 = j) as ->.
    { apply (NoDup_filter_lookup (λ k, truthy k = true) (key <$> ns) j0 j
               (key x) Hndn); [| |done].
      - by rewrite list_lookup_fmap, Hm, <- Hkm.
      - by rewrite list_lookup_fmap, Hj, Hkey. }
    rewrite Hj in Hm. injection Hm as <-.
    destruct (rec x n c) as [[[n' c1] t1]|] eqn:E1; simpl in Heq; [|done].
    match type of Heq with
    | (?m ≫= _) = _ =>
        destruct m as [[[[ns2 keys2] c2] t2]|] eqn:E2; simpl in Heq; [|done]
    end.
    injection Heq as <- <- <- <-.
    pose proof (Hl _ _ _ _ _ E1) as Hun. pose proof (Hdl _ _ _ _ _ Hirr E1) as Hdn.
    destruct (keyed_unmatched rec ls Hls _ _ _ _ _ _ _ E2) as [_ Hkeep].
    exists n'. split; [|split; [done|split; [done|]]].
    + apply Hkeep.
      * apply list_lookup_insert_eq. by apply lookup_lt_Some in Hj.
      * right. intros y Hy Hky. apply Hnin.
        rewrite (unbound_key _ _ Hun), <- Hkey in Hky. rewrite <- Hky.
        apply list_elem_of_fmap. by exists y.
    + apply (keyed_keys_grow rec ls _ _ _ _ _ _ _ E2).
      apply elem_of_app. right. by apply list_elem_of_singleton.
  - assert (key l ≠ key x) as Hlx.
    { intros Heq'. destruct (truthy (key l)) eqn:Htl; [|congruence].
      destruct (NoDup_filter_head _ _ _ Hndl Htl) as [Hnin _].
      apply Hnin. rewrite Heq'. apply list_elem_of_fmap. exists x.
      split; [done|]. by apply list_elem_of_lookup_2 in Hi. }
    apply NoDup_filter_tail in Hndl.
    destruct (find_key (key l) ns 0) as [[j0 m]|] eqn:Ef.
    + apply find_key_spec in Ef as (_ & Hm & Hkm & _).
      rewrite Nat.sub_0_r in Hm.
      destruct (rec l m c) as [[[m' c1] t1]|] eqn:E1; simpl in Heq; [|done].
      match type of Heq with
      | (?y ≫= _) = _ =>
          destruct y as [[[[ns2 keys2] c2] t2]|] eqn:E2; simpl in Heq; [|done]
      end.
      injection Heq as <- <- <- <-.
      assert (key <$> <[j0 := m']> ns = key <$> ns) as Hks.
      { apply (insert_same_fmap key ns j0 m m' Hm).
        by apply unbound_key, (Hl _ _ _ _ _ E1). }
      apply (IH Hdls Hndl _ _ _ _ _ _ _ i x j n) with (2 := E2); try done.
      * by rewrite Hks.
      * rewrite list_lookup_insert_ne; [done|]. intros <-.
        rewrite Hj in Hm. injection Hm as <-. congruence.
    + destruct (dom l) as [d|] eqn:Ed; simpl in Heq; [|done].
      match type of Heq with
      | (?y ≫= _) = _ =>
          destruct y as [[[[ns2 keys2] c2] t2]|] eqn:E2; simpl in Heq; [|done]
      end.
      injection Heq as <- <- <- <-.
      by apply (IH Hdls Hndl _ _ _ _ _ _ _ i x j n) with (2 := E2).
Qed.

Lemma placeNew_keeps lastDom keys ns :
  ∀ prev c ns' c' t j m,
    placeNew lastDom keys prev ns c = Some (ns', c', t) →
    ns !! j = Some m → needs_node keys m = false → ns' !! j = Some m.
Proof.
  induction ns as [|n ns IH]; intros prev c ns' c' t j m Heq Hj Hneed;
    simpl in Heq; [done|].
  destruct (needs_node keys n) eqn:En.
  - destruct (toHTMLNode n c) as [n' c1] eqn:E1.
    destruct (dom n') as [new|]; simpl in Heq; [|done].
    match type of Heq with
    | (?x ≫= _) = _ => destruct x as [place|] eqn:Ep; simpl in Heq; [|done]
    end.
    destruct (placeNew lastDom keys (Some n') ns c1)
      as [[[rest' c2] t2]|] eqn:E2; simpl in Heq; [|done].
    injection Heq as <- <- <-.
    destruct j as [|j]; simpl in Hj |- *; [congruence|].
    by apply (IH _ _ _ _ _ _ _ E2).
  - destruct (placeNew lastDom keys (Some n) ns c)
      as [[[rest' c2] t2]|] eqn:E2; simpl in Heq; [|done].
    injection Heq as <- <- <-.
    destruct j as [|j]; simpl in Hj |- *; [done|].
    by apply (IH _ _ _ _ _ _ _ E2).
Qed.

Lemma in_place_body l v c v' c' t :
  irreconcilable l v = false → length (body l) ≠ length (body v) →
  updateVNodeDOM l v c = Some (v', c', t) →
  ∃ ns keys c1 t1 t2,
    keyed updateVNodeDOM (body l) (body v) [] c = Some (ns, keys, c1, t1)
    ∧ placeNew (dom l) keys None ns c1 = Some (body v', c', t2).
Proof.
  intros Hi Hlen. rewrite updateVNodeDOM_unfold, Hi.
  rewrite bool_decide_eq_true_2 by done.
  destruct (on_dom (dom l) (diffNode l v)) as [t0|]; simpl; [|done].
  destruct (keyed updateVNodeDOM (body l) (body v) [] c)
    as [[[[ns keys] c1] t1]|] eqn:Ek; simpl; [|done].
  destruct (placeNew (dom l) keys None ns c1) as [[[ns' c2] t2]|] eqn:Ep;
    simpl; [|done].
  intros [= <- <- <-]. by eexists ns, keys, c1, t1, t2.
Qed.

(** X10: when the numbers of children differ, and the truthy keys are
    pairwise distinct among the previous children and among the next
    children, a next child that has the truthy key of a previous child and
    is reconcilable with it gets the live node of that child, at whatever
    index it stands. *)
Theorem keyed_keeps_node (l v v' : VNode) (c c' : nat) (t : list Call)
    (i j : nat) (x n : VNode) :
  irreconcilable l v = false → length (body l) ≠ length (body v) →
  NoDup (filter (λ k, truthy k = true) (key <$> body l)) →
  NoDup (filter (λ k, truthy k = true) (key <$> body v)) →
  updateVNodeDOM l v c = Some (v', c', t) →
  body l !! i = Some x → body v !! j = Some n →
  key x = key n → truthy (key x) = true → irreconcilable x n = false →
  ∃ n', body v' !! j = Some n' ∧ dom n' = dom x ∧ unbound n' = unbound n.
Proof.
  intros Hi Hlen Hndl Hndv Hu Hx Hn Hkey Ht Hirr.
  destruct (in_place_body l v c v' c' t Hi Hlen Hu)
    as (ns & keys & c1 & t1 & t2 & Hk & Hp).
  assert (Forall (keeps_unbound updateVNodeDOM) (body l)) as Hrec.
  { apply Forall_forall. intros y _. apply updateVNodeDOM_unbound. }
  assert (Forall (keeps_dom updateVNodeDOM) (body l)) as Hdom.
  { apply Forall_forall. intros y _. apply updateVNodeDOM_dom. }
  destruct (keyed_keeps updateVNodeDOM (body l) Hrec Hdom Hndl _ _ _ _ _ _ _
              i x j n Hndv Hk Hx Hn Hkey Ht Hirr)
    as (n' & Hn' & Hd & Hun & Hin).
  exists n'. split; [|done].
  apply (placeNew_keeps _ _ _ _ _ _ _ _ j n' Hp Hn').
  apply needs_node_false. rewrite (unbound_key _ _ Hun).
  split; [congruence|done].
Qed.

Lemma keyed_keeps_node_witness :
  ∃ v' c' t,
    updateVNodeDOM reorder_previous reorder_next 3 = Some (v', c', t)
    ∧ ∃ n', body v' !! 1 = Some n' ∧ dom n' = Some 1
            ∧ unbound n' = unbound (leaf 1 11 None).
Proof.
  eexists _, _, _. split; [vm_compute; reflexivity|].
  eapply (keyed_keeps_node reorder_previous reorder_next _ 3 _ _ 0 1
            (leaf 1 11 (Some 1)) (leaf 1 11 None)).
  - reflexivity.
  - simpl. lia.
  - apply (bool_decide_unpack _). by vm_compute.
  - apply (bool_decide_unpack _). by vm_compute.
  - vm_compute. reflexivity.
  - reflexivity.
  - reflexivity.
  - reflexivity.
  - reflexivity.
  - reflexivity.
Defined.

Lemma positional_keeps rec ls :
  Forall (keeps_unbound rec) ls → Forall (keeps_dom rec) ls →
  ∀ ns c ns' c' t j x n,
    positional rec ls ns c = Some (ns', c', t) →
    ls !! j = Some x → ns !! j = Some n → irreconcilable x n = false →
    ∃ n', ns' !! j = Some n' ∧ dom n' = dom x ∧ unbound n' = unbound n.
Proof.
  intros Hu Hd. revert Hd.
  induction Hu as [|l ls Hl _ IH]; intros Hd [|m ns] c ns' c' t j x n Heq Hx Hn
    Hirr; try done.
  apply Forall_cons in Hd as [Hdl Hdls]. simpl in Heq.
  destruct (rec l m c) as [[[m' c1] t1]|] eqn:E1; simpl in Heq; [|done].
  destruct (positional rec ls ns c1) as [[[ns2 c2] t2]|] eqn:E2;
    simpl in Heq; [|done].
  injection Heq as <- <- <-. destruct j as [|j]; simpl in Hx, Hn |- *.
  - injection Hx as ->. injection Hn as ->. exists m'.
    split; [done|]. split; [by apply (Hdl _ _ _ _ _ Hirr E1)|].
    by apply (Hl _ _ _ _ _ E1).
  - by apply (IH Hdls _ _ _ _ _ j x n E2).
Qed.

(** X11: with as many children in the next node as in the previous one, the
    children are diffed index by index whatever their keys: a next child
    that is reconcilable with the previous child at its index gets the live
    node of that child. *)
Theorem positional_keeps_place (l v v' : VNode) (c c' : nat) (t : list Call)
    (j : nat) (x n : VNode) :
  irreconcilable l v = false → length (body l) = length (body v) →
  updateVNodeDOM l v c = Some (v', c', t) →
  body l !! j = Some x → body v !! j = Some n → irreconcilable x n = false →
  ∃ n', body v' !! j = Some n' ∧ dom n' = dom x ∧ unbound n' = unbound n.
Proof.
  intros Hi Hlen. rewrite updateVNodeDOM_unfold, Hi.
  rewrite bool_decide_eq_false_2 by (intros Hne; by apply Hne).
  destruct (on_dom (dom l) (diffNode l v)) as [t0|]; simpl; [|done].
  destruct (positional updateVNodeDOM (body l) (body v) c)
    as [[[ns' c1] t1]|] eqn:Ep; simpl; [|done].
  intros [= <- <- <-] Hx Hn Hirr. simpl.
  apply (positional_keeps updateVNodeDOM (body l)) with (3 := Ep); try done.
  - apply Forall_forall. intros y _. apply updateVNodeDOM_unbound.
  - apply Forall_forall. intros y _. apply updateVNodeDOM_dom.
Qed.

Lemma positional_keeps_place_witness :
  ∃ v' c' t,
    updateVNodeDOM reorder_previous swapped_next 3 = Some (v', c', t)
    ∧ ∃ n', body v' !! 0 = Some n' ∧ dom n' = Some 1
            ∧ unbound n' = unbound (leaf 2 12 None).
Proof.
  eexists _, _, _. split; [vm_compute; reflexivity|].
  eapply (positional_keeps_place reorder_previous swapped_next _ 3 _ _ 0
            (leaf 1 11 (Some 1)) (leaf 2 12 None)); reflexivity.
Defined.



End ReconcilerInvariants.

(** * Further properties of rendering and of the lifecycle *)

Module ViewRendering.

Import View ViewSpec.

Lemma same_live_refl W : same_live W W.
Proof. by repeat split. Qed.

Lemma same_live_trans W1 W2 W3 :
  same_live W1 W2 → same_live W2 W3 → same_live W1 W3.
Proof. intros (?&?&?&?) (?&?&?&?). repeat split; congruence. Qed.

Lemma same_live_with_view i f W : same_live W (with_view i f W).
Proof. by repeat split. Qed.

Lemma same_live_saveTo vs n W : same_live W (saveTo vs n W).
Proof.
  unfold saveTo. revert W. induction vs as [|i vs IH]; intros W; simpl.
  - apply same_live_refl.
  - eapply same_live_trans; [apply (same_live_with_view i)|apply IH].
Qed.

Lemma same_live_dispatch i keys W : same_live W (dispatch i keys W).
Proof. unfold dispatch, invalidate. destruct (mounted _ _); by repeat split. Qed.

Lemma same_live_callSet i keys W : same_live W (callSet i keys W).
Proof.
  unfold callSet. destruct (state_set _); [|apply same_live_refl].
  apply same_live_dispatch.
Qed.

Lemma same_live_renderChildren rec b :
  Forall (λ c, ∀ W, same_live W (world_of (rec c W))) b →
  ∀ W, same_live W (world_of (renderChildren rec b W)).
Proof.
  induction 1 as [|c b Hc _ IH]; intros W.
  - apply same_live_refl.
  - destruct (is_child c) eqn:Hch.
    + rewrite renderChildren_cons by done. specialize (Hc W).
      destruct (rec c W) as [r W1|e W1]; [|done].
      specialize (IH W1).
      destruct (renderChildren rec b W1) as [b' W2|e W2];
        by eapply same_live_trans.
    + rewrite renderChildren_not_child by done. apply same_live_refl.
Qed.

Lemma same_live_render isc side :
  (∀ v vs sv W, same_live W (world_of (render v vs sv isc side W)))
  ∧ (∀ b i restore vs sv W,
       same_live W (world_of (renderBody i restore b vs sv isc side W))).
Proof.
  apply Value_Body_ind.
  - intros vs sv W. simpl. destruct sv; [apply same_live_saveTo|].
    apply same_live_refl.
  - intros n vs sv W. apply same_live_refl.
  - intros i g IH vs sv W. simpl. destruct isc; [|apply IH].
    eapply same_live_trans; [apply (same_live_with_view i)|apply IH].
  - intros r w b IH vs sv W. destruct vs as [|x vs]; simpl.
    + apply same_live_refl.
    + pose proof (same_live_renderChildren
                    (λ child W, render child [] true isc side W) b
                    (Forall_impl _ _ _ IH (λ c Hc W, Hc [] true W)) W) as Hb.
      destruct (renderChildren _ b W) as [b' W'|e W']; simpl in *; [|done].
      destruct sv; [|done].
      eapply same_live_trans; [exact Hb|].
      apply (same_live_saveTo (x :: vs) _ W').
  - intros v IH i restore vs sv W. simpl.
    destruct restore as [f|]; [|apply IH].
    eapply same_live_trans; [apply (same_live_with_view i)|apply IH].
  - intros target keys k IH i restore vs sv W. simpl.
    eapply same_live_trans; [apply same_live_callSet|apply IH].
  - intros target keys k IH i restore vs sv W. simpl.
    eapply same_live_trans; [apply same_live_dispatch|apply IH].
Qed.

(** X13: a render pass stays on the virtual side. Whether it returns or
    throws, it binds no node to a live node, appends nothing to the live
    tree and fires no lifecycle hook. *)
Theorem render_leaves_live_side (view : Value)
    (saveVNode ignoreStateChange : bool) (side : string) (W : World) :
  same_live W (world_of (renderToVNode view saveVNode ignoreStateChange side W)).
Proof. apply same_live_render. Qed.

(** X14: a pass with [saveVNode] leaves its result, the node or the empty
    value, as the [lastVNode] of every view of the delegation chain: all of
    them share the one node. *)
Theorem chain_shares_result (view : Value) (ignoreStateChange : bool)
    (side : string) (W W' : World) (r : option VNode) :
  renderToVNode view true ignoreStateChange side W = Ok r W' →
  ∀ j, j ∈ chain side view → lastVNode (view_state W' j) = r.
Proof.
  intros Heq j Hj.
  by apply (proj1 (render_saves ignoreStateChange side) view [] W r W' j Heq).
Qed.

(** X15: a pass writes the [lastVNode] of no view but those whose body it
    computes: the views of the delegation chain and those reached through
    the entries of the node that ends it. *)
Theorem unvisited_views_untouched (view : Value)
    (saveVNode ignoreStateChange : bool) (side : string) (W W' : World)
    (r : option VNode) (j : ViewId) :
  renderToVNode view saveVNode ignoreStateChange side W = Ok r W' →
  j ∉ rendered side view true →
  lastVNode (view_state W' j) = lastVNode (view_state W j).
Proof.
  intros Heq Hj.
  apply (proj1 (render_others ignoreStateChange side) view [] saveVNode W r W' j
           Heq); [apply not_elem_of_nil|done].
Qed.

Lemma chain_shares_result_witness :
  ∃ n W',
    renderToVNode (AView (delegating 1 2 2)) true false "client" start
    = Ok (Some n) W'
    ∧ lastVNode (view_state W' 1) = Some n
    ∧ lastVNode (view_state W' 2) = Some n.
Proof.
  eexists _, _. split; [vm_compute; reflexivity|].
  pose proof (chain_shares_result (AView (delegating 1 2 2)) false "client"
                start _ _ eq_refl) as H.
  split; apply H; simpl.
  - apply elem_of_cons. by left.
  - apply elem_of_cons. right. apply elem_of_cons. by left.
Defined.

Lemma unvisited_views_untouched_witness :
  ∃ r W',
    renderToVNode (AView (delegating 2 3 3)) true false "client" counter_mounted
    = Ok r W'
    ∧ (1 ∉ rendered "client" (AView (delegating 2 3 3)) true)
    ∧ lastVNode (view_state W' 1) = lastVNode (view_state counter_mounted 1)
    ∧ is_Some (lastVNode (view_state W' 1)).
Proof.
  destruct (renderToVNode (AView (delegating 2 3 3)) true false "client"
                          counter_mounted) as [r W'|e W'] eqn:E;
    [|by vm_compute in E].
  exists r, W'. split; [done|].
  assert (1 ∉ rendered "client" (AView (delegating 2 3 3)) true) as Hout.
  { simpl. intros [?|[?|?%elem_of_nil]%elem_of_cons]%elem_of_cons; done. }
  split; [exact Hout|].
  pose proof (unvisited_views_untouched (AView (delegating 2 3 3)) true false
                "client" counter_mounted W' r 1 E Hout) as H.
  split; [exact H|]. rewrite H. vm_compute. by eexists.
Defined.

Lemma renderChildren_resolved rec b :
  ∀ W b' W', renderChildren rec b W = Ok b' W' →
             length b' = length b ∧ Forall resolved b'.
Proof.
  induction b as [|c b IH]; intros W b' W' Heq.
  - injection Heq as <- <-. by split.
  - destruct (is_child c) eqn:Hch;
      [|by rewrite renderChildren_not_child in Heq].
    rewrite renderChildren_cons in Heq by done.
    destruct (rec c W) as [r W1|e W1]; [|done].
    destruct (renderChildren rec b W1) as [b1 W2|e W2] eqn:E2; [|done].
    injection Heq as <- <-. destruct (IH _ _ _ E2) as [Hlen Hres].
    split; [simpl; by f_equal|]. constructor; [|done].
    destruct r as [m|]; [right; by exists m|by left].
Qed.

(** What a pass over a view returns: the node that ends the chain, with the
    innermost view of the chain as its view and its entries rendered; or
    the empty value that ends it. *)
Lemma render_result isc side :
  (∀ v vs sv W r W',
     vs ++ chain side v ≠ [] →
     render v vs sv isc side W = Ok r W' →
     match r with
     | Some n =>
         ∃ r0 w0 b, terminal side v = ANode (mkVNode r0 w0 b)
                    ∧ node_ref n = r0
                    ∧ node_view n = last (vs ++ chain side v)
                    ∧ length (body n) = length b
                    ∧ Forall resolved (body n)
     | None => terminal side v = Null
     end)
  ∧ (∀ bd i restore vs sv W r W',
       vs ≠ [] →
       renderBody i restore bd vs sv isc side W = Ok r W' →
       match r with
       | Some n =>
           ∃ r0 w0 b, terminalBody side bd = ANode (mkVNode r0 w0 b)
                      ∧ node_ref n = r0
                      ∧ node_view n = last (vs ++ chainBody side bd)
                      ∧ length (body n) = length b
                      ∧ Forall resolved (body n)
       | None => terminalBody side bd = Null
       end).
Proof.
  apply Value_Body_ind.
  - intros vs sv W r W' _ [= <- _]. done.
  - done.
  - intros i g IH vs sv W r W' _ Heq. simpl in Heq.
    assert (vs ++ [i] ≠ []) as Hvs by (by destruct vs).
    simpl. rewrite cons_middle, app_assoc.
    destruct isc; apply (IH side _ _ _ _ _ _ _ Hvs Heq).
  - intros r0 w0 b _ vs sv W r W' Hvs Heq. rewrite app_nil_r in Hvs |- *.
    destruct vs as [|x vs]; [done|]. simpl in Heq.
    destruct (renderChildren _ b W) as [b' W1|e W1] eqn:E1; [|done].
    injection Heq as <- <-.
    destruct (renderChildren_resolved _ _ _ _ _ E1) as [Hlen Hres].
    by exists r0, w0, b.
  - intros v IH i restore vs sv W r W' Hvs Heq. simpl in Heq |- *.
    apply (IH _ _ _ _ _ (λ H, Hvs (proj1 (app_eq_nil _ _ H))) Heq).
  - intros target keys k IH i restore vs sv W r W' Hvs Heq.
    simpl in Heq |- *. apply (IH _ _ _ _ _ _ _ Hvs Heq).
  - intros target keys k IH i restore vs sv W r W' Hvs Heq.
    simpl in Heq |- *. apply (IH _ _ _ _ _ _ _ Hvs Heq).
Qed.

(** X16: what a pass over a view returns. A node returned is the node that
    ends the delegation chain, with the innermost view of the chain as its
    view, as many entries as before, and every entry a node or the empty
    value; the empty value is returned only when the chain ends in it. *)
Theorem render_resolves (this : View) (saveVNode ignoreStateChange : bool)
    (side : string) (W W' : World) (r : option VNode) :
  renderToVNode (AView this) saveVNode ignoreStateChange side W = Ok r W' →
  match r with
  | Some n =>
      ∃ r0 w0 b, terminal side (AView this) = ANode (mkVNode r0 w0 b)
                 ∧ node_ref n = r0
                 ∧ node_view n = last (chain side (AView this))
                 ∧ length (body n) = length b
                 ∧ Forall resolved (body n)
  | None => terminal side (AView this) = Null
  end.
Proof.
  intros Heq.
  apply (proj1 (render_result ignoreStateChange side) (AView this) []
           saveVNode W r W'); [by destruct this|done].
Qed.

Lemma render_resolves_witness :
  ∃ n W',
    renderToVNode (AView parent_view) false false "client" start = Ok (Some n) W'
    ∧ node_ref n = 1 ∧ node_view n = Some 1 ∧ length (body n) = 2
    ∧ Forall resolved (body n).
Proof.
  eexists _, _. split; [vm_compute; reflexivity|].
  pose proof (render_resolves parent_view false false "client" start _ _
                eq_refl) as (r0 & w0 & b & Ht & Hr & Hv & Hl & Hres).
  injection Ht as <- <- <-. done.
Defined.

(** X17: mounting a view whose delegation chain ends in the empty value
    fails when the worker runs it, with the [TypeError] of
    [this.lastVNode.mountTo] on [null]; the view is left with no
    [lastVNode], not mounted, and nothing has been attached and no hook
    fired. *)
Theorem mount_empty_body (this : View) (p : DomId) (W : World) :
  terminal "client" (AView this) = Null →
  ∃ W', mountWork this p W = Throw TypeError W'
        ∧ lastVNode (view_state W' (view_id this)) = None
        ∧ mounted W' (view_id this) = false
        ∧ same_live W W'.
Proof.
  intros Ht. unfold mountWork.
  destruct (proj2 (proj1 (terminal_render false "client") (AView this) [] true W)
              Ht) as [W' Hr].
  pose proof (same_live_render false "client") as [Hlive _].
  specialize (Hlive (AView this) [] true W).
  unfold renderToVNode. rewrite Hr in Hlive |- *. simpl in Hlive.
  assert (lastVNode (view_state W' (view_id this)) = None) as Hlast.
  { apply (proj1 (render_saves false "client") (AView this) [] W None W'
             (view_id this) Hr).
    destruct this as [i g]. simpl. apply elem_of_cons. by left. }
  rewrite Hlast. exists W'. split; [done|]. split; [done|].
  split; [|done]. unfold mounted. by rewrite Hlast.
Qed.

Lemma mount_empty_body_witness :
  terminal "client" (AView (wrapper 1 2)) = Null
  ∧ ∃ W', mountWork (wrapper 1 2) 0 start = Throw TypeError W'
          ∧ lastVNode (view_state W' 1) = None
          ∧ mounted W' 1 = false
          ∧ same_live start W'.
Proof.
  split; [reflexivity|].
  apply (mount_empty_body (wrapper 1 2) 0 start). reflexivity.
Defined.

Lemma mounted_with_view i f W j :
  (∀ s, lastVNode (f s) = lastVNode s) →
  mounted (with_view i f W) j = mounted W j.
Proof.
  intros Hf. unfold mounted. rewrite view_state_with_view.
  destruct (decide (i = j)) as [->|]; [by rewrite Hf|done].
Qed.

(** X18: [state.set] followed by [state.get]: a key that was set reads as
    set and every other key as before, the state of the other views is
    untouched, and a forced invalidation is enqueued exactly when the view
    is mounted, which it then still is. *)
Theorem state_set_get (i : ViewId) (keys : gmap string Z) (W : World) :
  state_set (view_state W i) = SetDispatch →
  (∀ k, state_get i k (callSet i keys W)
        = match keys !! k with
          | Some z => Some z
          | None => state_get i k W
          end)
  ∧ (∀ j k, j ≠ i → state_get j k (callSet i keys W) = state_get j k W)
  ∧ queue (callSet i keys W)
    = queue W ++ (if mounted W i then [WForceInvalidate i] else [])
  ∧ mounted (callSet i keys W) i = mounted W i.
Proof.
  intros Hset. unfold callSet. rewrite Hset. unfold dispatch.
  set (W1 := with_view i (λ s, set_currentState (keys ∪ currentState s) s) W).
  assert (mounted W1 i = mounted W i) as Hm by (by apply mounted_with_view).
  assert (∀ j, view_state (invalidate i W1) j = view_state W1 j) as Hv.
  { intros j. unfold invalidate. by destruct (mounted W1 i). }
  split; [|split; [|split]].
  - intros k. unfold state_get. rewrite Hv. unfold W1.
    rewrite view_state_with_view, decide_True by done. simpl.
    rewrite lookup_union. destruct (keys !! k) as [z|] eqn:Ek; simpl.
    + by destruct (currentState (view_state W i) !! k).
    + by destruct (currentState (view_state W i) !! k).
  - intros j k Hne. unfold state_get. rewrite Hv. unfold W1.
    by rewrite view_state_with_view, decide_False.
  - unfold invalidate. rewrite Hm. destruct (mounted W i); simpl; [done|].
    by rewrite app_nil_r.
  - rewrite <- Hm. unfold invalidate.
    destruct (mounted W1 i) eqn:E; exact E.
Qed.

Lemma state_set_get_witness :
  state_set (view_state counter_mounted 1) = SetDispatch
  ∧ state_get 1 "renders" (callSet 1 {["renders" := 7%Z]} counter_mounted)
    = Some 7%Z
  ∧ queue (callSet 1 {["renders" := 7%Z]} counter_mounted)
    = queue counter_mounted ++ [WForceInvalidate 1].
Proof.
  split; [reflexivity|].
  destruct (state_set_get 1 {["renders" := 7%Z]} counter_mounted eq_refl)
    as (Hget & _ & Hq & _).
  split; [by rewrite Hget|]. by rewrite Hq.
Defined.

(** X19: once the unit of work of [mountTo] has run, the mount hook of the
    view is the last hook that has fired, [unmount] is accepted and enqueues
    the unmounting, and [invalidate] enqueues a forced invalidation. *)
Theorem mounted_view_accepts (this : View) (p : DomId) (W W' : World) :
  mountWork this p W = Ok tt W' →
  last (hooks W') = Some (HandleMount (view_id this))
  ∧ unmount this W' = Ok tt (addUnitOfWork (WUnmount (view_id this)) W')
  ∧ invalidate (view_id this) W'
    = addUnitOfWork (WForceInvalidate (view_id this)) W'.
Proof.
  intros Hw. pose proof (mountWork_mounted this p W W' Hw) as Hm.
  split; [|split].
  - unfold mountWork in Hw.
    destruct (renderToVNode _ _ _ _ _) as [r W1|e W1]; [|done].
    destruct (lastVNode (view_state W1 (view_id this))) as [n|]; [|done].
    injection Hw as <-. simpl. apply last_snoc.
  - unfold unmount. by rewrite Hm.
  - unfold invalidate. by rewrite Hm.
Qed.

Lemma mounted_view_accepts_witness :
  mountWork (container 1 1 []) 0 mount_pending = Ok tt mount_done
  ∧ last (hooks mount_done) = Some (HandleMount 1)
  ∧ unmount (container 1 1 []) mount_done
    = Ok tt (addUnitOfWork (WUnmount 1) mount_done)
  ∧ invalidate 1 mount_done = addUnitOfWork (WForceInvalidate 1) mount_done.
Proof.
  assert (mountWork (container 1 1 []) 0 mount_pending = Ok tt mount_done)
    as Hw by (vm_compute; reflexivity).
  split; [exact Hw|].
  apply (mounted_view_accepts (container 1 1 []) 0 mount_pending mount_done Hw).
Defined.

End ViewRendering.

(** * Further properties of the builders *)

Module ViewBuilders.

Import ViewProperties ViewPropertiesSpec.

Implicit Types (H : gmap Loc (gmap string string)).

(** X20: [applyViewProperties] copies no event handler: each list of
    handlers of the source is passed to [addHandlerFor] as a whole, and an
    array is not a function. The key of the source is taken over exactly
    when it is truthy. *)
Theorem applyViewProperties_events_key (this view this' : ViewObj)
    (H H' : gmap Loc (gmap string string)) :
  applyViewProperties (Some view) this H = Some (this', H') →
  events this' = events this
  ∧ key this' = (if Reconciler.truthy (key view) then key view else key this).
Proof.
  unfold applyViewProperties.
  destruct (Object_assign (styles this) _ H) as [[s H1]|]; simpl; [|done].
  destruct (Object_assign s _ H1) as [[a H2]|]; simpl; [|done].
  rewrite copy_events_unchanged. simpl. intros [= <- <-].
  by destruct (Reconciler.truthy (key view)).
Qed.

Lemma applyViewProperties_events_key_witness :
  ∃ this' H',
    applyViewProperties (Some keyed_source) receiver sample_heap
    = Some (this', H')
    ∧ events keyed_source !! "click" = Some [5]
    ∧ events this' = ∅ ∧ key this' = Reconciler.KStr "row".
Proof.
  destruct (applyViewProperties (Some keyed_source) receiver sample_heap)
    as [[this' H']|] eqn:E; [|by vm_compute in E].
  exists this', H'. split; [done|]. split; [reflexivity|].
  destruct (applyViewProperties_events_key receiver keyed_source this'
              sample_heap H' E) as [He Hk].
  clear E. by rewrite He, Hk.
Defined.

Lemma addHandlerFor_events e h this this' event :
  addHandlerFor e h this = Some this' →
  default [] (events this' !! event)
  = default [] (events this !! event) ++ functions_for event [(e, h)].
Proof.
  unfold functions_for. simpl. rewrite app_nil_r.
  destruct h as [f|l]; simpl; [|intros [= <-]; by rewrite app_nil_r].
  unfold in_events. destruct (events this !! e) as [hs|] eqn:Ee; simpl.
  - rewrite Ee. simpl. intros [= <-]. simpl.
    destruct (decide (e = event)) as [<-|Hne].
    + by rewrite lookup_insert_eq, Ee.
    + rewrite lookup_insert_ne by done. by rewrite app_nil_r.
  - case_bool_decide as Hp; [by rewrite Ee|].
    rewrite lookup_insert_eq. simpl. intros [= <-]. simpl.
    destruct (decide (e = event)) as [<-|Hne].
    + by rewrite lookup_insert_eq, Ee.
    + rewrite !lookup_insert_ne by done. by rewrite app_nil_r.
Qed.

Lemma addHandlerFor_defined e h this :
  is_Some (addHandlerFor e h this)
  ↔ ∀ f, h = AFunction f → e ∈ Object_prototype → is_Some (events this !! e).
Proof.
  destruct h as [f|l]; simpl; [|split; [done|by eexists]].
  unfold in_events. destruct (events this !! e) as [hs|] eqn:Ee; simpl.
  - rewrite Ee. simpl. split; [by eexists|by eexists].
  - case_bool_decide as Hp.
    + rewrite Ee. simpl. split; [by intros ?%is_Some_None|].
      intros Hf. by destruct (Hf f eq_refl Hp).
    + rewrite lookup_insert_eq. simpl. split; [done|by eexists].
Qed.

Lemma addHandlerFor_inherited e h this this' x :
  addHandlerFor e h this = Some this' → x ∈ Object_prototype →
  is_Some (events this' !! x) ↔ is_Some (events this !! x).
Proof.
  destruct h as [f|l]; simpl; [|by intros [= <-]].
  unfold in_events. destruct (events this !! e) as [hs|] eqn:Ee; simpl.
  - rewrite Ee. simpl. intros [= <-] Hx. simpl.
    destruct (decide (e = x)) as [<-|Hne].
    + rewrite lookup_insert_eq, Ee. split; by eexists.
    + by rewrite lookup_insert_ne.
  - case_bool_decide as Hp; [by rewrite Ee|].
    rewrite lookup_insert_eq. simpl. intros [= <-] Hx. simpl.
    assert (e ≠ x) as Hne by (by intros ->).
    by rewrite !lookup_insert_ne.
Qed.

Lemma events_addHandlers regs :
  ∀ this this' event,
    addHandlers regs this = Some this' →
    default [] (events this' !! event)
    = default [] (events this !! event) ++ functions_for event regs.
Proof.
  induction regs as [|[e h] regs IH]; intros this this' event; simpl.
  - intros [= <-]. by rewrite app_nil_r.
  - destruct (addHandlerFor e h this) as [this1|] eqn:E1; simpl; [|done].
    intros Heq. rewrite (IH _ _ _ Heq).
    rewrite (addHandlerFor_events _ _ _ _ event E1).
    unfold functions_for. simpl. by rewrite app_nil_r, <- app_assoc.
Qed.

Lemma addHandlers_defined regs :
  ∀ this, is_Some (addHandlers regs this) ↔ registrable regs this.
Proof.
  unfold registrable.
  induction regs as [|[e h] regs IH]; intros this; simpl.
  - split; [|by eexists]. intros _ event f Hin. by apply elem_of_nil in Hin.
  - destruct (addHandlerFor e h this) as [this1|] eqn:E1; simpl.
    + rewrite IH. split.
      * intros Hr event f Hin Hp. apply elem_of_cons in Hin as [[= -> <-]|Hin].
        -- exact (proj1 (addHandlerFor_defined e (AFunction f) this)
                         (ex_intro _ this1 E1) f eq_refl Hp).
        -- apply (addHandlerFor_inherited _ _ _ _ event E1 Hp).
           by apply (Hr event f).
      * intros Hr event f Hin Hp.
        apply (addHandlerFor_inherited _ _ _ _ event E1 Hp).
        apply (Hr event f); [|done]. apply elem_of_cons. by right.
    + split; [by intros ?%is_Some_None|]. intros Hr. exfalso.
      assert (is_Some (addHandlerFor e h this)) as [? Hs]; [|congruence].
      apply addHandlerFor_defined. intros f -> Hp.
      apply (Hr e f); [|done]. apply elem_of_cons. by left.
Qed.

(** X21: a sequence of [addHandlerFor] calls goes through exactly when no
    function is registered under a name that [this.events] only inherits
    from [Object.prototype], such as [toString] or [constructor]; such a
    call throws a [TypeError]. When it goes through, the handlers that
    [handleMount], [handleUnmount] and [handleInvalidation] call are those
    the view had, followed by the functions registered for the event, in
    the order of the registrations and as often as they were registered;
    registrations that are not functions, or are for other events, add
    nothing. *)
Theorem handlers_in_registration_order (regs : list (string * Arg))
    (this : ViewObj) :
  (is_Some (addHandlers regs this) ↔ registrable regs this)
  ∧ (∀ event f, event ∈ Object_prototype → events this !! event = None →
                addHandlerFor event (AFunction f) this = None)
  ∧ ∀ this', addHandlers regs this = Some this' →
      handleMount this' = handleMount this ++ functions_for "mount" regs
      ∧ handleUnmount this' = handleUnmount this ++ functions_for "unmount" regs
      ∧ handleInvalidation this'
        = handleInvalidation this ++ functions_for "invalidation" regs.
Proof.
  split; [apply addHandlers_defined|]. split.
  - intros event f Hp Hnone.
    destruct (addHandlerFor event (AFunction f) this) as [t|] eqn:E; [|done].
    assert (is_Some (events this !! event)) as [? Hs]; [|congruence].
    exact (proj1 (addHandlerFor_defined event (AFunction f) this)
                 (ex_intro _ t E) f eq_refl Hp).
  - intros this' Heq. split; [|split]; by apply events_addHandlers.
Qed.

Lemma handlers_in_registration_order_witness :
  ∃ this',
    addHandlers [("mount", AFunction 1); ("click", AFunction 2);
                 ("mount", AArray [3]); ("mount", AFunction 4)] receiver
    = Some this'
    ∧ handleMount this' = [1; 4]
    ∧ handleUnmount this' = []
    ∧ addHandlerFor "toString" (AFunction 5) receiver = None
    ∧ addHandlers [("mount", AFunction 1); ("constructor", AFunction 5)]
                  receiver = None.
Proof.
  destruct (addHandlers [("mount", AFunction 1); ("click", AFunction 2);
                         ("mount", AArray [3]); ("mount", AFunction 4)]
                        receiver) as [this'|] eqn:E; [|by vm_compute in E].
  exists this'. split; [done|].
  destruct (handlers_in_registration_order
              [("mount", AFunction 1); ("click", AFunction 2);
               ("mount", AArray [3]); ("mount", AFunction 4)] receiver)
    as (_ & Hthrow & Hok).
  destruct (Hok this' E) as (Hm & Hu & _).
  split; [by rewrite Hm|]. split; [by rewrite Hu|].
  split.
  - apply Hthrow; [|done]. apply (bool_decide_unpack _). by vm_compute.
  - destruct (handlers_in_registration_order
                [("mount", AFunction 1); ("constructor", AFunction 5)] receiver)
      as (Hdef & _ & _).
    destruct (addHandlers [("mount", AFunction 1); ("constructor", AFunction 5)]
                          receiver) as [t|] eqn:E2; [|done].
    exfalso. assert (is_Some (events receiver !! "constructor")) as [? Hs].
    { apply (proj1 Hdef (ex_intro _ t eq_refl) "constructor" 5).
      - apply elem_of_cons. right. apply elem_of_cons. by left.
      - apply (bool_decide_unpack _). by vm_compute. }
    done.
Defined.

(** X22: two [applyCSS] calls in a row amount to one call with the
    properties of the second over those of the first: properties accumulate
    in the style object, the later value wins, and nothing is ever removed. *)
Theorem applyCSS_twice (p1 p2 : gmap string string) (this : ViewObj)
    (H H1 H2 : gmap Loc (gmap string string)) :
  applyCSS p1 this H = Some H1 → applyCSS p2 this H1 = Some H2 →
  applyCSS (p2 ∪ p1) this H = Some H2
  ∧ entries H2 (styles this) = p2 ∪ (p1 ∪ entries H (styles this)).
Proof.
  unfold applyCSS, entries. destruct (styles this) as [l|].
  - destruct (H !! l) as [o|] eqn:Eo; simpl; [|done]. intros [= <-].
    rewrite lookup_insert_eq. simpl. intros [= <-].
    rewrite insert_insert_eq, lookup_insert_eq. simpl.
    by rewrite (assoc_L (∪)).
  - destruct (decide (p1 = ∅)) as [->|]; [|done]. intros [= <-].
    destruct (decide (p2 = ∅)) as [->|]; [|done]. intros [= <-].
    rewrite !(left_id_L ∅ (∪)). by rewrite decide_True.
Qed.

Lemma applyCSS_twice_witness :
  ∃ H1 H2,
    applyCSS {["color" := "blue"]} receiver sample_heap = Some H1
    ∧ applyCSS {["width" := "2px"]} receiver H1 = Some H2
    ∧ applyCSS ({["width" := "2px"]} ∪ {["color" := "blue"]}) receiver
               sample_heap = Some H2
    ∧ entries H2 (styles receiver)
      = {["width" := "2px"]}
        ∪ ({["color" := "blue"]} ∪ entries sample_heap (styles receiver)).
Proof.
  assert (sample_heap !! (0 : Loc) = Some {["color" := "red"]}) as E0.
  { unfold sample_heap. by rewrite lookup_insert_eq. }
  assert (applyCSS {["color" := "blue"]} receiver sample_heap
          = Some (<[0 := {["color" := "blue"]} ∪ {["color" := "red"]}]>
                    sample_heap)) as E1.
  { unfold applyCSS. cbn [styles receiver]. by rewrite E0. }
  assert (applyCSS {["width" := "2px"]} receiver
                   (<[0 := {["color" := "blue"]} ∪ {["color" := "red"]}]>
                      sample_heap)
          = Some (<[0 := {["width" := "2px"]}
                         ∪ ({["color" := "blue"]} ∪ {["color" := "red"]})]>
                    (<[0 := {["color" := "blue"]} ∪ {["color" := "red"]}]>
                       sample_heap))) as E2.
  { unfold applyCSS. cbn [styles receiver]. by rewrite lookup_insert_eq. }
  eexists _, _. split; [exact E1|]. split; [exact E2|].
  exact (applyCSS_twice _ _ receiver sample_heap _ _ E1 E2).
Defined.

End ViewBuilders.

(** * Properties of the fonts *)

Module FontSpec.
Import Font.

(** X23: [textStyleToTagName] and [fontStyleToCssValue] give a value for
    every member of their enumeration. [weightToCssValue] gives one for
    every weight but [ultraLight], for which it returns [undefined]; it
    never returns ["100"], and on the other weights it is injective. *)
Theorem conversions_defined :
  (∀ s, is_Some (textStyleToTagName (Some s)))
  ∧ (∀ s, is_Some (fontStyleToCssValue (Some s)))
  ∧ (∀ w, weightToCssValue (Some w) = None ↔ w = ultraLight)
  ∧ (∀ w, weightToCssValue (Some w) ≠ Some "100")
  ∧ (∀ w w', weightToCssValue (Some w) = weightToCssValue (Some w') →
             w ≠ ultraLight → w = w').
Proof.
  split; [|split; [|split; [|split]]].
  - intros []; by eexists.
  - intros []; by eexists.
  - intros w. destruct w; simpl; split; done.
  - intros w. by destruct w.
  - intros w w' Heq Hne. destruct w, w'; simpl in Heq; done.
Qed.

(** X24: [with] without any argument gives a font with the same fields. An
    argument that the constructor accepts replaces the field, a number given
    as size becoming a length in points; an argument that is neither empty
    nor accepted does not leave the field as it was but resets it to what
    the constructor gives for a missing one; and the font style cannot be
    changed through [with]. *)
Theorem with_overrides (this : Font) (n : Given string) (t : Given TextStyle)
    (s : Given Size) (w : Given Weight) :
  with_ this Missing Missing Missing Missing = this
  ∧ fontStyle (with_ this n t s w) = fontStyle this
  ∧ weight (with_ this n t s w)
    = match w with
      | Missing => weight this
      | Valid x => Some x
      | Invalid => None
      end
  ∧ textStyle (with_ this n t s w)
    = match t with
      | Missing => textStyle this
      | Valid x => x
      | Invalid => ts_default
      end
  ∧ size (with_ this n t s w)
    = match s with
      | Missing => size this
      | Valid (SLength l) => l
      | Valid (SNumber z) => mkLength z points
      | Invalid => mkLength 1 parentFontSize
      end
  ∧ name (with_ this n t s w)
    = match n with
      | Missing => name this
      | Valid x => Some x
      | Invalid => None
      end.
Proof.
  destruct this as [nm ts wt fs sz]. unfold with_, new_Font, clone. simpl.
  split; [by destruct nm, wt, fs|].
  split; [by destruct fs|].
  split; [by destruct w, wt|].
  split; [by destruct t|].
  split; [by destruct s as [|[]|]|].
  by destruct n, nm.
Qed.

End FontSpec.
